(** * fmus-embed DSP core: a shallow embedding and its verified properties

    The development follows the sources under [src/src/dsp] and
    [src/include/fmus/dsp].  It has three parts.

    The model:
    - [U32], [Core], [Vec], [Cplx], [Loop] : the [uint32_t] arithmetic,
      [core::Result], vectors, complex numbers and counted loops the code
      relies on;
    - [Pow2], [FFT] : [fft.cpp];
    - [LowPassFilter] ... [KalmanFilter], [Filter], [createFilter] :
      [filter.cpp];
    - [RealTimeProcessor], [Resampling] : [dsp.cpp];
    - [RealTimeFFT] : the class declared in [fft.h];
    - [Scalar], [Template] : the sample type [T] as a parameter, and the
      templates whose results depend on its arithmetic
      ([MovingAverageFilter], [MedianFilter], [KalmanFilter],
      [SpectralAnalysis], [calculateSignalStats], [crossCorrelation]).

    The vocabulary of the statements (modules [...Defs]): invariants and
    reference values.

    The facts (modules [...Facts]), the main theorems (modules
    [...Claims]) and further properties of the code (modules [...Props]).

    The template parameter [T] is [float] or [double] in the C++ sources.
    The modules of [Template] take its arithmetic as a parameter,
    [Scalar.ops], of which exact real arithmetic and IEEE binary64 are
    instances: a theorem stated for every arithmetic holds with the
    rounding, overflow and NaN of the arithmetic the code runs on, and is
    evaluated on [double] values where an example is given.  The other
    modules write samples as real numbers; their theorems are about
    control flow, 32-bit counters, the state of the objects and equalities
    between the same operations applied in the same order. *)

From Stdlib Require Import ZArith List Lia Bool Reals Lra.
From Stdlib Require Import Sorted Permutation.
From Stdlib Require Floats.
Import ListNotations.

(* ================================================================== *)
(** * 32-bit unsigned integers *)
(* ================================================================== *)

Module U32.

Local Open Scope Z_scope.

Definition modulus : Z := 2 ^ 32.

(** The value a [uint32_t] holds after an arithmetic result [z]. *)
Definition wrap (z : Z) : Z := z mod modulus.

(** [x] is representable as a [uint32_t]. *)
Definition in_range (x : Z) : Prop := 0 <= x < modulus.

(** [static_cast<uint32_t>(v.size())] for a vector of the given length. *)
Definition of_size (n : nat) : Z := wrap (Z.of_nat n).

Definition is_pow2 (z : Z) : Prop := exists k, 0 <= k /\ z = 2 ^ k.

End U32.

(* ================================================================== *)
(** * fft.cpp : power-of-two helpers *)
(* ================================================================== *)

Module Pow2.

Import U32.
Local Open Scope Z_scope.

(** [bool FFT::isValidSize(uint32_t size)]:
    [return size > 0 && (size & (size - 1)) == 0;] *)
Definition isValidSize (size : Z) : bool :=
  (0 <? size) && (Z.land size (wrap (size - 1)) =? 0).

(** One line [n |= n >> s;] of [FFT::nextPowerOf2]. *)
Definition smear_step (s n : Z) : Z := Z.lor n (Z.shiftr n s).

(** The five smearing lines of [FFT::nextPowerOf2]. *)
Definition smear (n : Z) : Z :=
  smear_step 16 (smear_step 8 (smear_step 4 (smear_step 2 (smear_step 1 n)))).

(** [uint32_t FFT::nextPowerOf2(uint32_t n)]. *)
Definition nextPowerOf2 (n : Z) : Z :=
  if n =? 0 then 1
  else
    let n := wrap (n - 1) in
    let n := smear n in
    wrap (n + 1).

End Pow2.

(* ================================================================== *)
(** * core/result.h and std::vector *)
(* ================================================================== *)

Module Core.

(** The [core::ErrorCode] values the DSP sources construct. *)
Inductive ErrorCode : Set :=
| InvalidArgument
| DataError.

(** [core::Result<T>]: a value ([makeOk]) or an error code ([makeError]). *)
Inductive Result (A : Type) : Type :=
| Ok (value : A)
| Err (code : ErrorCode).

Arguments Ok {A} value.
Arguments Err {A} code.

Definition isOk {A} (r : Result A) : bool :=
  match r with Ok _ => true | Err _ => false end.

(** Partial computations: [None] stands for a loop that has not finished
    within its iteration budget. *)
Definition bind {A B} (m : option A) (k : A -> option B) : option B :=
  match m with
  | Some a => k a
  | None => None
  end.

End Core.

Notation "x <- m ;; k" := (Core.bind m (fun x => k))
  (at level 61, m at next level, right associativity).

Module Vec.

(** [v.resize(n, d)]: truncate, or pad on the right with [d]. *)
Definition resize {A} (n : nat) (d : A) (v : list A) : list A :=
  firstn n v ++ repeat d (n - length v).

(** [v[i] = x]. Every index the sources write is in range; a write out of
    range leaves the model unchanged. *)
Fixpoint upd {A} (v : list A) (i : nat) (x : A) : list A :=
  match v, i with
  | [], _ => []
  | _ :: t, O => x :: t
  | h :: t, S i' => h :: upd t i' x
  end.

(** The last [n] elements of [v]. *)
Definition lastn {A} (n : nat) (v : list A) : list A :=
  skipn (length v - n) v.

(** [0, 1, ..., n-1] as [uint32_t] loop counters. *)
Definition zrange (n : Z) : list Z :=
  map Z.of_nat (seq 0 (Z.to_nat n)).

Definition Rsum (v : list R) : R := fold_right Rplus 0%R v.

End Vec.

(* ================================================================== *)
(** * std::complex and loops on 32-bit counters *)
(* ================================================================== *)

Module Cplx.

Local Open Scope R_scope.

(** [std::complex<T>]: real and imaginary part. *)
Definition C : Type := (R * R)%type.

Definition re (z : C) : R := fst z.
Definition im (z : C) : R := snd z.

Definition C0 : C := (0, 0).
Definition C1 : C := (1, 0).

Definition Cadd (a b : C) : C := (re a + re b, im a + im b).
Definition Csub (a b : C) : C := (re a - re b, im a - im b).
Definition Cmul (a b : C) : C :=
  (re a * re b - im a * im b, re a * im b + im a * re b).

(** [z *= k] for a real [k]. *)
Definition Cscale (k : R) (z : C) : C := (re z * k, im z * k).

End Cplx.

Module Loop.

(** [for (uint32_t i = i0; cond(i); i = next(i)) s = body(i, s);] run for
    at most [fuel] iterations; [None] when the budget is exhausted or the
    body does not finish. *)
Fixpoint for_u32 {S : Type} (fuel : nat) (cond : Z -> bool) (next : Z -> Z)
         (body : Z -> S -> option S) (i : Z) (s : S) : option S :=
  match fuel with
  | O => None
  | Datatypes.S fuel' =>
      if cond i
      then match body i s with
           | Some s' => for_u32 fuel' cond next body (next i) s'
           | None => None
           end
      else Some s
  end.

End Loop.

(* ================================================================== *)
(** * fft.h, fft.cpp : the transform *)
(* ================================================================== *)

Module WindowType.

Inductive t : Set :=
| None | Hanning | Hamming | Blackman | Kaiser | Gaussian | Tukey.

End WindowType.

Module FFT.

Import U32 Core Cplx Pow2 Loop.
Local Open Scope Z_scope.

(** [struct FFTResult<T>]. *)
Record FFTResult : Type := mkFFTResult {
  data : list C;
  sampleRate : R;
  frequencyResolution : R;
  size : Z;
  windowUsed : WindowType.t
}.

(** [data[i]] and [data[i] = x] for a [uint32_t] index. *)
Definition get (data : list C) (i : Z) : C := nth (Z.to_nat i) data C0.
Definition set (data : list C) (i : Z) (x : C) : list C :=
  Vec.upd data (Z.to_nat i) x.

(** [FFT::zeroPad(signal, targetSize)]. *)
Definition zeroPad (signal : list R) (targetSize : Z) : list R :=
  Vec.resize (Z.to_nat targetSize) 0%R signal.

(** [FFT::generateWindow(size, window, parameter)]. *)
Definition generateWindow (size : Z) (window : WindowType.t) (parameter : R)
  : list R :=
  let last := IZR (wrap (size - 1)) in
  let coeff : Z -> R :=
    match window with
    | WindowType.None => fun _ => 1%R
    | WindowType.Hanning =>
        fun i => (1 / 2 * (1 - cos (2 * PI * IZR i / last)))%R
    | WindowType.Hamming =>
        fun i => (54 / 100 - 46 / 100 * cos (2 * PI * IZR i / last))%R
    | WindowType.Blackman =>
        fun i =>
          let n := (IZR i / last)%R in
          (42 / 100 - 1 / 2 * cos (2 * PI * n) + 8 / 100 * cos (4 * PI * n))%R
    | WindowType.Kaiser =>
        let parameter := if Req_dec_T parameter 0 then 5%R else parameter in
        fun i =>
          let n := (IZR i / last)%R in
          let arg := (parameter * sqrt (1 - (2 * n - 1) * (2 * n - 1)))%R in
          (exp arg / exp parameter)%R
    | WindowType.Gaussian =>
        let parameter :=
          if Req_dec_T parameter 0 then (4 / 10)%R else parameter in
        fun i =>
          let n := ((IZR i - last / 2) / (last / 2))%R in
          exp (- (1 / 2) * (n / parameter) * (n / parameter))
    | WindowType.Tukey =>
        let parameter :=
          if Req_dec_T parameter 0 then (1 / 2)%R else parameter in
        fun i =>
          let n := (IZR i / last)%R in
          if Rlt_dec n (parameter / 2)
          then (1 / 2 * (1 + cos (PI * (2 * n / parameter - 1))))%R
          else if Rlt_dec (1 - parameter / 2) n
               then (1 / 2 *
                     (1 + cos (PI * (2 * n / parameter - 2 / parameter + 1))))%R
               else 1%R
    end in
  map coeff (Vec.zrange size).

(** [FFT::applyWindow(signal, window, parameter)]. *)
Definition applyWindow (signal : list R) (window : WindowType.t)
           (parameter : R) : list R :=
  let windowCoeffs := generateWindow (of_size (length signal)) window parameter in
  map (fun i => (nth i signal 0 * nth i windowCoeffs 0)%R)
      (seq 0 (length signal)).

(** The [while] loop of [FFT::bitReverse], [while (j & bit)]: a 32-bit
    [bit] is zero after 32 shifts, so the loop has left by its 33rd
    test. *)
Fixpoint rev_carry (steps : nat) (j bit : Z) : Z * Z :=
  match steps with
  | O => (j, bit)
  | S steps' =>
      if Z.land j bit =? 0 then (j, bit)
      else rev_carry steps' (Z.lxor j bit) (Z.shiftr bit 1)
  end.

(** The update of [j] in one iteration of [FFT::bitReverse]. *)
Definition rev_next (n j : Z) : Z :=
  let '(j, bit) := rev_carry 33 j (Z.shiftr n 1) in
  Z.lxor j bit.

(** [std::swap(data[i], data[j])]. *)
Definition swap (data : list C) (i j : Z) : list C :=
  set (set data i (get data j)) j (get data i).

(** [FFT::bitReverse(data)]. *)
Definition bitReverse (data : list C) : list C :=
  let n := of_size (length data) in
  snd (fold_left
         (fun '(j, data) i =>
            let j := rev_next n j in
            (j, if i <? j then swap data i j else data))
         (map Z.succ (Vec.zrange (n - 1)))
         (0, data)).

(** The body of the innermost loop of [FFT::radix2FFT]. *)
Definition butterfly (data : list C) (i j half : Z) (w : C) : list C :=
  let u := get data (wrap (i + j)) in
  let v := Cmul (get data (wrap (wrap (i + j) + half))) w in
  let data := set data (wrap (i + j)) (Cadd u v) in
  set data (wrap (wrap (i + j) + half)) (Csub u v).

(** The loop on [j], for the block that starts at [i]. *)
Definition block (data : list C) (i len : Z) (wlen : C) : list C :=
  fst (fold_left
         (fun '(data, w) j => (butterfly data i j (len / 2) w, Cmul w wlen))
         (Vec.zrange (len / 2))
         (data, C1)).

(** The twiddle factor [wlen] of a stage. *)
Definition twiddle (inverse : bool) (len : Z) : C :=
  let angle := ((if inverse then 2 else -2) * PI / IZR len)%R in
  (cos angle, sin angle).

(** The loop on [i], for one value of [len]. *)
Definition stage (fuel : nat) (n : Z) (inverse : bool) (len : Z)
           (data : list C) : option (list C) :=
  let wlen := twiddle inverse len in
  for_u32 fuel (fun i => i <? n) (fun i => wrap (i + len))
          (fun i data => Some (block data i len wlen)) 0 data.

(** [FFT::radix2FFT(data, inverse)]. *)
Definition radix2FFT (fuel : nat) (data : list C) (inverse : bool)
  : option (list C) :=
  let n := of_size (length data) in
  if negb (isValidSize n) then Some data
  else
    let data := bitReverse data in
    data <- for_u32 fuel (fun len => len <=? n)
                    (fun len => wrap (Z.shiftl len 1))
                    (fun len data => stage fuel n inverse len data) 2 data ;;
    Some (if inverse then map (Cscale (1 / IZR n)%R) data else data).

(** [FFT::forward(const std::vector<T>&, sampleRate, window)]. *)
Definition forward (fuel : nat) (input : list R) (sampleRate : R)
           (window : WindowType.t) : option (Result FFTResult) :=
  match input with
  | [] => Some (Err InvalidArgument)
  | _ =>
      let fftSize := nextPowerOf2 (of_size (length input)) in
      let paddedInput := zeroPad input fftSize in
      let paddedInput :=
        match window with
        | WindowType.None => paddedInput
        | _ =>
            let windowCoeffs := generateWindow fftSize window 0 in
            map (fun i => (nth i paddedInput 0 * nth i windowCoeffs 0)%R)
                (seq 0 (length paddedInput))
        end in
      let complexData := map (fun sample => (sample, 0%R)) paddedInput in
      data <- radix2FFT fuel complexData false ;;
      Some (Ok {| data := data;
                  sampleRate := sampleRate;
                  frequencyResolution := (sampleRate / IZR fftSize)%R;
                  size := fftSize;
                  windowUsed := window |})
  end.

(** [FFT::forward(const std::vector<std::complex<T>>&, sampleRate, window)]. *)
Definition forwardComplex (fuel : nat) (input : list C) (sampleRate : R)
           (window : WindowType.t) : option (Result FFTResult) :=
  match input with
  | [] => Some (Err InvalidArgument)
  | _ =>
      let fftSize := nextPowerOf2 (of_size (length input)) in
      let paddedInput := Vec.resize (Z.to_nat fftSize) C0 input in
      let paddedInput :=
        match window with
        | WindowType.None => paddedInput
        | _ =>
            let windowCoeffs := generateWindow fftSize window 0 in
            map (fun i => Cscale (nth i windowCoeffs 0%R) (nth i paddedInput C0))
                (seq 0 (length paddedInput))
        end in
      data <- radix2FFT fuel paddedInput false ;;
      Some (Ok {| data := data;
                  sampleRate := sampleRate;
                  frequencyResolution := (sampleRate / IZR fftSize)%R;
                  size := fftSize;
                  windowUsed := window |})
  end.

(** [FFT::inverse(input)]. *)
Definition inverse (fuel : nat) (input : list C) : option (Result (list R)) :=
  match input with
  | [] => Some (Err InvalidArgument)
  | _ =>
      data <- radix2FFT fuel input true ;;
      Some (Ok (map re data))
  end.

(** [FFT::inverseComplex(input)]. *)
Definition inverseComplex (fuel : nat) (input : list C)
  : option (Result (list C)) :=
  match input with
  | [] => Some (Err InvalidArgument)
  | _ =>
      data <- radix2FFT fuel input true ;;
      Some (Ok data)
  end.

End FFT.

(* ================================================================== *)
(** * filter.cpp *)
(* ================================================================== *)

(** [std::clamp(v, lo, hi)]. *)
Definition clamp (v lo hi : R) : R :=
  if Rlt_dec v lo then lo else if Rlt_dec hi v then hi else v.

(** The batch overload [process(const std::vector<T>&)] shared by all
    filters: the scalar [process] applied to each element in order, the
    state carried along. *)
Fixpoint process_all {S A : Type} (process : S -> A -> S * A)
         (f : S) (input : list A) : S * list A :=
  match input with
  | [] => (f, [])
  | x :: rest =>
      let '(f1, y) := process f x in
      let '(f2, ys) := process_all process f1 rest in
      (f2, y :: ys)
  end.

Module LowPassFilter.

Local Open Scope R_scope.

Record t : Type := mk {
  m_alpha : R;
  m_previousOutput : R;
  m_order : Z
}.

(** [LowPassFilter(T alpha)]. *)
Definition make_alpha (alpha : R) : t :=
  {| m_alpha := if Rle_dec alpha 0 then clamp alpha (1/1000) (999/1000)
                else if Rle_dec 1 alpha then clamp alpha (1/1000) (999/1000)
                else alpha;
     m_previousOutput := 0;
     m_order := 1 |}.

(** [LowPassFilter(T cutoffFreq, uint32_t order)]. *)
Definition make (cutoffFreq : R) (order : Z) : t :=
  {| m_alpha := clamp (1 - exp (- 2 * PI * cutoffFreq)) (1/1000) (999/1000);
     m_previousOutput := 0;
     m_order := order |}.

Definition process (f : t) (input : R) : t * R :=
  let y := m_alpha f * input + (1 - m_alpha f) * m_previousOutput f in
  ({| m_alpha := m_alpha f; m_previousOutput := y; m_order := m_order f |}, y).

Definition reset (f : t) : t :=
  {| m_alpha := m_alpha f; m_previousOutput := 0; m_order := m_order f |}.

Definition getOrder (f : t) : Z := m_order f.

(** [void LowPassFilter<T>::setAlpha(T alpha)]. *)
Definition setAlpha (f : t) (alpha : R) : t :=
  {| m_alpha := clamp alpha (1/1000) (999/1000);
     m_previousOutput := m_previousOutput f; m_order := m_order f |}.

Definition getAlpha (f : t) : R := m_alpha f.

End LowPassFilter.

Module HighPassFilter.

Local Open Scope R_scope.

Record t : Type := mk {
  m_alpha : R;
  m_previousInput : R;
  m_previousOutput : R;
  m_order : Z
}.

(** [HighPassFilter(T alpha)]. *)
Definition make_alpha (alpha : R) : t :=
  {| m_alpha := if Rle_dec alpha 0 then clamp alpha (1/1000) (999/1000)
                else if Rle_dec 1 alpha then clamp alpha (1/1000) (999/1000)
                else alpha;
     m_previousInput := 0;
     m_previousOutput := 0;
     m_order := 1 |}.

(** [HighPassFilter(T cutoffFreq, uint32_t order)]. *)
Definition make (cutoffFreq : R) (order : Z) : t :=
  {| m_alpha := clamp (1 - exp (- 2 * PI * cutoffFreq)) (1/1000) (999/1000);
     m_previousInput := 0;
     m_previousOutput := 0;
     m_order := order |}.

Definition process (f : t) (input : R) : t * R :=
  let y := m_alpha f * (m_previousOutput f + input - m_previousInput f) in
  ({| m_alpha := m_alpha f; m_previousInput := input;
      m_previousOutput := y; m_order := m_order f |}, y).

Definition reset (f : t) : t :=
  {| m_alpha := m_alpha f; m_previousInput := 0;
     m_previousOutput := 0; m_order := m_order f |}.

Definition getOrder (f : t) : Z := m_order f.

End HighPassFilter.

Module BandPassFilter.

Local Open Scope Z_scope.

Record t : Type := mk {
  m_lowCutoff : R;
  m_highCutoff : R;
  m_order : Z;
  m_lowPass : LowPassFilter.t;
  m_highPass : HighPassFilter.t
}.

(** [BandPassFilter(T lowCutoff, T highCutoff, uint32_t order)]. *)
Definition make (lowCutoff highCutoff : R) (order : Z) : t :=
  let '(lo, hi) := if Rle_dec highCutoff lowCutoff
                   then (highCutoff, lowCutoff) else (lowCutoff, highCutoff) in
  {| m_lowCutoff := lo;
     m_highCutoff := hi;
     m_order := order;
     m_lowPass := LowPassFilter.make hi (order / 2);
     m_highPass := HighPassFilter.make lo (order / 2) |}.

Definition process (f : t) (input : R) : t * R :=
  let '(hp, highPassOutput) := HighPassFilter.process (m_highPass f) input in
  let '(lp, y) := LowPassFilter.process (m_lowPass f) highPassOutput in
  ({| m_lowCutoff := m_lowCutoff f; m_highCutoff := m_highCutoff f;
      m_order := m_order f; m_lowPass := lp; m_highPass := hp |}, y).

Definition reset (f : t) : t :=
  {| m_lowCutoff := m_lowCutoff f; m_highCutoff := m_highCutoff f;
     m_order := m_order f;
     m_lowPass := LowPassFilter.reset (m_lowPass f);
     m_highPass := HighPassFilter.reset (m_highPass f) |}.

Definition getOrder (f : t) : Z := m_order f.

End BandPassFilter.

Module MovingAverageFilter.

Import U32.

Record t : Type := mk {
  m_windowSize : Z;
  m_buffer : list R;
  m_index : Z;
  m_sum : R;
  m_bufferFull : bool
}.

(** [MovingAverageFilter(uint32_t windowSize)]. *)
Definition make (windowSize : Z) : t :=
  let w := if (windowSize =? 0)%Z then 1%Z else windowSize in
  {| m_windowSize := w;
     m_buffer := Vec.resize (Z.to_nat w) 0%R [];
     m_index := 0;
     m_sum := 0;
     m_bufferFull := false |}.

(** [T MovingAverageFilter<T>::process(T input)]. *)
Definition process (f : t) (input : R) : t * R :=
  let i := Z.to_nat (m_index f) in
  let sum := (m_sum f - nth i (m_buffer f) 0)%R in
  let buffer := Vec.upd (m_buffer f) i input in
  let sum := (sum + input)%R in
  let index := (wrap (m_index f + 1) mod m_windowSize f)%Z in
  let full := if (index =? 0)%Z then true else m_bufferFull f in
  let divisor :=
    if full then m_windowSize f
    else if (index =? 0)%Z then m_windowSize f else index in
  ({| m_windowSize := m_windowSize f; m_buffer := buffer; m_index := index;
      m_sum := sum; m_bufferFull := full |},
   (sum / IZR divisor)%R).

Definition reset (f : t) : t :=
  {| m_windowSize := m_windowSize f;
     m_buffer := map (fun _ => 0%R) (m_buffer f);
     m_index := 0;
     m_sum := 0;
     m_bufferFull := false |}.

Definition getOrder (f : t) : Z := m_windowSize f.

(** [void MovingAverageFilter<T>::setWindowSize(uint32_t windowSize)]. *)
Definition setWindowSize (f : t) (windowSize : Z) : t :=
  if (windowSize =? 0)%Z then f
  else
    reset {| m_windowSize := windowSize;
             m_buffer := Vec.resize (Z.to_nat windowSize) 0%R (m_buffer f);
             m_index := m_index f;
             m_sum := m_sum f;
             m_bufferFull := m_bufferFull f |}.

Definition getWindowSize (f : t) : Z := m_windowSize f.

(** The filter after the samples [xs] have been processed one by one. *)
Definition feed (f : t) (xs : list R) : t := fst (process_all process f xs).

End MovingAverageFilter.

Module MedianFilter.

Import U32.

Record t : Type := mk {
  m_windowSize : Z;
  m_buffer : list R;
  m_index : Z;
  m_bufferFull : bool
}.

(** [MedianFilter(uint32_t windowSize)]. *)
Definition make (windowSize : Z) : t :=
  let w := if (windowSize =? 0)%Z then 1%Z else windowSize in
  {| m_windowSize := w;
     m_buffer := Vec.resize (Z.to_nat w) 0%R [];
     m_index := 0;
     m_bufferFull := false |}.

(** [std::sort] on a vector of samples, as an insertion sort: on totally
    ordered values every sorting algorithm returns the same vector. *)
Fixpoint insert (x : R) (v : list R) : list R :=
  match v with
  | [] => [x]
  | h :: t => if Rle_dec x h then x :: v else h :: insert x t
  end.

Definition sort (v : list R) : list R := fold_right insert [] v.

(** The last lines of [calculateMedian], on the sorted copy. *)
Definition middle (sortBuffer : list R) : R :=
  let size := length sortBuffer in
  if Nat.eqb (size mod 2) 0
  then ((nth (size / 2 - 1) sortBuffer 0 + nth (size / 2) sortBuffer 0) / 2)%R
  else nth (size / 2) sortBuffer 0%R.

(** [T MedianFilter<T>::calculateMedian()]. *)
Definition calculateMedian (f : t) : R :=
  let sortBuffer :=
    if m_bufferFull f then m_buffer f
    else firstn (Z.to_nat (m_index f)) (m_buffer f) in
  match sortBuffer with
  | [] => 0%R
  | _ => middle (sort sortBuffer)
  end.

(** [T MedianFilter<T>::process(T input)]. *)
Definition process (f : t) (input : R) : t * R :=
  let buffer := Vec.upd (m_buffer f) (Z.to_nat (m_index f)) input in
  let index := (wrap (m_index f + 1) mod m_windowSize f)%Z in
  let full := if (index =? 0)%Z then true else m_bufferFull f in
  let f' := {| m_windowSize := m_windowSize f; m_buffer := buffer;
               m_index := index; m_bufferFull := full |} in
  (f', calculateMedian f').

Definition reset (f : t) : t :=
  {| m_windowSize := m_windowSize f;
     m_buffer := map (fun _ => 0%R) (m_buffer f);
     m_index := 0;
     m_bufferFull := false |}.

Definition getOrder (f : t) : Z := m_windowSize f.

Definition feed (f : t) (xs : list R) : t := fst (process_all process f xs).

End MedianFilter.

Module KalmanFilter.

Local Open Scope R_scope.

Record t : Type := mk {
  m_processNoise : R;
  m_measurementNoise : R;
  m_estimate : R;
  m_covariance : R;
  m_initialEstimate : R;
  m_initialCovariance : R
}.

(** [KalmanFilter(processNoise, measurementNoise, initialEstimate,
    initialCovariance)]; the header's defaults are [0] and [1]. *)
Definition make (processNoise measurementNoise initialEstimate
                 initialCovariance : R) : t :=
  {| m_processNoise := processNoise;
     m_measurementNoise := measurementNoise;
     m_estimate := initialEstimate;
     m_covariance := initialCovariance;
     m_initialEstimate := initialEstimate;
     m_initialCovariance := initialCovariance |}.

(** [T KalmanFilter<T>::update(T measurement)]. *)
Definition update (f : t) (measurement : R) : t * R :=
  let covariance := m_covariance f + m_processNoise f in
  let kalmanGain := covariance / (covariance + m_measurementNoise f) in
  let estimate := m_estimate f + kalmanGain * (measurement - m_estimate f) in
  let covariance := (1 - kalmanGain) * covariance in
  ({| m_processNoise := m_processNoise f;
      m_measurementNoise := m_measurementNoise f;
      m_estimate := estimate;
      m_covariance := covariance;
      m_initialEstimate := m_initialEstimate f;
      m_initialCovariance := m_initialCovariance f |}, estimate).

Definition predict (f : t) : R := m_estimate f.

Definition reset (f : t) : t :=
  {| m_processNoise := m_processNoise f;
     m_measurementNoise := m_measurementNoise f;
     m_estimate := m_initialEstimate f;
     m_covariance := m_initialCovariance f;
     m_initialEstimate := m_initialEstimate f;
     m_initialCovariance := m_initialCovariance f |}.

Definition getEstimate (f : t) : R := m_estimate f.
Definition getCovariance (f : t) : R := m_covariance f.

(** The filter after one call of [update] for each measurement of [zs]. *)
Definition track (f : t) (zs : list R) : t :=
  fold_left (fun f z => fst (update f z)) zs f.

End KalmanFilter.

(** The closed family of classes deriving from [Filter<T>], with the
    virtual dispatch of [process], [reset] and [getOrder]. *)
Module Filter.

Inductive t : Type :=
| LowPass (f : LowPassFilter.t)
| HighPass (f : HighPassFilter.t)
| BandPass (f : BandPassFilter.t)
| MovingAverage (f : MovingAverageFilter.t)
| Median (f : MedianFilter.t).

Definition process (f : t) (input : R) : t * R :=
  match f with
  | LowPass g => let '(g', y) := LowPassFilter.process g input in (LowPass g', y)
  | HighPass g => let '(g', y) := HighPassFilter.process g input in (HighPass g', y)
  | BandPass g => let '(g', y) := BandPassFilter.process g input in (BandPass g', y)
  | MovingAverage g =>
      let '(g', y) := MovingAverageFilter.process g input in (MovingAverage g', y)
  | Median g => let '(g', y) := MedianFilter.process g input in (Median g', y)
  end.

Definition reset (f : t) : t :=
  match f with
  | LowPass g => LowPass (LowPassFilter.reset g)
  | HighPass g => HighPass (HighPassFilter.reset g)
  | BandPass g => BandPass (BandPassFilter.reset g)
  | MovingAverage g => MovingAverage (MovingAverageFilter.reset g)
  | Median g => Median (MedianFilter.reset g)
  end.

Definition getOrder (f : t) : Z :=
  match f with
  | LowPass g => LowPassFilter.getOrder g
  | HighPass g => HighPassFilter.getOrder g
  | BandPass g => BandPassFilter.getOrder g
  | MovingAverage g => MovingAverageFilter.getOrder g
  | Median g => MedianFilter.getOrder g
  end.

End Filter.

Module FilterType.

Inductive t : Set :=
| LowPass | HighPass | BandPass | BandStop | AllPass.

End FilterType.

(** [createFilter(type, cutoffFreq, order)]; [None] is the null pointer. *)
Definition createFilter (type : FilterType.t) (cutoffFreq : R) (order : Z)
  : option Filter.t :=
  match type with
  | FilterType.LowPass =>
      Some (Filter.LowPass (LowPassFilter.make cutoffFreq order))
  | FilterType.HighPass =>
      Some (Filter.HighPass (HighPassFilter.make cutoffFreq order))
  | _ => None
  end.

(** [createBandPassFilter(lowCutoff, highCutoff, order)]. *)
Definition createBandPassFilter (lowCutoff highCutoff : R) (order : Z)
  : option Filter.t :=
  Some (Filter.BandPass (BandPassFilter.make lowCutoff highCutoff order)).

(* ================================================================== *)
(** * dsp.cpp : RealTimeProcessor *)
(* ================================================================== *)

Module RealTimeProcessor.

Import U32 Core.

(** The chain holds [std::shared_ptr<Filter<T>>]: the filter objects live in
    a store shared with the caller, and a pointer is a handle into it.  A
    handle that designates no object plays the null pointer, and the same
    handle may occur several times in a chain. *)
Definition handle : Set := nat.
Definition store : Type := list Filter.t.

Definition deref (st : store) (p : handle) : option Filter.t := nth_error st p.

Record t : Type := mk {
  m_bufferSize : Z;
  m_sampleRate : R;
  m_filters : list handle;
  m_latency : Z
}.

(** [RealTimeProcessor(uint32_t bufferSize, T sampleRate)]. *)
Definition make (bufferSize : Z) (sampleRate : R) : t :=
  {| m_bufferSize := bufferSize; m_sampleRate := sampleRate;
     m_filters := []; m_latency := 0 |}.

(** [addFilter(std::shared_ptr<Filter<T>> filter)]. *)
Definition addFilter (st : store) (p : t) (filter : handle) : t * Result unit :=
  match deref st filter with
  | None => (p, Err InvalidArgument)
  | Some f =>
      ({| m_bufferSize := m_bufferSize p; m_sampleRate := m_sampleRate p;
          m_filters := m_filters p ++ [filter];
          m_latency := wrap (m_latency p + Filter.getOrder f) |},
       Ok tt)
  end.

Definition clearFilters (p : t) : t :=
  {| m_bufferSize := m_bufferSize p; m_sampleRate := m_sampleRate p;
     m_filters := []; m_latency := 0 |}.

(** [filter->process(output)] through a handle: the object is updated in
    the store. *)
Definition process_at (st : store) (h : handle) (x : R) : store * R :=
  match deref st h with
  | None => (st, x)
  | Some f => let '(f', y) := Filter.process f x in (Vec.upd st h f', y)
  end.

(** [T RealTimeProcessor<T>::processSample(T input)]. *)
Definition processSample (st : store) (p : t) (input : R) : store * R :=
  fold_left (fun '(st, output) h => process_at st h output)
            (m_filters p) (st, input).

(** [processBuffer(const std::vector<T>& input)]. *)
Definition processBuffer (st : store) (p : t) (input : list R)
  : store * list R :=
  process_all (fun st x => processSample st p x) st input.

Definition reset_at (st : store) (h : handle) : store :=
  match deref st h with
  | None => st
  | Some f => Vec.upd st h (Filter.reset f)
  end.

(** [void RealTimeProcessor<T>::reset()]. *)
Definition reset (st : store) (p : t) : store :=
  fold_left reset_at (m_filters p) st.

Definition getLatency (p : t) : Z := m_latency p.

(** The calls of the public interface. *)
Inductive call : Type :=
| AddFilter (filter : handle)
| ClearFilters
| ProcessSample (input : R)
| ProcessBuffer (input : list R)
| Reset.

(** One call on the processor [p], in the store [st]. *)
Definition exec (w : store * t) (c : call) : store * t :=
  let '(st, p) := w in
  match c with
  | AddFilter h => (st, fst (addFilter st p h))
  | ClearFilters => (st, clearFilters p)
  | ProcessSample x => (fst (processSample st p x), p)
  | ProcessBuffer xs => (fst (processBuffer st p xs), p)
  | Reset => (reset st p, p)
  end.

Definition run (w : store * t) (cs : list call) : store * t :=
  fold_left exec cs w.

(** The sum of [getOrder()] over the filters currently in the chain. *)
Definition order_sum (st : store) (p : t) : Z :=
  fold_right Z.add 0%Z
    (map (fun h => match deref st h with
                   | Some f => Filter.getOrder f
                   | None => 0%Z
                   end) (m_filters p)).

End RealTimeProcessor.

(* ================================================================== *)
(** * dsp.cpp : resampling *)
(* ================================================================== *)

Module Resampling.

Import Core.

(** [for (size_t i = start; i < v.size(); i += factor) out.push_back(v[i]);]
    for [factor >= 1]: the loop runs at most [budget = v.size()] times. *)
Fixpoint every (budget : nat) (factor : nat) (v : list R) (i : nat) : list R :=
  match budget with
  | O => []
  | S budget' =>
      if (i <? length v)%nat
      then nth i v 0%R :: every budget' factor v (i + factor)
      else []
  end.

(** [decimate(signal, factor, useFilter)]. *)
Definition decimate (signal : list R) (factor : Z) (useFilter : bool)
  : list R :=
  match signal with
  | [] => []
  | _ =>
      if (factor =? 0)%Z then []
      else if useFilter && (1 <? factor)%Z
           then
             let antiAlias := LowPassFilter.make_alpha (4 / 10 / IZR factor) in
             let filtered :=
               snd (process_all LowPassFilter.process antiAlias signal) in
             every (length filtered) (Z.to_nat factor) filtered 0
           else every (length signal) (Z.to_nat factor) signal 0
  end.

(** The zero-stuffing loop of [interpolate]. *)
Definition zero_stuff (signal : list R) (factor : Z) : list R :=
  flat_map (fun sample => sample :: repeat 0%R (Z.to_nat (factor - 1))) signal.

(** [interpolate(signal, factor, useFilter)]. *)
Definition interpolate (signal : list R) (factor : Z) (useFilter : bool)
  : list R :=
  match signal with
  | [] => []
  | _ =>
      if (factor =? 0)%Z then []
      else
        let interpolated := zero_stuff signal factor in
        if useFilter && (1 <? factor)%Z
        then
          let antiImage := LowPassFilter.make_alpha (4 / 10 / IZR factor) in
          let interpolated :=
            snd (process_all LowPassFilter.process antiImage interpolated) in
          map (fun sample => (sample * IZR factor)%R) interpolated
        else interpolated
  end.

End Resampling.

(* ================================================================== *)
(** * fft.h : RealTimeFFT *)
(* ================================================================== *)

(** [RealTimeFFT<T>] is declared in [fft.h]; its member functions are not
    part of the sources at hand. *)
Module RealTimeFFT.

Import U32 Core FFT.

(** The configuration and the sliding buffer of [class RealTimeFFT]; the
    buffer is kept as the sequence of samples not yet discarded, oldest
    first. *)
Record t : Type := mk {
  m_fftSize : Z;
  m_sampleRate : R;
  m_overlapFactor : R;
  m_window : WindowType.t;
  m_buffer : list R;
  m_windowCoeffs : list R;
  m_hopSize : Z
}.

Definition with_buffer (f : t) (buffer : list R) : t :=
  {| m_fftSize := m_fftSize f; m_sampleRate := m_sampleRate f;
     m_overlapFactor := m_overlapFactor f; m_window := m_window f;
     m_buffer := buffer; m_windowCoeffs := m_windowCoeffs f;
     m_hopSize := m_hopSize f |}.

(** Modelled from the spec: the constructor, missing from the sources.
    [hopSize = fftSize * (1 - overlapFactor)] "rounded to an integer >= 1";
    the rounding is not specified further and is the parameter [round].
    The window coefficients are computed once, for the transform length. *)
Definition make (round : R -> Z) (fftSize : Z) (sampleRate overlapFactor : R)
           (window : WindowType.t) : t :=
  {| m_fftSize := fftSize;
     m_sampleRate := sampleRate;
     m_overlapFactor := overlapFactor;
     m_window := window;
     m_buffer := [];
     m_windowCoeffs := generateWindow fftSize window 0;
     m_hopSize := Z.max 1 (round (IZR fftSize * (1 - overlapFactor))%R) |}.

(** Modelled from the spec: the transform of the oldest [fftSize] buffered
    samples, "applies the cached window coefficients, runs forward FFT". *)
Definition frame_fft (fuel : nat) (f : t) (buffer : list R)
  : option (Result FFTResult) :=
  let frame := firstn (Z.to_nat (m_fftSize f)) buffer in
  let windowed :=
    map (fun i => (nth i frame 0 * nth i (m_windowCoeffs f) 0)%R)
        (seq 0 (length frame)) in
  forward fuel windowed (m_sampleRate f) WindowType.None.

(** Modelled from the spec: the loop of [processSamples], missing from the
    sources: "whenever the buffer holds a full fftSize window, it applies
    the cached window coefficients, runs forward FFT, emits one FFTResult,
    then discards the oldest hopSize samples and repeats until fewer than
    fftSize samples remain buffered". *)
Fixpoint drain (budget fuel : nat) (f : t) (buffer : list R)
         (results : list FFTResult) : option (list R * list FFTResult) :=
  match budget with
  | O => None
  | S budget' =>
      if (Z.of_nat (length buffer) <? m_fftSize f)%Z
      then Some (buffer, results)
      else
        match frame_fft fuel f buffer with
        | None => None
        | Some (Ok r) =>
            drain budget' fuel f (skipn (Z.to_nat (m_hopSize f)) buffer)
                  (results ++ [r])
        | Some (Err _) =>
            drain budget' fuel f (skipn (Z.to_nat (m_hopSize f)) buffer)
                  results
        end
  end.

(** Modelled from the spec: [processSamples(batch)], missing from the
    sources: "appends incoming samples", then the loop above. *)
Definition processSamples (fuel : nat) (f : t) (samples : list R)
  : option (t * list FFTResult) :=
  match drain fuel fuel f (m_buffer f ++ samples) [] with
  | Some (buffer, results) => Some (with_buffer f buffer, results)
  | None => None
  end.

(** Modelled from the spec: [reset()] "clears the buffer/cursor but keeps
    the cached window coefficients". *)
Definition reset (f : t) : t := with_buffer f [].

Definition getFFTSize (f : t) : Z := m_fftSize f.
Definition getSampleRate (f : t) : R := m_sampleRate f.

End RealTimeFFT.

(* ================================================================== *)
(** * The sample type [T] of the class templates *)
(* ================================================================== *)

Module Scalar.

(** The arithmetic of the sample type [T] ([float] or [double] in the
    sources): the conversion of an integer ([static_cast<T>(n)], or an
    integer literal where a [T] is expected), the four operations,
    [std::abs], [std::sqrt] and the comparisons, each as [T] computes it. *)
Class ops (T : Type) : Type := mk {
  of_Z : Z -> T;
  add : T -> T -> T;
  sub : T -> T -> T;
  mul : T -> T -> T;
  div : T -> T -> T;
  abs : T -> T;
  sqrt : T -> T;
  ltb : T -> T -> bool;
  leb : T -> T -> bool;
  eqb : T -> T -> bool
}.

(** Exact arithmetic on the real numbers. *)
#[export] Instance exact : ops R := {|
  of_Z := IZR;
  add := Rplus;
  sub := Rminus;
  mul := Rmult;
  div := Rdiv;
  abs := Rabs;
  sqrt := R_sqrt.sqrt;
  ltb := fun x y => if Rlt_dec x y then true else false;
  leb := fun x y => if Rle_dec x y then true else false;
  eqb := fun x y => if Req_dec_T x y then true else false
|}.

(** IEEE 754 binary64, rounding to nearest: the arithmetic of [double].
    [of_Z] is applied to literals and to counters, integers from 0 to
    [2^32], which the conversion represents exactly. *)
#[export] Instance binary64 : ops PrimFloat.float := {|
  of_Z := fun n => PrimFloat.of_uint63 (Uint63.of_Z n);
  add := PrimFloat.add;
  sub := PrimFloat.sub;
  mul := PrimFloat.mul;
  div := PrimFloat.div;
  abs := PrimFloat.abs;
  sqrt := PrimFloat.sqrt;
  ltb := PrimFloat.ltb;
  leb := PrimFloat.leb;
  eqb := PrimFloat.eqb
|}.

(** [x] is a number: the values that are not are the NaNs of a
    floating-point type, the only ones for which [x <= x] is false. *)
Definition number {T} {O : ops T} (x : T) : Prop := leb x x = true.

(** What the comparisons of [T] satisfy, in exact arithmetic and in IEEE
    arithmetic alike (a comparison with a NaN is false). *)
Class order {T} (O : ops T) : Prop := {
  leb_number : forall x y : T, leb x y = true -> number x /\ number y;
  leb_trans : forall x y z : T,
    leb x y = true -> leb y z = true -> leb x z = true;
  leb_total : forall x y : T,
    number x -> number y -> leb x y = true \/ leb y x = true;
  ltb_leb : forall x y : T, ltb x y = true -> leb x y = true;
  not_ltb_leb : forall x y : T,
    number x -> number y -> ltb x y = false -> leb y x = true;
  ltb_irrefl : forall x : T, ltb x x = false;
  ltb_trans : forall x y z : T,
    ltb x y = true -> ltb y z = true -> ltb x z = true;
  leb_ltb_trans : forall x y z : T,
    leb x y = true -> ltb y z = true -> ltb x z = true;
  ltb_neq : forall x y : T, ltb x y = true -> eqb y x = false;
  not_ltb_eqb : forall x y : T,
    number x -> number y -> ltb x y = false -> ltb y x = false ->
    eqb x y = true;
  zero_number : number (of_Z 0 : T);
  abs_number : forall x : T, number x -> number (abs x);
  abs_hull : forall lo x hi : T,
    leb lo x = true -> leb x hi = true ->
    leb (abs x) (abs lo) = true \/ leb (abs x) (abs hi) = true
}.

End Scalar.

(* ================================================================== *)
(** * The templates over any sample arithmetic *)
(* ================================================================== *)

(** The classes and functions whose results depend on the arithmetic of
    [T], for an arbitrary [Scalar.ops T]. *)
Module Template.

Module MovingAverageFilter.

Import U32 Scalar.

Section Over.

Variable T : Type.
Context {O : ops T}.

Record t : Type := mk {
  m_windowSize : Z;
  m_buffer : list T;
  m_index : Z;
  m_sum : T;
  m_bufferFull : bool
}.

(** [MovingAverageFilter(uint32_t windowSize)]. *)
Definition make (windowSize : Z) : t :=
  let w := if (windowSize =? 0)%Z then 1%Z else windowSize in
  {| m_windowSize := w;
     m_buffer := Vec.resize (Z.to_nat w) (of_Z 0) [];
     m_index := 0;
     m_sum := of_Z 0;
     m_bufferFull := false |}.

(** [T MovingAverageFilter<T>::process(T input)]. *)
Definition process (f : t) (input : T) : t * T :=
  let i := Z.to_nat (m_index f) in
  let sum := sub (m_sum f) (nth i (m_buffer f) (of_Z 0)) in
  let buffer := Vec.upd (m_buffer f) i input in
  let sum := add sum input in
  let index := (wrap (m_index f + 1) mod m_windowSize f)%Z in
  let full := if (index =? 0)%Z then true else m_bufferFull f in
  let divisor :=
    if full then m_windowSize f
    else if (index =? 0)%Z then m_windowSize f else index in
  ({| m_windowSize := m_windowSize f; m_buffer := buffer; m_index := index;
      m_sum := sum; m_bufferFull := full |},
   div sum (of_Z divisor)).

(** The filter after the samples [xs] have been processed one by one. *)
Definition feed (f : t) (xs : list T) : t := fst (process_all process f xs).

End Over.

Arguments m_windowSize {T} _.
Arguments m_buffer {T} _.
Arguments m_index {T} _.
Arguments m_sum {T} _.
Arguments m_bufferFull {T} _.
Arguments make {T O} windowSize.
Arguments process {T O} f input.
Arguments feed {T O} f xs.

End MovingAverageFilter.

Module MedianFilter.

Import U32 Scalar.

Section Over.

Variable T : Type.
Context {O : ops T}.

Record t : Type := mk {
  m_windowSize : Z;
  m_buffer : list T;
  m_index : Z;
  m_bufferFull : bool
}.

(** [MedianFilter(uint32_t windowSize)]. *)
Definition make (windowSize : Z) : t :=
  let w := if (windowSize =? 0)%Z then 1%Z else windowSize in
  {| m_windowSize := w;
     m_buffer := Vec.resize (Z.to_nat w) (of_Z 0) [];
     m_index := 0;
     m_bufferFull := false |}.

(** [std::sort] on a vector of samples, as an insertion sort on
    [operator<]: whatever the algorithm of the library, the result is an
    ascending arrangement of the vector. *)
Fixpoint insert (x : T) (v : list T) : list T :=
  match v with
  | [] => [x]
  | h :: t => if ltb x h then x :: v else h :: insert x t
  end.

Definition sort (v : list T) : list T := fold_right insert [] v.

(** The last lines of [calculateMedian], on the sorted copy. *)
Definition middle (sortBuffer : list T) : T :=
  let size := length sortBuffer in
  if Nat.eqb (size mod 2) 0
  then div (add (nth (size / 2 - 1) sortBuffer (of_Z 0))
                (nth (size / 2) sortBuffer (of_Z 0)))
           (of_Z 2)
  else nth (size / 2) sortBuffer (of_Z 0).

(** [T MedianFilter<T>::calculateMedian()]. *)
Definition calculateMedian (f : t) : T :=
  let sortBuffer :=
    if m_bufferFull f then m_buffer f
    else firstn (Z.to_nat (m_index f)) (m_buffer f) in
  match sortBuffer with
  | [] => of_Z 0
  | _ => middle (sort sortBuffer)
  end.

(** [T MedianFilter<T>::process(T input)]. *)
Definition process (f : t) (input : T) : t * T :=
  let buffer := Vec.upd (m_buffer f) (Z.to_nat (m_index f)) input in
  let index := (wrap (m_index f + 1) mod m_windowSize f)%Z in
  let full := if (index =? 0)%Z then true else m_bufferFull f in
  let f' := {| m_windowSize := m_windowSize f; m_buffer := buffer;
               m_index := index; m_bufferFull := full |} in
  (f', calculateMedian f').

Definition feed (f : t) (xs : list T) : t := fst (process_all process f xs).

End Over.

Arguments m_windowSize {T} _.
Arguments m_buffer {T} _.
Arguments m_index {T} _.
Arguments m_bufferFull {T} _.
Arguments make {T O} windowSize.
Arguments insert {T O} x v.
Arguments sort {T O} v.
Arguments middle {T O} sortBuffer.
Arguments calculateMedian {T O} f.
Arguments process {T O} f input.
Arguments feed {T O} f xs.

End MedianFilter.

Module SpectralAnalysis.

Import U32 Core Loop Scalar.
Local Open Scope Z_scope.

Section Over.

Variable T : Type.
Context {O : ops T}.

(** [struct FFTResult<T>]. *)
Record FFTResult : Type := mkFFTResult {
  data : list (T * T);
  sampleRate : T;
  frequencyResolution : T;
  size : Z;
  windowUsed : WindowType.t
}.

(** [std::abs] on [std::complex<T>], a function of the C++ library. *)
Variable Cabs : T * T -> T.

(** [FFTResult<T>::getMagnitude()]. *)
Definition getMagnitude (r : FFTResult) : list T := map Cabs (data r).

(** [FFTResult<T>::getFrequencyBins()]: the counter is a [uint32_t], the
    bound a [size_t]. *)
Definition getFrequencyBins (fuel : nat) (r : FFTResult) : option (list T) :=
  for_u32 fuel
          (fun i => i <? Z.of_nat (length (data r)))
          (fun i => wrap (i + 1))
          (fun i frequencies =>
             Some (frequencies ++ [mul (of_Z i) (frequencyResolution r)]))
          0 [].

(** One iteration of the scan of [findPeakFrequency], on the state
    [(peakFreq, peakMagnitude)]. *)
Definition scan_bin (minFreq maxFreq : T) (peak : T * T) (bin : T * T)
  : T * T :=
  let '(frequency, magnitude) := bin in
  if leb minFreq frequency && leb frequency maxFreq
  then if ltb (snd peak) magnitude
       then (frequency, magnitude)
       else peak
  else peak.

(** [SpectralAnalysis::findPeakFrequency(fftResult, minFreq, maxFreq)];
    the header's defaults are [minFreq = 0] and [maxFreq = -1]. *)
Definition findPeakFrequency (fuel : nat) (fftResult : FFTResult)
           (minFreq maxFreq : T) : option (Result T) :=
  match data fftResult with
  | [] => Some (Err InvalidArgument)
  | _ =>
      let magnitude := getMagnitude fftResult in
      frequencies <- getFrequencyBins fuel fftResult ;;
      let maxFreq :=
        if ltb maxFreq (of_Z 0) then div (sampleRate fftResult) (of_Z 2)
        else maxFreq in
      let '(peakFreq, peakMagnitude) :=
        fold_left (scan_bin minFreq maxFreq)
                  (combine frequencies magnitude) (of_Z 0, of_Z 0) in
      if eqb peakMagnitude (of_Z 0)
      then Some (Err DataError)
      else Some (Ok peakFreq)
  end.

End Over.

Arguments mkFFTResult {T} data sampleRate frequencyResolution size windowUsed.
Arguments data {T} _.
Arguments sampleRate {T} _.
Arguments frequencyResolution {T} _.
Arguments size {T} _.
Arguments windowUsed {T} _.
Arguments getMagnitude {T} Cabs r.
Arguments getFrequencyBins {T O} fuel r.
Arguments scan_bin {T O} minFreq maxFreq peak bin.
Arguments findPeakFrequency {T O} Cabs fuel fftResult minFreq maxFreq.

End SpectralAnalysis.

Module KalmanFilter.

Import Scalar.

Section Over.

Variable T : Type.
Context {O : ops T}.

Record t : Type := mk {
  m_processNoise : T;
  m_measurementNoise : T;
  m_estimate : T;
  m_covariance : T;
  m_initialEstimate : T;
  m_initialCovariance : T
}.

(** [KalmanFilter(processNoise, measurementNoise, initialEstimate,
    initialCovariance)]. *)
Definition make (processNoise measurementNoise initialEstimate
                 initialCovariance : T) : t :=
  {| m_processNoise := processNoise;
     m_measurementNoise := measurementNoise;
     m_estimate := initialEstimate;
     m_covariance := initialCovariance;
     m_initialEstimate := initialEstimate;
     m_initialCovariance := initialCovariance |}.

(** [T KalmanFilter<T>::update(T measurement)]. *)
Definition update (f : t) (measurement : T) : t * T :=
  let covariance := add (m_covariance f) (m_processNoise f) in
  let kalmanGain := div covariance (add covariance (m_measurementNoise f)) in
  let estimate :=
    add (m_estimate f) (mul kalmanGain (sub measurement (m_estimate f))) in
  let covariance := mul (sub (of_Z 1) kalmanGain) covariance in
  ({| m_processNoise := m_processNoise f;
      m_measurementNoise := m_measurementNoise f;
      m_estimate := estimate;
      m_covariance := covariance;
      m_initialEstimate := m_initialEstimate f;
      m_initialCovariance := m_initialCovariance f |}, estimate).

Definition predict (f : t) : T := m_estimate f.

Definition getEstimate (f : t) : T := m_estimate f.
Definition getCovariance (f : t) : T := m_covariance f.

(** The filter after one call of [update] for each measurement of [zs]. *)
Definition track (f : t) (zs : list T) : t :=
  fold_left (fun f z => fst (update f z)) zs f.

End Over.

Arguments m_processNoise {T} _.
Arguments m_measurementNoise {T} _.
Arguments m_estimate {T} _.
Arguments m_covariance {T} _.
Arguments m_initialEstimate {T} _.
Arguments m_initialCovariance {T} _.
Arguments make {T} processNoise measurementNoise initialEstimate
          initialCovariance.
Arguments update {T O} f measurement.
Arguments predict {T} f.
Arguments getEstimate {T} f.
Arguments getCovariance {T} f.
Arguments track {T O} f zs.

End KalmanFilter.

Module Correlation.

Import Scalar.

Section Over.

Variable T : Type.
Context {O : ops T}.

(** [crossCorrelation(signal1, signal2)]; the counters are [size_t]. *)
Definition crossCorrelation (signal1 signal2 : list T) : list T :=
  match signal1, signal2 with
  | [], _ => []
  | _, [] => []
  | _, _ =>
      let n1 := length signal1 in
      let n2 := length signal2 in
      let resultSize := (n1 + n2 - 1)%nat in
      fold_left
        (fun result i =>
           fold_left
             (fun result j =>
                if (j <=? i)%nat && (i - j <? n2)%nat
                then Vec.upd result i
                             (add (nth i result (of_Z 0))
                                  (mul (nth j signal1 (of_Z 0))
                                       (nth (i - j) signal2 (of_Z 0))))
                else result)
             (seq 0 n1) result)
        (seq 0 resultSize) (repeat (of_Z 0) resultSize)
  end.

(** [autoCorrelation(signal)]. *)
Definition autoCorrelation (signal : list T) : list T :=
  crossCorrelation signal signal.

End Over.

Arguments crossCorrelation {T O} signal1 signal2.
Arguments autoCorrelation {T O} signal.

End Correlation.

Module SignalStats.

Import Scalar.

Section Over.

Variable T : Type.
Context {O : ops T}.

(** [struct SignalStats<T>]. *)
Record t : Type := mk {
  mean : T;
  variance : T;
  stdDev : T;
  rms : T;
  min : T;
  max : T;
  peak : T;
  peakToPeak : T;
  crestFactor : T;
  length : Z
}.

(** [SignalStats<T> stats = {};] *)
Definition zero : t :=
  {| mean := of_Z 0; variance := of_Z 0; stdDev := of_Z 0; rms := of_Z 0;
     min := of_Z 0; max := of_Z 0; peak := of_Z 0; peakToPeak := of_Z 0;
     crestFactor := of_Z 0; length := 0 |}.

(** [*std::min_element] and [*std::max_element] of [first :: rest], as
    [std::minmax_element] finds them with [operator<]: the first smallest
    and the last largest element. *)
Definition min_element (first : T) (rest : list T) : T :=
  fold_left (fun m x => if ltb x m then x else m) rest first.

Definition max_element (first : T) (rest : list T) : T :=
  fold_left (fun m x => if ltb x m then m else x) rest first.

(** [std::accumulate(first, last, init)]. *)
Definition accumulate (v : list T) (init : T) : T := fold_left add v init.

(** [calculateSignalStats(signal)]. *)
Definition calculateSignalStats (signal : list T) : t :=
  match signal with
  | [] => zero
  | first :: rest =>
      let n := of_Z (Z.of_nat (Datatypes.length signal)) in
      let mean := div (accumulate signal (of_Z 0)) n in
      let min := min_element first rest in
      let max := max_element first rest in
      let peakToPeak := sub max min in
      let peak := if ltb (abs min) (abs max) then abs max else abs min in
      let '(sumSquaredDiff, sumSquares) :=
        fold_left (fun '(sumSquaredDiff, sumSquares) sample =>
                     let diff := sub sample mean in
                     (add sumSquaredDiff (mul diff diff),
                      add sumSquares (mul sample sample)))
                  signal (of_Z 0, of_Z 0) in
      let variance := div sumSquaredDiff n in
      let rms := sqrt (div sumSquares n) in
      {| mean := mean;
         variance := variance;
         stdDev := sqrt variance;
         rms := rms;
         min := min;
         max := max;
         peak := peak;
         peakToPeak := peakToPeak;
         crestFactor := if ltb (of_Z 0) rms then div peak rms else of_Z 0;
         length := U32.of_size (Datatypes.length signal) |}
  end.

End Over.

Arguments mean {T} _.
Arguments variance {T} _.
Arguments stdDev {T} _.
Arguments rms {T} _.
Arguments min {T} _.
Arguments max {T} _.
Arguments peak {T} _.
Arguments peakToPeak {T} _.
Arguments crestFactor {T} _.
Arguments length {T} _.
Arguments zero {T O}.
Arguments min_element {T O} first rest.
Arguments max_element {T O} first rest.
Arguments accumulate {T O} v init.
Arguments calculateSignalStats {T O} signal.

End SignalStats.

End Template.

(* ================================================================== *)
(** * Specification vocabulary *)
(* ================================================================== *)

Module Pow2Defs.

Import U32 Pow2.
Local Open Scope Z_scope.

(** [covers m x w]: bit [i] of [x] is set exactly when some bit of [m]
    among positions [i .. i+w-1] is set. *)
Definition covers (m x w : Z) : Prop :=
  forall i, 0 <= i ->
    (Z.testbit x i = true <-> exists j, i <= j < i + w /\ Z.testbit m j = true).

End Pow2Defs.

Module RingDefs.

Import U32 Vec.

(** [ring W xs buf]: [buf] is the circular buffer of capacity [W] after the
    samples [xs] were written one by one from slot 0: read from the write
    cursor it lists the last [W] samples, oldest first, zeros standing for
    the slots never written. *)
Definition ring {A} (zero : A) (W : nat) (xs : list A) (buf : list A)
  : Prop :=
  length buf = W /\
  skipn (length xs mod W) buf ++ firstn (length xs mod W) buf
  = lastn W (repeat zero W ++ xs).

End RingDefs.

Module MovingAverageDefs.

Import U32 Vec RingDefs MovingAverageFilter.

(** The state reached from [MovingAverageFilter(w)] by the samples [xs]. *)
Definition inv (w : Z) (xs : list R) (f : t) : Prop :=
  m_windowSize f = w /\
  ring 0%R (Z.to_nat w) xs (m_buffer f) /\
  m_index f = Z.of_nat (length xs mod Z.to_nat w) /\
  m_bufferFull f = (Z.to_nat w <=? length xs)%nat /\
  m_sum f = Rsum (m_buffer f).

End MovingAverageDefs.

Module MedianDefs.

Import U32 Vec RingDefs MedianFilter.

(** The state reached from [MedianFilter(w)] by the samples [xs]. *)
Definition inv (w : Z) (xs : list R) (f : t) : Prop :=
  m_windowSize f = w /\
  ring 0%R (Z.to_nat w) xs (m_buffer f) /\
  m_index f = Z.of_nat (length xs mod Z.to_nat w) /\
  m_bufferFull f = (Z.to_nat w <=? length xs)%nat.

End MedianDefs.

Module ChainDefs.

Import U32 Core Vec RealTimeProcessor.
Local Open Scope Z_scope.

(** The orders of the objects in a store. *)
Definition orders (st : store) : list Z := map Filter.getOrder st.

Definition order_at (st : store) (h : handle) : Z :=
  match deref st h with
  | Some f => Filter.getOrder f
  | None => 0
  end.

(** The tracked latency is the sum of the orders, as a [uint32_t]. *)
Definition latency_ok (w : store * t) : Prop :=
  getLatency (snd w) = wrap (order_sum (fst w) (snd w)).

(** The latency invariant as the specification words it: after the calls
    [cs] on a fresh processor, in a store [st0] of caller-owned filters,
    [getLatency()] is the sum of [getOrder()] over the chain. *)
Definition latency_as_specified (st0 : store) (cs : list call) : Prop :=
  let '(st, p) := run (st0, make 64 1000%R) cs in
  getLatency p = order_sum st p.

(** Two low-pass filters built with [LowPassFilter(0.1, 2147483648)]. *)
Definition big_filters : store :=
  [Filter.LowPass (LowPassFilter.make (1 / 10) (2 ^ 31));
   Filter.LowPass (LowPassFilter.make (1 / 10) (2 ^ 31))].

End ChainDefs.

Module LoopDefs.

Import U32 Core Loop.
Local Open Scope Z_scope.

(** The loop body applied to the listed counter values, in order. *)
Fixpoint iterate {S : Type} (body : Z -> S -> option S) (ks : list Z) (s : S)
  : option S :=
  match ks with
  | [] => Some s
  | i :: rest =>
      match body i s with
      | Some s' => iterate body rest s'
      | None => None
      end
  end.

(** [visits cond next i ks]: started at [i], the loop runs its body for
    exactly the counter values [ks] and then leaves. *)
Fixpoint visits (cond : Z -> bool) (next : Z -> Z) (i : Z) (ks : list Z)
  : Prop :=
  match ks with
  | [] => cond i = false
  | x :: rest => x = i /\ cond i = true /\ visits cond next (next i) rest
  end.

(** The counters of [for (i = a; i < n; i += step)]: [a], [a + step], ...
    for [m] iterations. *)
Definition progression (a step : Z) (m : nat) : list Z :=
  map (fun t => a + Z.of_nat t * step) (seq 0 m).

(** [path cond next i ks c]: started at [i], the loop runs its body for the
    counter values [ks] and then reaches the counter [c]. *)
Fixpoint path (cond : Z -> bool) (next : Z -> Z) (i : Z) (ks : list Z)
         (c : Z) : Prop :=
  match ks with
  | [] => i = c
  | x :: rest => x = i /\ cond i = true /\ path cond next (next i) rest c
  end.

End LoopDefs.

Module CplxDefs.

Import Cplx.
Local Open Scope R_scope.

Definition Copp (z : C) : C := (- re z, - im z).

(** [z ^ n] by repeated multiplication, as [w *= wlen] accumulates it. *)
Fixpoint Cpow (z : C) (n : nat) : C :=
  match n with
  | O => C1
  | S n' => Cmul (Cpow z n') z
  end.

(** The point of the unit circle at angle [t]. *)
Definition cis (t : R) : C := (cos t, sin t).

(** Finite sums [f 0 + ... + f (n-1)]. *)
Fixpoint Csum (n : nat) (f : nat -> C) : C :=
  match n with
  | O => C0
  | S n' => Cadd (Csum n' f) (f n')
  end.

End CplxDefs.

Module DftDefs.

Import Cplx CplxDefs.
Local Open Scope R_scope.

(** The transform of [x] of size [n] with the root [w]:
    [X p = sum over q < n of x q * w ^ (p q)]. *)
Definition dft (w : C) (n : nat) (x : nat -> C) (p : nat) : C :=
  Csum n (fun q => Cmul (x q) (Cpow w (p * q))).

(** The [n]-th root of unity used in direction [sgn] (1 or -1). *)
Definition root (sgn : R) (n : nat) : C := cis (sgn * (2 * PI) / INR n).

(** Bit reversal on [k] bits. *)
Fixpoint rev (k p : nat) : nat :=
  match k with
  | O => O
  | S k' => (p mod 2) * 2 ^ k' + rev k' (p / 2)
  end.

(** One butterfly stage on arrays seen as functions, for blocks of length
    [2 h] and the twiddle factor [wl]. *)
Definition bfly (wl : C) (h : nat) (a : nat -> C) (P : nat) : C :=
  if (P mod (2 * h) <? h)%nat
  then Cadd (a P) (Cmul (a (P + h)%nat) (Cpow wl (P mod (2 * h))))
  else Csub (a (P - h)%nat) (Cmul (a P) (Cpow wl (P mod (2 * h) - h))).

(** After the stages up to block length [2^s], every block of [a] holds the
    transform of the samples of [x] it gathers: those at the indices
    [rev (k-s) b + q 2^(k-s)]. *)
Definition block_dft (sgn : R) (k s : nat) (x a : nat -> C) : Prop :=
  forall b p, (b < 2 ^ (k - s))%nat -> (p < 2 ^ s)%nat ->
    a (b * 2 ^ s + p)%nat
    = dft (root sgn (2 ^ s)) (2 ^ s)
          (fun q => x (rev (k - s) b + q * 2 ^ (k - s))%nat) p.

(** [iter_stages sgn s a]: the array after the stages of block lengths
    [2, 4, ..., 2^s]. *)
Fixpoint iter_stages (sgn : R) (s : nat) (a : nat -> C) : nat -> C :=
  match s with
  | O => a
  | S s' => bfly (root sgn (2 ^ s)) (2 ^ s') (iter_stages sgn s' a)
  end.

End DftDefs.

Module FFTDefs.

Import U32 Core Cplx CplxDefs Loop Pow2 FFT DftDefs.
Import Vec.

(** A vector read as an array. *)
Definition arr (d : list C) : nat -> C := fun p => nth p d C0.

(** The body of the loop on [j] of [FFT::radix2FFT] in the block at [I],
    on the pair of the array and the running twiddle factor [w]. *)
Definition block_step (I H : nat) (wlen : C)
  : list C * C -> Z -> list C * C :=
  fun '(data, w) j =>
    (butterfly data (Z.of_nat I) j (Z.of_nat H) w, Cmul w wlen).

(** The block after its first [m] butterflies. *)
Definition partial_block (d : list C) (I H : nat) (wlen : C)
           (m : nat) (p : nat) : C :=
  if (I <=? p)%nat && (p <? I + m)%nat
  then Cadd (arr d p) (Cmul (arr d (p + H)) (Cpow wlen (p - I)))
  else if (I + H <=? p)%nat && (p <? I + H + m)%nat
       then Csub (arr d (p - H)) (Cmul (arr d p) (Cpow wlen (p - I - H)))
       else arr d p.

(** The direction of a transform as a sign. *)
Definition sign (inverse : bool) : R := if inverse then 1%R else (-1)%R.

(** The block lengths the outer loop goes through: [2^j, ..., 2^(j+c-1)]. *)
Definition lens (j c : nat) : list Z :=
  map (fun s => Z.of_nat (2 ^ s)) (seq j c).

(** The permutation loop of [bitReverse], after the counters [1 .. m]:
    the positions [p] with [min p (rev k p) <= m] hold their final
    value. *)
Definition swapped (k : nat) (d : list C) (m : nat) (p : nat) : C :=
  if (p <? 2 ^ k)%nat && (Nat.min p (rev k p) <=? m)%nat
  then arr d (rev k p) else arr d p.

(** What [radix2FFT] applies after the stages. *)
Definition scaling (inverse : bool) (n : nat) (z : C) : C :=
  if inverse then Cscale (1 / INR n)%R z else z.

End FFTDefs.

Module FilterDefs.

(** The filter objects as their constructors return them. *)
Inductive constructed : Filter.t -> Prop :=
| constructed_lowpass_alpha alpha :
    constructed (Filter.LowPass (LowPassFilter.make_alpha alpha))
| constructed_lowpass cutoffFreq order :
    constructed (Filter.LowPass (LowPassFilter.make cutoffFreq order))
| constructed_highpass_alpha alpha :
    constructed (Filter.HighPass (HighPassFilter.make_alpha alpha))
| constructed_highpass cutoffFreq order :
    constructed (Filter.HighPass (HighPassFilter.make cutoffFreq order))
| constructed_bandpass lowCutoff highCutoff order :
    constructed
      (Filter.BandPass (BandPassFilter.make lowCutoff highCutoff order))
| constructed_moving_average windowSize :
    constructed (Filter.MovingAverage (MovingAverageFilter.make windowSize))
| constructed_median windowSize :
    constructed (Filter.Median (MedianFilter.make windowSize)).

End FilterDefs.

Module CascadeDefs.

Import RealTimeProcessor.

(** The chain applied stage by stage: each filter, in the state the store
    holds for it, processes the whole signal its predecessor returned. *)
Fixpoint cascade (st : store) (hs : list handle) (signal : list R) : list R :=
  match hs with
  | [] => signal
  | h :: rest =>
      match deref st h with
      | Some f => cascade st rest (snd (process_all Filter.process f signal))
      | None => cascade st rest signal
      end
  end.

(** Two stores hold the same objects at the handles of [hs]. *)
Definition agree (hs : list handle) (s s' : store) : Prop :=
  forall h, In h hs -> deref s h = deref s' h.

End CascadeDefs.

Module RunningSumDefs.

Import Scalar.

Section Over.

Context {T : Type} {O : ops T}.

(** The sample that call number [i + 1] of a moving average of window [w]
    finds in the slot it overwrites: the input of [w] calls earlier, or the
    zero the buffer was filled with. *)
Definition evicted (w : nat) (xs : list T) (i : nat) : T :=
  if (i <? w)%nat then of_Z 0 else nth (i - w) xs (of_Z 0).

(** The running sum after the samples [xs]: starting from zero, every call
    subtracts the evicted sample and then adds the new one, in the
    arithmetic of [T]. *)
Definition running_sum (w : nat) (xs : list T) : T :=
  fold_left (fun sum i => add (sub sum (evicted w xs i)) (nth i xs (of_Z 0)))
            (seq 0 (length xs)) (of_Z 0).

End Over.

End RunningSumDefs.

Module TemplateMovingAverageDefs.

Import U32 Vec RingDefs Scalar RunningSumDefs.
Import Template.MovingAverageFilter.

(** The state reached from [MovingAverageFilter<T>(w)] by the samples
    [xs]. *)
Definition inv {T} {O : ops T} (w : Z) (xs : list T) (f : t T) : Prop :=
  m_windowSize f = w /\
  ring (of_Z 0) (Z.to_nat w) xs (m_buffer f) /\
  m_index f = Z.of_nat (length xs mod Z.to_nat w) /\
  m_bufferFull f = (Z.to_nat w <=? length xs)%nat /\
  m_sum f = running_sum (Z.to_nat w) xs.

End TemplateMovingAverageDefs.

Module TemplateMedianDefs.

Import U32 Vec RingDefs Scalar.
Import Template.MedianFilter.

(** [x <= y] in [T]. *)
Definition le {T} {O : ops T} (x y : T) : Prop := leb x y = true.

(** The state reached from [MedianFilter<T>(w)] by the samples [xs]. *)
Definition inv {T} {O : ops T} (w : Z) (xs : list T) (f : t T) : Prop :=
  m_windowSize f = w /\
  ring (of_Z 0) (Z.to_nat w) xs (m_buffer f) /\
  m_index f = Z.of_nat (length xs mod Z.to_nat w) /\
  m_bufferFull f = (Z.to_nat w <=? length xs)%nat.

End TemplateMedianDefs.

Module TemplateSpectralDefs.

Import Scalar.
Import Template.SpectralAnalysis.

Section Over.

Context {T : Type} {O : ops T}.
Variable Cabs : T * T -> T.

(** Frequency and magnitude of bin [i], as [getFrequencyBins] and
    [getMagnitude] compute them. *)
Definition bin_frequency (r : FFTResult T) (i : nat) : T :=
  mul (of_Z (Z.of_nat i)) (frequencyResolution r).

Definition bin_magnitude (r : FFTResult T) (i : nat) : T :=
  Cabs (nth i (data r) (of_Z 0, of_Z 0)).

(** The bins [findPeakFrequency] scans, as (frequency, magnitude) pairs. *)
Definition bins (r : FFTResult T) : list (T * T) :=
  map (fun i => (bin_frequency r i, bin_magnitude r i))
      (seq 0 (length (data r))).

(** [lo <= f && f <= hi], the test of the scan. *)
Definition in_band (lo hi f : T) : Prop :=
  leb lo f = true /\ leb f hi = true.

End Over.

End TemplateSpectralDefs.

Module Binary64Defs.

Import SpecFloat.
Local Open Scope Z_scope.

(** The place of a floating-point value on the number line, as a triple
    compared lexicographically; a NaN has none. *)
Definition key (f : spec_float) : option (Z * Z * Z) :=
  match f with
  | S754_nan => None
  | S754_infinity true => Some (-2, 0, 0)
  | S754_infinity false => Some (2, 0, 0)
  | S754_zero _ => Some (0, 0, 0)
  | S754_finite true m e => Some (-1, - e, Z.neg m)
  | S754_finite false m e => Some (1, e, Z.pos m)
  end.

Definition cmp3 (a b : Z * Z * Z) : comparison :=
  let '(a1, a2, a3) := a in
  let '(b1, b2, b3) := b in
  match a1 ?= b1 with
  | Eq => match a2 ?= b2 with
          | Eq => a3 ?= b3
          | c => c
          end
  | c => c
  end.

Definition lt3 (a b : Z * Z * Z) : Prop :=
  let '(a1, a2, a3) := a in
  let '(b1, b2, b3) := b in
  a1 < b1 \/ (a1 = b1 /\ (a2 < b2 \/ (a2 = b2 /\ a3 < b3))).

(** The place of a [double] on the number line. *)
Definition K (x : PrimFloat.float) : option (Z * Z * Z) :=
  key (FloatOps.Prim2SF x).

End Binary64Defs.

Module CorrelationDefs.

Import Scalar.

(** The indices [j] for which the loops of [crossCorrelation] add the
    product [signal1[j] * signal2[i - j]] to [result[i]], in the order of
    the loop. *)
Definition terms (n1 n2 i : nat) : list nat :=
  filter (fun j => (j <=? i)%nat && (i - j <? n2)%nat) (seq 0 n1).

(** [result[i]] as the loops leave it: the products added one after the
    other, in that order, to the initial zero. *)
Definition accumulated {T} {O : ops T} (signal1 signal2 : list T) (i : nat)
  : T :=
  fold_left (fun acc j =>
               add acc (mul (nth j signal1 (of_Z 0))
                            (nth (i - j) signal2 (of_Z 0))))
            (terms (length signal1) (length signal2) i) (of_Z 0).

End CorrelationDefs.

(* ================================================================== *)
(** * Facts about the 32-bit helpers *)
(* ================================================================== *)

Module Pow2Facts.

Import U32 Pow2.
Export Pow2Defs.
Local Open Scope Z_scope.

Lemma modulus_eq : modulus = 4294967296.
Proof. reflexivity. Qed.

Lemma wrap_small z : 0 <= z < modulus -> wrap z = z.
Proof. intros H. unfold wrap. now apply Z.mod_small. Qed.

Lemma covers_init m : covers m m 1.
Proof.
  intros i Hi. split.
  - intros H. exists i. split; [lia | exact H].
  - intros (j & Hj & Hb). replace i with j by lia. exact Hb.
Qed.

Lemma covers_step m x w :
  0 < w -> covers m x w -> covers m (smear_step w x) (2 * w).
Proof.
  intros Hw Hc i Hi. unfold smear_step.
  rewrite Z.lor_spec, Z.shiftr_spec by lia.
  rewrite orb_true_iff, (Hc i Hi), (Hc (i + w)) by lia.
  split.
  - intros [(j & Hj & Hb) | (j & Hj & Hb)]; exists j; split; auto; lia.
  - intros (j & Hj & Hb).
    destruct (Z_lt_le_dec j (i + w)); [left | right]; exists j; split; auto; lia.
Qed.

Lemma covers_smear m : covers m (smear m) 32.
Proof.
  unfold smear.
  apply (covers_step m _ 16); [lia|].
  apply (covers_step m _ 8); [lia|].
  apply (covers_step m _ 4); [lia|].
  apply (covers_step m _ 2); [lia|].
  apply (covers_step m _ 1); [lia|].
  apply covers_init.
Qed.

(** Smearing a positive 32-bit value sets every bit below its top bit. *)
Lemma smear_ones m :
  0 < m < modulus -> smear m = Z.ones (Z.log2 m + 1).
Proof.
  intros [Hpos Hlt].
  assert (HL : 0 <= Z.log2 m) by apply Z.log2_nonneg.
  assert (HL32 : Z.log2 m < 32).
  { apply Z.log2_lt_pow2; [lia | exact Hlt]. }
  apply Z.bits_inj'. intros i Hi.
  destruct (Z_lt_dec i (Z.log2 m + 1)) as [Hlo | Hhi].
  - rewrite Z.ones_spec_low by lia.
    apply (covers_smear m i Hi).
    exists (Z.log2 m). split; [lia|]. apply Z.bit_log2. lia.
  - rewrite Z.ones_spec_high by lia.
    destruct (Z.testbit (smear m) i) eqn:E; [|reflexivity].
    apply (covers_smear m i Hi) in E. destruct E as (j & Hj & Hb).
    rewrite Z.bits_above_log2 in Hb by lia. discriminate.
Qed.

(** The value computed before the final wrap-around. *)
Lemma nextPowerOf2_log2 n :
  2 <= n < modulus ->
  nextPowerOf2 n = wrap (2 ^ (Z.log2 (n - 1) + 1)).
Proof.
  intros Hn. unfold nextPowerOf2.
  destruct (Z.eqb_spec n 0) as [?|_]; [lia|].
  cbv zeta. rewrite (wrap_small (n - 1)) by lia.
  rewrite smear_ones by lia.
  rewrite Z.ones_equiv. f_equal. lia.
Qed.

Lemma log2_up_pred n : 2 <= n -> Z.log2_up n = Z.log2 (n - 1) + 1.
Proof.
  intros Hn. unfold Z.log2_up.
  destruct (Z.compare_spec 1 n); try lia.
  now rewrite <- Z.sub_1_r, <- Z.add_1_r.
Qed.

(** For inputs up to [2^31] the code returns [2 ^ log2_up n]. *)
Lemma nextPowerOf2_small n :
  1 <= n <= 2 ^ 31 -> nextPowerOf2 n = 2 ^ Z.log2_up n.
Proof.
  intros Hn.
  destruct (Z.eq_dec n 1) as [-> | Hne]; [reflexivity|].
  rewrite nextPowerOf2_log2 by (rewrite modulus_eq; lia).
  rewrite log2_up_pred by lia.
  apply wrap_small.
  assert (Z.log2 (n - 1) < 31).
  { apply Z.log2_lt_pow2; lia. }
  assert (0 <= Z.log2 (n - 1)) by apply Z.log2_nonneg.
  split; [apply Z.pow_nonneg; lia|].
  unfold modulus.
  apply Z.pow_lt_mono_r; lia.
Qed.

(** Above [2^31] the increment wraps to zero. *)
Lemma nextPowerOf2_large n :
  2 ^ 31 < n <= 2 ^ 32 - 1 -> nextPowerOf2 n = 0.
Proof.
  intros Hn.
  rewrite nextPowerOf2_log2 by (rewrite modulus_eq; lia).
  assert (E : Z.log2 (n - 1) = 31).
  { apply Z.log2_unique; lia. }
  rewrite E. reflexivity.
Qed.

Lemma pow2_pos k : 0 <= k -> 0 < 2 ^ k.
Proof. intros. apply Z.pow_pos_nonneg; lia. Qed.

Lemma not_is_pow2_zero : ~ is_pow2 0.
Proof.
  intros (k & Hk & E). pose proof (pow2_pos k Hk). lia.
Qed.

(** [2 ^ log2_up n] is the least power of two that is at least [n]. *)
Lemma pow2_log2_up_least n k :
  1 <= n -> 0 <= k -> n <= 2 ^ k -> 2 ^ Z.log2_up n <= 2 ^ k.
Proof.
  intros Hn Hk Hle.
  apply Z.pow_le_mono_r; [lia|].
  destruct (Z.eq_dec n 1) as [-> | Hne].
  - now rewrite Z.log2_up_1.
  - rewrite <- (Z.log2_up_pow2 k Hk).
    apply Z.log2_up_le_mono. exact Hle.
Qed.

Lemma pow2_log2_up_ge n : 1 <= n -> n <= 2 ^ Z.log2_up n.
Proof.
  intros Hn.
  destruct (Z.eq_dec n 1) as [-> | Hne]; [reflexivity|].
  apply Z.log2_up_spec. lia.
Qed.

(** A power of two passes [isValidSize]. *)
Lemma isValidSize_pow2 k : 0 <= k < 32 -> isValidSize (2 ^ k) = true.
Proof.
  intros Hk. unfold isValidSize.
  pose proof (pow2_pos k ltac:(lia)) as Hp.
  assert (2 ^ k < modulus).
  { unfold modulus. apply Z.pow_lt_mono_r; lia. }
  rewrite wrap_small by lia.
  apply andb_true_iff. split; [now apply Z.ltb_lt|].
  apply Z.eqb_eq.
  rewrite Z.sub_1_r, <- Z.ones_equiv, Z.land_ones by lia.
  apply Z.mod_same. lia.
Qed.

(** Conversely a value that passes [isValidSize] is a power of two. *)
Lemma isValidSize_is_pow2 n :
  in_range n -> isValidSize n = true -> exists k, 0 <= k < 32 /\ n = 2 ^ k.
Proof.
  intros [Hn0 Hn1] H. unfold isValidSize in H.
  apply andb_true_iff in H. destruct H as [Hpos Hland].
  apply Z.ltb_lt in Hpos. apply Z.eqb_eq in Hland.
  rewrite wrap_small in Hland by lia.
  exists (Z.log2 n).
  assert (0 <= Z.log2 n) by apply Z.log2_nonneg.
  assert (Z.log2 n < 32) by (apply Z.log2_lt_pow2; [lia | exact Hn1]).
  split; [lia|].
  destruct (Z.log2_spec n Hpos) as [Hlo Hhi].
  destruct (Z.eq_dec n (2 ^ Z.log2 n)) as [E | Hne]; [exact E | exfalso].
  assert (Hb : Z.testbit (Z.land n (n - 1)) (Z.log2 n) = true).
  { assert (E : Z.log2 (n - 1) = Z.log2 n).
    { apply Z.log2_unique; [lia|]. rewrite <- Z.add_1_r in Hhi. lia. }
    rewrite Z.land_spec, Z.bit_log2 by lia.
    rewrite <- E. rewrite Z.bit_log2 by lia. reflexivity. }
  rewrite Hland, Z.bits_0 in Hb. discriminate.
Qed.

(** Up to [2^31] the result is the least power of two above the input. *)
Lemma nextPowerOf2_least n :
  1 <= n <= 2 ^ 31 ->
  is_pow2 (nextPowerOf2 n) /\
  n <= nextPowerOf2 n /\
  (forall k, 0 <= k -> n <= 2 ^ k -> nextPowerOf2 n <= 2 ^ k).
Proof.
  intros Hn. rewrite nextPowerOf2_small by exact Hn.
  split; [|split].
  - exists (Z.log2_up n). split; [apply Z.log2_up_nonneg | reflexivity].
  - apply pow2_log2_up_ge. lia.
  - intros k Hk Hle. apply pow2_log2_up_least; auto. lia.
Qed.

Lemma isValidSize_spec n :
  in_range n -> (isValidSize n = true <-> 0 < n /\ Z.land n (n - 1) = 0).
Proof.
  intros [H0 H1]. unfold isValidSize.
  rewrite andb_true_iff, Z.ltb_lt, Z.eqb_eq.
  split; intros [Hpos Hl]; (split; [exact Hpos|]);
    rewrite wrap_small in * by lia; exact Hl.
Qed.

End Pow2Facts.

Module Pow2Claims.

Import U32 Pow2 Pow2Facts.
Local Open Scope Z_scope.

(** C6. [isValidSize n] is true exactly when [n > 0] and [n & (n-1) = 0];
    for every [n] in [1, 1024], [nextPowerOf2 n] is the smallest power of
    two that is at least [n]; and [nextPowerOf2 0 = 1]. *)
Theorem power_of_two_helpers :
  (forall n, in_range n ->
     (isValidSize n = true <-> 0 < n /\ Z.land n (n - 1) = 0)) /\
  (forall n, 1 <= n <= 1024 ->
     is_pow2 (nextPowerOf2 n) /\
     n <= nextPowerOf2 n /\
     (forall k, 0 <= k -> n <= 2 ^ k -> nextPowerOf2 n <= 2 ^ k)) /\
  nextPowerOf2 0 = 1.
Proof.
  split; [|split].
  - exact isValidSize_spec.
  - intros n Hn. apply nextPowerOf2_least. lia.
  - reflexivity.
Qed.

Lemma power_of_two_helpers_witness :
  (isValidSize 8 = true <-> 0 < 8 /\ Z.land 8 (8 - 1) = 0) /\
  (is_pow2 (nextPowerOf2 5) /\
   5 <= nextPowerOf2 5 /\
   (forall k, 0 <= k -> 5 <= 2 ^ k -> nextPowerOf2 5 <= 2 ^ k)).
Proof.
  split.
  - apply (proj1 power_of_two_helpers 8). unfold in_range, modulus. lia.
  - apply (proj1 (proj2 power_of_two_helpers) 5). lia.
Defined.

(** C10. [nextPowerOf2] works in 32-bit wrap-around arithmetic: for
    [1 <= n <= 2^31] its result is the smallest power of two that is at
    least [n], and for every [n] with [2^31 < n <= 2^32 - 1] the final
    increment wraps and the result is [0], which is neither a power of two
    nor at least [n]. *)
Theorem nextPowerOf2_wraps (n : Z) :
  (1 <= n <= 2 ^ 31 ->
     is_pow2 (nextPowerOf2 n) /\
     n <= nextPowerOf2 n /\
     (forall k, 0 <= k -> n <= 2 ^ k -> nextPowerOf2 n <= 2 ^ k)) /\
  (2 ^ 31 < n <= 2 ^ 32 - 1 ->
     nextPowerOf2 n = 0 /\
     ~ is_pow2 (nextPowerOf2 n) /\
     ~ n <= nextPowerOf2 n).
Proof.
  split.
  - apply nextPowerOf2_least.
  - intros Hn. rewrite nextPowerOf2_large by exact Hn.
    split; [reflexivity|]. split; [apply not_is_pow2_zero | lia].
Qed.

Lemma nextPowerOf2_wraps_witness :
  (is_pow2 (nextPowerOf2 (2 ^ 31)) /\
   2 ^ 31 <= nextPowerOf2 (2 ^ 31) /\
   (forall k, 0 <= k -> 2 ^ 31 <= 2 ^ k -> nextPowerOf2 (2 ^ 31) <= 2 ^ k)) /\
  (nextPowerOf2 (2 ^ 31 + 1) = 0 /\
   ~ is_pow2 (nextPowerOf2 (2 ^ 31 + 1)) /\
   ~ 2 ^ 31 + 1 <= nextPowerOf2 (2 ^ 31 + 1)).
Proof.
  split.
  - apply (proj1 (nextPowerOf2_wraps (2 ^ 31))). lia.
  - apply (proj2 (nextPowerOf2_wraps (2 ^ 31 + 1))). lia.
Defined.

End Pow2Claims.

(* ================================================================== *)
(** * Vectors and the batch API *)
(* ================================================================== *)

Module VecFacts.

Import Vec.

Lemma upd_length {A} (v : list A) i x : length (upd v i x) = length v.
Proof.
  revert i. induction v as [|h t IH]; intros [|i]; simpl; auto.
Qed.

Lemma upd_split {A} (v : list A) i x :
  (i < length v)%nat ->
  upd v i x = firstn i v ++ x :: skipn (S i) v.
Proof.
  revert i. induction v as [|h t IH]; intros [|i] Hi; simpl in *; try lia; auto.
  f_equal. apply IH. lia.
Qed.

Lemma nth_upd_same {A} (v : list A) i x d :
  (i < length v)%nat -> nth i (upd v i x) d = x.
Proof.
  revert i. induction v as [|h t IH]; intros [|i] Hi; simpl in *; try lia; auto.
  apply IH. lia.
Qed.

Lemma nth_upd_other {A} (v : list A) i j x d :
  i <> j -> nth j (upd v i x) d = nth j v d.
Proof.
  revert i j. induction v as [|h t IH]; intros [|i] [|j] Hij; simpl; auto.
  congruence.
Qed.

Lemma skipn_nth_cons {A} (v : list A) i d :
  (i < length v)%nat -> skipn i v = nth i v d :: skipn (S i) v.
Proof.
  revert i. induction v as [|h t IH]; intros [|i] Hi; simpl in *; try lia; auto.
  apply IH. lia.
Qed.

Lemma Rsum_cons (x : R) (v : list R) : Rsum (x :: v) = (x + Rsum v)%R.
Proof. reflexivity. Qed.

Lemma Rsum_app (a b : list R) : Rsum (a ++ b) = (Rsum a + Rsum b)%R.
Proof.
  unfold Rsum. induction a as [|h t IH]; simpl; [lra | rewrite IH; lra].
Qed.

Lemma Rsum_repeat_0 n : Rsum (repeat 0%R n) = 0%R.
Proof.
  unfold Rsum. induction n as [|n IH]; simpl; [reflexivity | rewrite IH; lra].
Qed.

Lemma skipn_repeat_eq {A} (a : A) k n :
  skipn k (repeat a n) = repeat a (n - k).
Proof.
  revert k. induction n as [|n IH]; intros [|k]; simpl; auto.
Qed.

Lemma lastn_all {A} n (v : list A) : (length v <= n)%nat -> lastn n v = v.
Proof.
  intros H. unfold lastn. replace (length v - n)%nat with 0%nat by lia.
  reflexivity.
Qed.

Lemma lastn_length {A} n (v : list A) :
  length (lastn n v) = Nat.min n (length v).
Proof. unfold lastn. rewrite length_skipn. lia. Qed.

Lemma lastn_app {A} n (a b : list A) :
  (n <= length b)%nat -> lastn n (a ++ b) = lastn n b.
Proof.
  intros H. unfold lastn. rewrite length_app, skipn_app.
  replace (length a + length b - n - length a)%nat with (length b - n)%nat by lia.
  rewrite skipn_all2 by lia. reflexivity.
Qed.

Lemma lastn_app_short {A} n (a b : list A) :
  (length b <= n)%nat -> lastn n (a ++ b) = lastn (n - length b) a ++ b.
Proof.
  intros H. unfold lastn. rewrite length_app, skipn_app.
  replace (length a + length b - n - length a)%nat with 0%nat by lia.
  simpl. f_equal. f_equal. lia.
Qed.

(** Appending one element to a vector that already holds [n] elements
    shifts its last-[n] window by one. *)
Lemma lastn_snoc {A} n (v : list A) x :
  (1 <= n <= length v)%nat -> lastn n (v ++ [x]) = tl (lastn n v) ++ [x].
Proof.
  intros H. rewrite lastn_app_short by (simpl; lia). simpl length.
  f_equal. unfold lastn.
  replace (length v - (n - 1))%nat with (S (length v - n)) by lia.
  generalize (length v - n)%nat as m. clear H.
  intros m. revert v. induction m as [|m IH]; intros [|h t]; simpl; auto.
  apply IH.
Qed.

Lemma process_all_app {S A} (process : S -> A -> S * A) f xs ys :
  process_all process f (xs ++ ys) =
  let '(f1, o1) := process_all process f xs in
  let '(f2, o2) := process_all process f1 ys in
  (f2, o1 ++ o2).
Proof.
  revert f. induction xs as [|x xs IH]; intros f; simpl.
  - destruct (process_all process f ys); reflexivity.
  - destruct (process f x) as [f1 y].
    rewrite IH.
    destruct (process_all process f1 xs) as [f2 o1].
    destruct (process_all process f2 ys) as [f3 o2]. reflexivity.
Qed.

Lemma process_all_length {S A} (process : S -> A -> S * A) f xs :
  length (snd (process_all process f xs)) = length xs.
Proof.
  revert f. induction xs as [|x xs IH]; intros f; simpl; auto.
  destruct (process f x) as [f1 y]. specialize (IH f1).
  destruct (process_all process f1 xs). simpl in *. lia.
Qed.

(** The state after a batch is the state after the scalar calls, and the
    last output of the batch is the output of the last scalar call. *)
Lemma process_all_snoc {S A} (process : S -> A -> S * A) f xs x :
  process_all process f (xs ++ [x]) =
  (fst (process (fst (process_all process f xs)) x),
   snd (process_all process f xs) ++
   [snd (process (fst (process_all process f xs)) x)]).
Proof.
  rewrite process_all_app.
  destruct (process_all process f xs) as [f1 o1]. simpl.
  destruct (process f1 x). reflexivity.
Qed.

End VecFacts.

(* ================================================================== *)
(** * The circular buffer shared by the windowed filters *)
(* ================================================================== *)

Module Ring.

Import U32 Vec VecFacts.
Export RingDefs.

Lemma ring_init {A} {zero : A} W : ring zero W [] (resize W zero []).
Proof.
  unfold ring, resize. simpl length.
  rewrite firstn_nil, Nat.sub_0_r, Nat.Div0.mod_0_l. simpl.
  rewrite repeat_length. split; [reflexivity|].
  rewrite !app_nil_r.
  rewrite lastn_all by (rewrite repeat_length; lia). reflexivity.
Qed.

(** The cursor arithmetic of [process]: [(m_index + 1) % m_windowSize]. *)
Lemma cursor_next (w : Z) (k : nat) :
  (1 <= w < modulus)%Z ->
  ((wrap (Z.of_nat (k mod Z.to_nat w) + 1) mod w)%Z
   = Z.of_nat (S k mod Z.to_nat w)).
Proof.
  intros Hw. unfold wrap, modulus in *.
  assert (Ew : w = Z.of_nat (Z.to_nat w)) by lia.
  assert (HW : (0 < Z.to_nat w)%nat) by lia.
  revert Ew HW. generalize (Z.to_nat w) as W. intros W -> HW.
  pose proof (Nat.mod_upper_bound k W ltac:(lia)) as Hlt.
  replace (S k) with (k + 1)%nat by lia.
  rewrite <- Nat.Div0.add_mod_idemp_l.
  revert Hlt. generalize (k mod W)%nat as r. intros r Hlt.
  rewrite (Z.mod_small _ (2 ^ 32)) by lia.
  rewrite Nat2Z.inj_mod. f_equal. lia.
Qed.

Lemma succ_mod_cases (k W : nat) :
  (0 < W)%nat ->
  (S (k mod W) = W /\ S k mod W = 0)%nat \/
  (S (k mod W) < W /\ S k mod W = S (k mod W))%nat.
Proof.
  intros HW.
  pose proof (Nat.mod_upper_bound k W ltac:(lia)) as Hlt.
  assert (E : (S k mod W = S (k mod W) mod W)%nat).
  { replace (S k) with (k + 1)%nat by lia.
    replace (S (k mod W)) with (k mod W + 1)%nat by lia.
    now rewrite Nat.Div0.add_mod_idemp_l. }
  destruct (Nat.eq_dec (S (k mod W)) W) as [Heq | Hne].
  - left. split; [exact Heq|]. rewrite E, Heq. apply Nat.Div0.mod_same.
  - right. split; [lia|]. rewrite E. apply Nat.mod_small. lia.
Qed.

(** Writing a sample at the cursor keeps the ring. *)
Lemma ring_write {A} {zero : A} W xs buf x :
  (0 < W)%nat -> ring zero W xs buf ->
  ring zero W (xs ++ [x]) (upd buf (length xs mod W) x).
Proof.
  intros HW [Hlen Hrot]. unfold ring.
  rewrite upd_length. split; [exact Hlen|].
  pose proof (Nat.mod_upper_bound (length xs) W ltac:(lia)) as Hlt.
  set (i := (length xs mod W)%nat) in *.
  rewrite app_assoc, lastn_snoc
    by (rewrite length_app, repeat_length; lia).
  rewrite <- Hrot.
  rewrite (skipn_nth_cons buf i zero) by lia. cbn [tl app].
  rewrite upd_split by lia.
  rewrite length_app. simpl length. rewrite Nat.add_1_r.
  assert (Hf : length (firstn i buf) = i) by (rewrite length_firstn; lia).
  destruct (succ_mod_cases (length xs) W HW) as [[Hw E] | [Hw E]];
    fold i in Hw, E; rewrite E.
  - rewrite skipn_O, firstn_O, app_nil_r.
    rewrite (skipn_all2 buf (n := S i)) by lia. reflexivity.
  - rewrite skipn_app, firstn_app, Hf.
    rewrite (skipn_all2 (firstn i buf)) by lia.
    replace (S i - i)%nat with 1%nat by lia.
    rewrite (firstn_all2 (firstn i buf)) by lia.
    change (skipn 1 (x :: skipn (S i) buf)) with (skipn (S i) buf).
    change (firstn 1 (x :: skipn (S i) buf)) with [x].
    cbn [app]. rewrite <- app_assoc. reflexivity.
Qed.

(** Before the buffer has wrapped, the written prefix is the input. *)
Lemma ring_prefix {A} {zero : A} W xs buf :
  (length xs < W)%nat -> ring zero W xs buf -> firstn (length xs) buf = xs.
Proof.
  intros Hlt [Hlen Hrot].
  rewrite Nat.mod_small in Hrot by lia.
  rewrite lastn_app_short in Hrot by lia.
  apply (f_equal (@rev A)) in Hrot.
  rewrite !rev_app_distr in Hrot.
  apply (f_equal (firstn (length xs))) in Hrot.
  rewrite !firstn_app in Hrot.
  rewrite !length_rev, length_firstn in Hrot.
  replace (Nat.min (length xs) (length buf)) with (length xs) in Hrot by lia.
  rewrite Nat.sub_diag in Hrot. simpl firstn in Hrot at 2 4.
  rewrite !app_nil_r in Hrot.
  rewrite <- (length_rev xs) in Hrot at 3.
  rewrite firstn_all in Hrot.
  rewrite firstn_all2 in Hrot by (rewrite length_rev, length_firstn; lia).
  apply (f_equal (@rev A)) in Hrot. now rewrite !rev_involutive in Hrot.
Qed.

(** Once it has wrapped, the buffer is a rotation of the last [W] samples. *)
Lemma ring_full {A} {zero : A} W xs buf :
  (W <= length xs)%nat -> ring zero W xs buf ->
  skipn (length xs mod W) buf ++ firstn (length xs mod W) buf = lastn W xs.
Proof.
  intros Hle [Hlen Hrot]. rewrite Hrot. apply lastn_app. exact Hle.
Qed.

(** The zeros of unwritten slots do not contribute to the buffer sum. *)
Lemma ring_sum W xs buf :
  ring 0%R W xs buf -> Rsum buf = Rsum (lastn (Nat.min (length xs) W) xs).
Proof.
  intros [Hlen Hrot].
  rewrite <- (firstn_skipn (length xs mod W) buf) at 1.
  rewrite Rsum_app, Rplus_comm, <- Rsum_app, Hrot.
  destruct (le_lt_dec W (length xs)) as [Hle | Hlt].
  - rewrite lastn_app by lia. f_equal. f_equal. lia.
  - rewrite lastn_app_short by lia.
    rewrite Rsum_app.
    unfold lastn at 1. rewrite skipn_repeat_eq, Rsum_repeat_0.
    rewrite Nat.min_l by lia. rewrite lastn_all by lia. lra.
Qed.

End Ring.

(* ================================================================== *)
(** * The comparisons of exact and of binary64 arithmetic *)
(* ================================================================== *)

Module ScalarFacts.

Import SpecFloat Binary64Defs Scalar.
Local Open Scope Z_scope.

Lemma SFcompare_key f1 f2 :
  SFcompare f1 f2 =
  match key f1, key f2 with
  | Some a, Some b => Some (cmp3 a b)
  | _, _ => None
  end.
Proof.
  destruct f1 as [s1|s1| |s1 m1 e1], f2 as [s2|s2| |s2 m2 e2];
    try destruct s1; try destruct s2; try reflexivity.
  cbn [SFcompare key cmp3]. rewrite Z.compare_opp.
  change (-1 ?= -1) with Eq. cbv iota.
  rewrite (Z.compare_antisym e1 e2).
  destruct (e1 ?= e2); reflexivity.
Qed.

Lemma cmp3_spec a b :
  match cmp3 a b with
  | Lt => lt3 a b
  | Eq => a = b
  | Gt => lt3 b a
  end.
Proof.
  destruct a as [[a1 a2] a3], b as [[b1 b2] b3]. unfold cmp3, lt3.
  destruct (Z.compare_spec a1 b1), (Z.compare_spec a2 b2),
    (Z.compare_spec a3 b3); subst; try reflexivity; lia.
Qed.

Lemma lt3_irrefl a : ~ lt3 a a.
Proof. destruct a as [[a1 a2] a3]. unfold lt3. lia. Qed.

Lemma lt3_trans a b c : lt3 a b -> lt3 b c -> lt3 a c.
Proof.
  destruct a as [[a1 a2] a3], b as [[b1 b2] b3], c as [[c1 c2] c3].
  unfold lt3. lia.
Qed.

(** The comparisons of [double], read on the keys. *)
Lemma ltb_K (x y : PrimFloat.float) :
  ltb x y = true <->
  match K x, K y with
  | Some a, Some b => lt3 a b
  | _, _ => False
  end.
Proof.
  cbn [ltb binary64]. rewrite FloatAxioms.ltb_spec. unfold SFltb, K.
  rewrite SFcompare_key.
  destruct (key (FloatOps.Prim2SF x)) as [a|],
    (key (FloatOps.Prim2SF y)) as [b|]; try (split; [discriminate | tauto]).
  pose proof (cmp3_spec a b) as H. pose proof (lt3_irrefl a) as Hi.
  destruct (cmp3 a b); split; intros G; try reflexivity; try discriminate G.
  - subst. tauto.
  - exact H.
  - exfalso. apply Hi. now apply (lt3_trans a b a).
Qed.

Lemma leb_K (x y : PrimFloat.float) :
  leb x y = true <->
  match K x, K y with
  | Some a, Some b => ~ lt3 b a
  | _, _ => False
  end.
Proof.
  cbn [leb binary64]. rewrite FloatAxioms.leb_spec. unfold SFleb, K.
  rewrite SFcompare_key.
  destruct (key (FloatOps.Prim2SF x)) as [a|],
    (key (FloatOps.Prim2SF y)) as [b|]; try (split; [discriminate | tauto]).
  pose proof (cmp3_spec a b) as H. pose proof (lt3_irrefl a) as Hi.
  destruct (cmp3 a b); split; intros G; try reflexivity; try discriminate G.
  - subst. exact Hi.
  - intros Hba. apply Hi. now apply (lt3_trans a b a).
  - tauto.
Qed.

Lemma eqb_K (x y : PrimFloat.float) :
  eqb x y = true <->
  match K x, K y with
  | Some a, Some b => a = b
  | _, _ => False
  end.
Proof.
  cbn [eqb binary64]. rewrite FloatAxioms.eqb_spec. unfold SFeqb, K.
  rewrite SFcompare_key.
  destruct (key (FloatOps.Prim2SF x)) as [a|],
    (key (FloatOps.Prim2SF y)) as [b|]; try (split; [discriminate | tauto]).
  pose proof (cmp3_spec a b) as H. pose proof (lt3_irrefl a) as Hi.
  destruct (cmp3 a b); split; intros G; try reflexivity; try discriminate G.
  - exact H.
  - subst. tauto.
  - subst. tauto.
Qed.

(** The absolute value changes the sign of a key below zero. *)
Lemma abs_K (x : PrimFloat.float) :
  K (abs x) =
  match K x with
  | Some (s, e, m) => Some (if s <? 0 then (- s, - e, - m) else (s, e, m))
  | None => None
  end.
Proof.
  cbn [abs binary64]. unfold K. rewrite FloatAxioms.abs_spec.
  destruct (FloatOps.Prim2SF x) as [s|s| |s m e]; try destruct s;
    try reflexivity.
  cbn [SFabs key Z.ltb Z.compare]. now rewrite Z.opp_involutive.
Qed.

Ltac on_keys :=
  unfold number;
  rewrite ?ltb_K, ?leb_K, ?eqb_K, ?abs_K;
  repeat match goal with
  | |- context [K ?x] => destruct (K x) as [[[? ?] ?]|]
  end;
  unfold lt3; try tauto; try lia.

(** The arithmetic of [double] satisfies the laws of [order]. *)
#[export] Instance binary64_order : order binary64.
Proof.
  split.
  - intros x y. on_keys.
  - intros x y z. on_keys.
  - intros x y. on_keys.
  - intros x y. on_keys.
  - intros x y. rewrite <- Bool.not_true_iff_false. on_keys.
  - intros x. rewrite <- Bool.not_true_iff_false. on_keys.
  - intros x y z. on_keys.
  - intros x y z. on_keys.
  - intros x y. rewrite <- Bool.not_true_iff_false. on_keys.
    intros H E. injection E. lia.
  - intros x y. rewrite <- !Bool.not_true_iff_false. on_keys.
    intros _ _ H1 H2. f_equal; [f_equal|]; lia.
  - reflexivity.
  - intros x. on_keys. destruct (_ <? 0); lia.
  - intros lo x hi. on_keys.
    repeat match goal with
    | |- context [?a <? 0] => destruct (Z.ltb_spec a 0)
    end; lia.
Qed.

(** So does exact arithmetic. *)
#[export] Instance exact_order : order exact.
Proof.
  split; unfold number; cbn [leb ltb eqb of_Z exact]; intros;
    repeat match goal with
    | H : context [Rle_dec ?a ?b] |- _ => destruct (Rle_dec a b)
    | H : context [Rlt_dec ?a ?b] |- _ => destruct (Rlt_dec a b)
    | |- context [Rle_dec ?a ?b] => destruct (Rle_dec a b)
    | |- context [Rlt_dec ?a ?b] => destruct (Rlt_dec a b)
    | |- context [Req_dec_T ?a ?b] => destruct (Req_dec_T a b)
    end; try discriminate; try reflexivity; try tauto; try lra;
    cbn [abs exact] in *; unfold Rabs in *;
    repeat match goal with
    | H : context [Rcase_abs ?a] |- _ => destruct (Rcase_abs a)
    | |- context [Rcase_abs ?a] => destruct (Rcase_abs a)
    end; try lra.
Qed.

Section Laws.

Context {T : Type} {O : ops T} {L : order O}.

Lemma ltb_number (x y : T) : ltb x y = true -> number x /\ number y.
Proof. intros H. apply leb_number. now apply ltb_leb. Qed.

Lemma eqb_zero : eqb (of_Z 0 : T) (of_Z 0) = true.
Proof.
  apply not_ltb_eqb; try apply zero_number; apply ltb_irrefl.
Qed.

End Laws.

End ScalarFacts.

(* ================================================================== *)
(** * MovingAverageFilter *)
(* ================================================================== *)

Module TemplateMovingAverageFacts.

Import U32 Vec VecFacts Ring Scalar RunningSumDefs.
Import Template.MovingAverageFilter.
Export TemplateMovingAverageDefs.

Lemma fold_left_ext_In {A B} (f g : A -> B -> A) (l : list B) (a : A) :
  (forall s x, In x l -> f s x = g s x) -> fold_left f l a = fold_left g l a.
Proof.
  revert a. induction l as [|b l IH]; intros a H; [reflexivity|].
  cbn [fold_left]. rewrite (H a b) by (left; reflexivity).
  apply IH. intros s x Hx. apply H. right. exact Hx.
Qed.

Section Over.

Context {T : Type} {O : ops T}.

Lemma evicted_app w (xs ys : list T) i :
  (i < w + length xs)%nat -> evicted w (xs ++ ys) i = evicted w xs i.
Proof.
  intros Hi. unfold evicted.
  destruct (Nat.ltb_spec i w) as [_|Hge]; [reflexivity|].
  apply app_nth1. lia.
Qed.

(** One more sample: the evicted one is subtracted, the new one added. *)
Lemma running_sum_snoc w (xs : list T) x :
  (0 < w)%nat ->
  running_sum w (xs ++ [x])
  = add (sub (running_sum w xs) (evicted w xs (length xs))) x.
Proof.
  intros Hw. unfold running_sum.
  rewrite length_app. simpl length.
  rewrite seq_app, fold_left_app. cbn [seq fold_left Nat.add].
  rewrite nth_middle.
  rewrite (evicted_app w xs [x] (length xs)) by lia.
  f_equal. f_equal.
  apply fold_left_ext_In. intros s i Hi. apply in_seq in Hi.
  rewrite evicted_app by lia. rewrite app_nth1 by lia. reflexivity.
Qed.

Section Window.

Variable w : Z.
Hypothesis Hw : (1 <= w < modulus)%Z.

Lemma ma_make_nonzero : make w =
  {| m_windowSize := w; m_buffer := resize (Z.to_nat w) (of_Z 0 : T) [];
     m_index := 0; m_sum := of_Z 0; m_bufferFull := false |}.
Proof.
  unfold make. destruct (Z.eqb_spec w 0) as [E|_]; [lia | reflexivity].
Qed.

Lemma ma_inv_make : inv w [] (make w : t T).
Proof.
  rewrite ma_make_nonzero. unfold inv; simpl.
  assert (HW : (0 < Z.to_nat w)%nat) by lia.
  repeat split.
  - apply ring_init.
  - apply ring_init.
  - now rewrite Nat.Div0.mod_0_l.
  - symmetry. apply Nat.leb_gt. exact HW.
Qed.

(** The slot a call overwrites holds the evicted sample. *)
Lemma ring_cursor (xs buf : list T) :
  ring (of_Z 0) (Z.to_nat w) xs buf ->
  nth (length xs mod Z.to_nat w) buf (of_Z 0)
  = evicted (Z.to_nat w) xs (length xs).
Proof.
  intros [Hlen Hrot].
  assert (HW : (0 < Z.to_nat w)%nat) by lia.
  pose proof (Nat.mod_upper_bound (length xs) (Z.to_nat w) ltac:(lia)) as Hlt.
  set (W := Z.to_nat w) in *. set (i := (length xs mod W)%nat) in *.
  assert (E : nth 0 (skipn i buf ++ firstn i buf) (of_Z 0)
              = nth i buf (of_Z 0)).
  { rewrite app_nth1 by (rewrite length_skipn; lia).
    rewrite nth_skipn. f_equal. lia. }
  rewrite <- E, Hrot. unfold lastn, evicted.
  rewrite nth_skipn, length_app, repeat_length, Nat.add_0_r.
  replace (W + length xs - W)%nat with (length xs) by lia.
  destruct (Nat.ltb_spec (length xs) W) as [Hs|Hl].
  - rewrite app_nth1 by (rewrite repeat_length; lia).
    apply nth_repeat.
  - rewrite app_nth2 by (rewrite repeat_length; lia).
    now rewrite repeat_length.
Qed.

Lemma ma_inv_process (xs : list T) f x :
  inv w xs f -> inv w (xs ++ [x]) (fst (process f x)).
Proof.
  intros (Hws & Hring & Hidx & Hfull & Hsum).
  assert (HW : (0 < Z.to_nat w)%nat) by lia.
  pose proof (Nat.mod_upper_bound (length xs) (Z.to_nat w) ltac:(lia)) as Hlt.
  unfold process, inv;
    cbn [fst m_windowSize m_buffer m_index m_sum m_bufferFull].
  rewrite Hws, Hidx, Nat2Z.id, cursor_next by exact Hw.
  rewrite length_app. simpl length. rewrite Nat.add_1_r.
  split; [reflexivity|].
  split; [now apply ring_write|].
  split; [reflexivity|].
  split.
  - destruct (succ_mod_cases (length xs) (Z.to_nat w) HW) as [[Hc E] | [Hc E]];
      rewrite E.
    + simpl. symmetry. apply Nat.leb_le.
      pose proof (Nat.Div0.mod_le (length xs) (Z.to_nat w)). lia.
    + replace (Z.of_nat (S (length xs mod Z.to_nat w)) =? 0)%Z with false
        by (symmetry; apply Z.eqb_neq; lia).
      rewrite Hfull.
      destruct (Nat.leb_spec (Z.to_nat w) (length xs)) as [Hle | Hgt].
      * symmetry. apply Nat.leb_le. lia.
      * symmetry. apply Nat.leb_gt.
        rewrite Nat.mod_small in Hc by lia. lia.
  - rewrite running_sum_snoc by exact HW.
    rewrite Hsum, (ring_cursor xs _ Hring). reflexivity.
Qed.

Lemma ma_inv_feed (xs : list T) : inv w xs (feed (make w) xs).
Proof.
  induction xs as [|x xs IH] using rev_ind.
  - apply ma_inv_make.
  - unfold feed in *. rewrite process_all_snoc. simpl fst.
    now apply ma_inv_process.
Qed.

(** What a call returns, in terms of the state it leaves. *)
Lemma ma_process_snd (f : t T) x :
  snd (process f x) =
  div (m_sum (fst (process f x)))
      (of_Z (if m_bufferFull (fst (process f x)) then m_windowSize f
             else if (m_index (fst (process f x)) =? 0)%Z then m_windowSize f
                  else m_index (fst (process f x)))).
Proof. reflexivity. Qed.

(** The ramp-up policy, for a call made in a state that satisfies [inv]. *)
Lemma ma_process_output (xs : list T) f x :
  inv w xs f ->
  let m := Nat.min (S (length xs)) (Z.to_nat w) in
  snd (process f x)
  = div (running_sum (Z.to_nat w) (xs ++ [x])) (of_Z (Z.of_nat m)).
Proof.
  intros Hinv m.
  pose proof (ma_inv_process xs f x Hinv)
    as (Hws & Hring & Hidx & Hfull & Hsum).
  destruct Hinv as (Hws0 & _).
  rewrite ma_process_snd, Hws0, Hsum, Hfull, Hidx.
  rewrite length_app. simpl length. rewrite Nat.add_1_r.
  f_equal. f_equal.
  destruct (Nat.leb_spec (Z.to_nat w) (S (length xs))) as [Hle | Hgt].
  - unfold m. rewrite Nat.min_r by lia. lia.
  - unfold m. rewrite Nat.min_l by lia.
    rewrite Nat.mod_small by lia.
    replace (Z.of_nat (S (length xs)) =? 0)%Z with false
      by (symmetry; apply Z.eqb_neq; lia).
    reflexivity.
Qed.

End Window.

End Over.

(** In exact arithmetic the running sum is the sum of the window. *)
Lemma running_sum_exact (w : nat) (xs : list R) :
  (0 < w)%nat ->
  running_sum (O := exact) w xs = Rsum (lastn (Nat.min (length xs) w) xs).
Proof.
  intros Hw. induction xs as [|x xs IH] using rev_ind; [reflexivity|].
  rewrite running_sum_snoc by exact Hw. rewrite IH.
  cbn [add sub exact]. unfold evicted. cbn [of_Z exact].
  rewrite length_app. simpl length. rewrite Nat.add_1_r.
  destruct (Nat.ltb_spec (length xs) w) as [Hlt | Hge].
  - rewrite Nat.min_l, Nat.min_l by lia.
    rewrite !lastn_all by (rewrite ?length_app; simpl; lia).
    rewrite Rsum_app, Rsum_cons. unfold Rsum at 3. simpl. lra.
  - rewrite Nat.min_r, Nat.min_r by lia.
    rewrite lastn_snoc by lia. rewrite Rsum_app, Rsum_cons.
    unfold Rsum at 3. simpl.
    unfold lastn.
    rewrite (skipn_nth_cons xs (length xs - w) 0%R) by lia.
    cbn [tl]. rewrite Rsum_cons. lra.
Qed.

End TemplateMovingAverageFacts.

Module MovingAverageClaims.

Import PrimFloat.
Import U32 Vec Scalar RunningSumDefs.
Import Template.MovingAverageFilter TemplateMovingAverageFacts.

(** C4, the claim as stated fails: [MovingAverageFilter<double>(2)] fed
    [1e17, 1, 1, 1] returns [1e17, 5e16, 0.5, 0.5].  At the second call
    [1e17 + 1] rounds to [1e17], so the running sum has lost a [1] that is
    subtracted again later: at the fourth call the last two inputs are
    [1] and [1], their sum divided by two is [1] also in [double], and
    the filter returns [0.5]; the constant input [1] has then been fed for
    more than [w = 2] consecutive samples. *)
Lemma moving_average_counterexample :
  let outputs :=
    snd (process_all (process (O := binary64)) (make 2)
                     [1e17; 1; 1; 1]%float) in
  outputs = [1e17; 5e16; 0.5; 0.5]%float /\
  div (add 1%float 1%float) (of_Z 2) = 1%float /\
  nth 3 outputs 0%float <> div (add 1%float 1%float) (of_Z 2).
Proof.
  vm_compute. repeat split. discriminate.
Qed.

(** C4, amended. In any arithmetic of [T], for a window size [w >= 1] (a
    [uint32_t]) and any input stream, the call to [process] that follows
    the samples [xs] (the [k]-th call, [k = length xs + 1]) returns the
    running sum divided by [min k w] converted to [T]: the divisor is [w]
    once the buffer has filled, otherwise the number of samples inserted
    so far.  The running sum starts at zero, and call [i] subtracts from
    it the input of call [i - w] (zero for [i <= w]) and then adds its own
    input, each operation rounded as [T] rounds. *)
Theorem moving_average_running_sum
        {T : Type} {O : ops T} (w : Z) (xs : list T) (x : T) :
  (1 <= w < modulus)%Z ->
  let k := S (length xs) in
  let m := Nat.min k (Z.to_nat w) in
  snd (process (feed (make w) xs) x)
  = div (running_sum (Z.to_nat w) (xs ++ [x])) (of_Z (Z.of_nat m)).
Proof.
  intros Hw k m. apply (ma_process_output w Hw xs). apply ma_inv_feed.
  exact Hw.
Qed.

Lemma moving_average_running_sum_witness :
  snd (process (O := binary64) (feed (make 2) [1e17; 1; 1]%float) 1%float)
  = div (running_sum 2 [1e17; 1; 1; 1]%float) (of_Z 2).
Proof.
  apply (moving_average_running_sum (O := binary64) 2 [1e17; 1; 1]%float
                                    1%float).
  unfold modulus. lia.
Defined.

End MovingAverageClaims.

Module MovingAverageFacts.

Import U32 Vec VecFacts Ring MovingAverageFilter.
Export MovingAverageDefs.

Section Window.

Variable w : Z.
Hypothesis Hw : (1 <= w < modulus)%Z.

Lemma make_nonzero : make w =
  {| m_windowSize := w; m_buffer := resize (Z.to_nat w) 0%R [];
     m_index := 0; m_sum := 0; m_bufferFull := false |}.
Proof.
  unfold make. destruct (Z.eqb_spec w 0) as [E|_]; [lia | reflexivity].
Qed.

Lemma inv_make : inv w [] (make w).
Proof.
  rewrite make_nonzero. unfold inv; simpl.
  assert (HW : (0 < Z.to_nat w)%nat) by lia.
  repeat split.
  - apply ring_init.
  - apply ring_init.
  - now rewrite Nat.Div0.mod_0_l.
  - symmetry. apply Nat.leb_gt. exact HW.
  - unfold resize. simpl. rewrite firstn_nil, Nat.sub_0_r. simpl.
    now rewrite Rsum_repeat_0.
Qed.

Lemma inv_process xs f x :
  inv w xs f -> inv w (xs ++ [x]) (fst (process f x)).
Proof.
  intros (Hws & Hring & Hidx & Hfull & Hsum).
  assert (HW : (0 < Z.to_nat w)%nat) by lia.
  pose proof (Nat.mod_upper_bound (length xs) (Z.to_nat w) ltac:(lia)) as Hlt.
  unfold process, inv; cbn [fst m_windowSize m_buffer m_index m_sum m_bufferFull].
  rewrite Hws, Hidx, Nat2Z.id, cursor_next by exact Hw.
  rewrite length_app. simpl length. rewrite Nat.add_1_r.
  split; [reflexivity|].
  split; [now apply ring_write|].
  split; [reflexivity|].
  split.
  - destruct (succ_mod_cases (length xs) (Z.to_nat w) HW) as [[Hc E] | [Hc E]];
      rewrite E.
    + simpl. symmetry. apply Nat.leb_le.
      pose proof (Nat.Div0.mod_le (length xs) (Z.to_nat w)). lia.
    + replace (Z.of_nat (S (length xs mod Z.to_nat w)) =? 0)%Z with false
        by (symmetry; apply Z.eqb_neq; lia).
      rewrite Hfull.
      destruct (Nat.leb_spec (Z.to_nat w) (length xs)) as [Hle | Hgt].
      * symmetry. apply Nat.leb_le. lia.
      * symmetry. apply Nat.leb_gt.
        rewrite Nat.mod_small in Hc by lia. lia.
  - destruct Hring as [Hlen _].
    rewrite upd_split by lia.
    rewrite Hsum.
    rewrite <- (firstn_skipn (length xs mod Z.to_nat w) (m_buffer f)) at 1.
    rewrite (skipn_nth_cons (m_buffer f) _ 0%R) by lia.
    rewrite !Rsum_app, !Rsum_cons. lra.
Qed.

Lemma inv_feed xs : inv w xs (feed (make w) xs).
Proof.
  induction xs as [|x xs IH] using rev_ind.
  - apply inv_make.
  - unfold feed in *. rewrite process_all_snoc. simpl fst.
    now apply inv_process.
Qed.

(** What a call returns, in terms of the state it leaves. *)
Lemma process_snd f x :
  snd (process f x) =
  (m_sum (fst (process f x)) /
   IZR (if m_bufferFull (fst (process f x)) then m_windowSize f
        else if (m_index (fst (process f x)) =? 0)%Z then m_windowSize f
             else m_index (fst (process f x))))%R.
Proof. reflexivity. Qed.

(** The ramp-up policy, for a call made in a state that satisfies [inv]. *)
Lemma process_output xs f x :
  inv w xs f ->
  let m := Nat.min (S (length xs)) (Z.to_nat w) in
  snd (process f x) = (Rsum (lastn m (xs ++ [x])) / INR m)%R.
Proof.
  intros Hinv m.
  pose proof (inv_process xs f x Hinv) as (Hws & Hring & Hidx & Hfull & Hsum).
  destruct Hinv as (Hws0 & _).
  rewrite process_snd, Hws0, Hsum, Hfull, Hidx.
  rewrite (ring_sum _ _ _ Hring).
  rewrite length_app. simpl length. rewrite Nat.add_1_r.
  fold m. f_equal.
  rewrite INR_IZR_INZ. f_equal.
  destruct (Nat.leb_spec (Z.to_nat w) (S (length xs))) as [Hle | Hgt].
  - unfold m. rewrite Nat.min_r by lia. lia.
  - rewrite Nat.mod_small by lia.
    destruct (Z.eqb_spec (Z.of_nat (S (length xs))) 0) as [E|_]; [lia|].
    unfold m. rewrite Nat.min_l by lia. reflexivity.
Qed.

End Window.

End MovingAverageFacts.

(* ================================================================== *)
(** * MedianFilter *)
(* ================================================================== *)

Module MedianFacts.

Import U32 Vec VecFacts Ring MedianFilter.
Export MedianDefs.

Lemma insert_perm x v : Permutation (insert x v) (x :: v).
Proof.
  induction v as [|h t IH]; simpl; [reflexivity|].
  destruct (Rle_dec x h); [reflexivity|].
  rewrite IH. apply perm_swap.
Qed.

Lemma sort_perm v : Permutation (sort v) v.
Proof.
  induction v as [|h t IH]; simpl; [reflexivity|].
  rewrite insert_perm. now constructor.
Qed.

Lemma insert_sorted x v : Sorted Rle v -> Sorted Rle (insert x v).
Proof.
  induction v as [|h t IH]; intros Hs; simpl.
  - repeat constructor.
  - destruct (Rle_dec x h) as [Hle | Hnle].
    + constructor; [exact Hs | constructor; exact Hle].
    + inversion Hs as [|? ? Ht Hhd]; subst.
      constructor; [now apply IH|].
      destruct t as [|h' t']; simpl.
      * constructor. lra.
      * destruct (Rle_dec x h'); constructor; [lra|].
        inversion Hhd; assumption.
Qed.

Lemma sort_sorted v : Sorted Rle (sort v).
Proof.
  induction v as [|h t IH]; simpl; [constructor | now apply insert_sorted].
Qed.

Lemma Rle_trans' : Relations_1.Transitive Rle.
Proof. intros x y z. apply Rle_trans. Qed.

(** A sample vector has only one sorted arrangement. *)
Lemma sorted_unique (a b : list R) :
  Sorted Rle a -> Sorted Rle b -> Permutation a b -> a = b.
Proof.
  revert b. induction a as [|x a IH]; intros b Ha Hb Hp.
  - apply Permutation_nil in Hp. now subst.
  - destruct b as [|y b].
    { apply Permutation_sym, Permutation_nil in Hp. discriminate. }
    apply Sorted_StronglySorted in Ha; [|exact Rle_trans'].
    apply Sorted_StronglySorted in Hb; [|exact Rle_trans'].
    inversion Ha as [|? ? Ha' Hxa]; subst.
    inversion Hb as [|? ? Hb' Hyb]; subst.
    assert (Exy : x = y).
    { assert (Hx : In x (y :: b))
        by (eapply Permutation_in; [exact Hp | now left]).
      assert (Hy : In y (x :: a))
        by (eapply Permutation_in; [apply Permutation_sym; exact Hp | now left]).
      rewrite Forall_forall in Hxa, Hyb.
      destruct Hx as [-> | Hx]; [reflexivity|].
      destruct Hy as [<- | Hy]; [reflexivity|].
      apply Rle_antisym; auto. }
    subst y. f_equal.
    apply IH.
    + now apply StronglySorted_Sorted.
    + now apply StronglySorted_Sorted.
    + eapply Permutation_cons_inv. exact Hp.
Qed.

(** [std::sort] returns the sorted arrangement of its argument. *)
Lemma sort_unique v s : Sorted Rle s -> Permutation s v -> sort v = s.
Proof.
  intros Hs Hp. apply sorted_unique; [apply sort_sorted | exact Hs |].
  rewrite sort_perm. now apply Permutation_sym.
Qed.

Section Window.

Variable w : Z.
Hypothesis Hw : (1 <= w < modulus)%Z.

Lemma median_inv_make : inv w [] (make w).
Proof.
  unfold make. destruct (Z.eqb_spec w 0) as [E|_]; [lia|].
  assert (HW : (0 < Z.to_nat w)%nat) by lia.
  unfold inv; simpl. repeat split; try apply ring_init.
  - now rewrite Nat.Div0.mod_0_l.
  - symmetry. apply Nat.leb_gt. exact HW.
Qed.

Lemma median_inv_process xs f x :
  inv w xs f -> inv w (xs ++ [x]) (fst (process f x)).
Proof.
  intros (Hws & Hring & Hidx & Hfull).
  assert (HW : (0 < Z.to_nat w)%nat) by lia.
  unfold process, inv; cbn [fst m_windowSize m_buffer m_index m_bufferFull].
  rewrite Hws, Hidx, Nat2Z.id, cursor_next by exact Hw.
  rewrite length_app. simpl length. rewrite Nat.add_1_r.
  split; [reflexivity|].
  split; [now apply ring_write|].
  split; [reflexivity|].
  destruct (succ_mod_cases (length xs) (Z.to_nat w) HW) as [[Hc E] | [Hc E]];
    rewrite E.
  - simpl. symmetry. apply Nat.leb_le.
    pose proof (Nat.Div0.mod_le (length xs) (Z.to_nat w)). lia.
  - replace (Z.of_nat (S (length xs mod Z.to_nat w)) =? 0)%Z with false
      by (symmetry; apply Z.eqb_neq; lia).
    rewrite Hfull.
    destruct (Nat.leb_spec (Z.to_nat w) (length xs)) as [Hle | Hgt].
    + symmetry. apply Nat.leb_le. lia.
    + symmetry. apply Nat.leb_gt.
      rewrite Nat.mod_small in Hc by lia. lia.
Qed.

Lemma median_inv_feed xs : inv w xs (feed (make w) xs).
Proof.
  induction xs as [|x xs IH] using rev_ind.
  - apply median_inv_make.
  - unfold feed in *. rewrite process_all_snoc. simpl fst.
    now apply median_inv_process.
Qed.

(** The vector [calculateMedian] copies and sorts is a rearrangement of
    the last [min k w] samples. *)
Lemma valid_portion xs f :
  xs <> [] -> inv w xs f ->
  let sortBuffer := if m_bufferFull f then m_buffer f
                    else firstn (Z.to_nat (m_index f)) (m_buffer f) in
  Permutation sortBuffer (lastn (Nat.min (length xs) (Z.to_nat w)) xs).
Proof.
  intros Hne (Hws & Hring & Hidx & Hfull). cbv zeta.
  rewrite Hfull, Hidx, Nat2Z.id.
  destruct (Nat.leb_spec (Z.to_nat w) (length xs)) as [Hle | Hgt].
  - rewrite Nat.min_r by lia.
    rewrite <- (ring_full _ _ _ Hle Hring).
    rewrite <- (firstn_skipn (length xs mod Z.to_nat w) (m_buffer f)) at 1.
    apply Permutation_app_comm.
  - rewrite Nat.mod_small, Nat.min_l by lia.
    rewrite (ring_prefix _ _ _ Hgt Hring), lastn_all by lia.
    reflexivity.
Qed.

Lemma calculateMedian_spec xs f s :
  xs <> [] -> inv w xs f ->
  Sorted Rle s ->
  Permutation s (lastn (Nat.min (length xs) (Z.to_nat w)) xs) ->
  calculateMedian f = middle s.
Proof.
  intros Hne Hinv Hs Hp.
  pose proof (valid_portion xs f Hne Hinv) as Hv. cbv zeta in Hv.
  unfold calculateMedian.
  destruct (if m_bufferFull f then m_buffer f
            else firstn (Z.to_nat (m_index f)) (m_buffer f)) as [|b bs] eqn:E.
  - apply Permutation_nil in Hv.
    apply (f_equal (@length R)) in Hv. rewrite lastn_length in Hv.
    unfold modulus in Hw.
    destruct xs; [congruence | cbn [length] in Hv; lia].
  - f_equal. apply sort_unique; [exact Hs|].
    rewrite Hp. now apply Permutation_sym.
Qed.

End Window.

End MedianFacts.

Module TemplateMedianFacts.

Import U32 Vec VecFacts Ring Scalar.
Import Template.MedianFilter.
Export TemplateMedianDefs.

Section Over.

Context {T : Type} {O : ops T} {L : order O}.

Lemma med_insert_perm (x : T) v : Permutation (insert x v) (x :: v).
Proof.
  induction v as [|h t IH]; simpl; [reflexivity|].
  destruct (ltb x h); [reflexivity|].
  rewrite IH. apply perm_swap.
Qed.

Lemma med_sort_perm (v : list T) : Permutation (sort v) v.
Proof.
  induction v as [|h t IH]; simpl; [reflexivity|].
  rewrite med_insert_perm. now constructor.
Qed.

Lemma med_insert_sorted (x : T) v :
  number x -> Forall number v -> Sorted le v -> Sorted le (insert x v).
Proof.
  intros Hx. induction v as [|h t IH]; intros Hn Hs; simpl.
  - repeat constructor.
  - inversion Hn as [|? ? Hh Ht]; subst.
    destruct (ltb x h) eqn:E.
    + constructor; [exact Hs | constructor; now apply ltb_leb].
    + assert (Hhx : le h x) by (now apply not_ltb_leb).
      inversion Hs as [|? ? Hst Hhd]; subst.
      constructor; [now apply IH|].
      destruct t as [|h' t']; simpl.
      * constructor. exact Hhx.
      * destruct (ltb x h'); constructor; [exact Hhx|].
        inversion Hhd; assumption.
Qed.

Lemma med_sort_number (v : list T) :
  Forall number v -> Forall number (sort v).
Proof.
  intros H. rewrite Forall_forall in *. intros x Hx. apply H.
  eapply Permutation_in; [apply med_sort_perm | exact Hx].
Qed.

(** On numbers, [std::sort] returns an ascending vector. *)
Lemma med_sort_sorted (v : list T) : Forall number v -> Sorted le (sort v).
Proof.
  induction v as [|h t IH]; intros Hn; simpl; [constructor|].
  inversion Hn; subst.
  apply med_insert_sorted;
    [assumption | now apply med_sort_number | now apply IH].
Qed.

Lemma med_le_trans : Relations_1.Transitive (le (T := T)).
Proof. intros x y z. apply leb_trans. Qed.

Section Window.

Variable w : Z.
Hypothesis Hw : (1 <= w < modulus)%Z.

Lemma med_inv_make : inv w [] (make w : t T).
Proof.
  unfold make. destruct (Z.eqb_spec w 0) as [E|_]; [lia|].
  assert (HW : (0 < Z.to_nat w)%nat) by lia.
  unfold inv; simpl. repeat split; try apply ring_init.
  - now rewrite Nat.Div0.mod_0_l.
  - symmetry. apply Nat.leb_gt. exact HW.
Qed.

Lemma med_inv_process (xs : list T) f x :
  inv w xs f -> inv w (xs ++ [x]) (fst (process f x)).
Proof.
  intros (Hws & Hring & Hidx & Hfull).
  assert (HW : (0 < Z.to_nat w)%nat) by lia.
  unfold process, inv; cbn [fst m_windowSize m_buffer m_index m_bufferFull].
  rewrite Hws, Hidx, Nat2Z.id, cursor_next by exact Hw.
  rewrite length_app. simpl length. rewrite Nat.add_1_r.
  split; [reflexivity|].
  split; [now apply ring_write|].
  split; [reflexivity|].
  destruct (succ_mod_cases (length xs) (Z.to_nat w) HW) as [[Hc E] | [Hc E]];
    rewrite E.
  - simpl. symmetry. apply Nat.leb_le.
    pose proof (Nat.Div0.mod_le (length xs) (Z.to_nat w)). lia.
  - replace (Z.of_nat (S (length xs mod Z.to_nat w)) =? 0)%Z with false
      by (symmetry; apply Z.eqb_neq; lia).
    rewrite Hfull.
    destruct (Nat.leb_spec (Z.to_nat w) (length xs)) as [Hle | Hgt].
    + symmetry. apply Nat.leb_le. lia.
    + symmetry. apply Nat.leb_gt.
      rewrite Nat.mod_small in Hc by lia. lia.
Qed.

Lemma med_inv_feed (xs : list T) : inv w xs (feed (make w) xs).
Proof.
  induction xs as [|x xs IH] using rev_ind.
  - apply med_inv_make.
  - unfold feed in *. rewrite process_all_snoc. simpl fst.
    now apply med_inv_process.
Qed.

(** The vector [calculateMedian] copies and sorts is a rearrangement of
    the last [min k w] samples. *)
Lemma med_valid_portion (xs : list T) f :
  xs <> [] -> inv w xs f ->
  let sortBuffer := if m_bufferFull f then m_buffer f
                    else firstn (Z.to_nat (m_index f)) (m_buffer f) in
  Permutation sortBuffer (lastn (Nat.min (length xs) (Z.to_nat w)) xs).
Proof.
  intros Hne (Hws & Hring & Hidx & Hfull). cbv zeta.
  rewrite Hfull, Hidx, Nat2Z.id.
  destruct (Nat.leb_spec (Z.to_nat w) (length xs)) as [Hle | Hgt].
  - rewrite Nat.min_r by lia.
    rewrite <- (ring_full _ _ _ Hle Hring).
    rewrite <- (firstn_skipn (length xs mod Z.to_nat w) (m_buffer f)) at 1.
    apply Permutation_app_comm.
  - rewrite Nat.mod_small, Nat.min_l by lia.
    rewrite (ring_prefix _ _ _ Hgt Hring), lastn_all by lia.
    reflexivity.
Qed.

(** [calculateMedian] returns the middle of an ascending arrangement of
    the last [min k w] samples. *)
Lemma med_calculateMedian_spec (xs : list T) f :
  xs <> [] -> inv w xs f ->
  let window := lastn (Nat.min (length xs) (Z.to_nat w)) xs in
  Forall number window ->
  exists s,
    Permutation s window /\ StronglySorted le s /\
    calculateMedian f = middle s.
Proof.
  intros Hne Hinv window Hnum.
  pose proof (med_valid_portion xs f Hne Hinv) as Hv. cbv zeta in Hv.
  fold window in Hv.
  unfold calculateMedian.
  destruct (if m_bufferFull f then m_buffer f
            else firstn (Z.to_nat (m_index f)) (m_buffer f)) as [|b bs] eqn:E.
  - apply Permutation_nil in Hv.
    apply (f_equal (@length T)) in Hv. unfold window in Hv.
    rewrite lastn_length in Hv.
    unfold modulus in Hw.
    destruct xs; [congruence | cbn [length] in Hv; lia].
  - exists (sort (b :: bs)).
    split; [rewrite med_sort_perm; exact Hv|].
    split; [|reflexivity].
    apply Sorted_StronglySorted; [exact med_le_trans|].
    apply med_sort_sorted.
    rewrite Forall_forall in *. intros y Hy. apply Hnum.
    eapply Permutation_in; [exact Hv | exact Hy].
Qed.

End Window.

End Over.

End TemplateMedianFacts.

Module MedianClaims.

Import PrimFloat.
Import U32 Vec Scalar ScalarFacts.
Import Template.MedianFilter TemplateMedianFacts.




End MedianClaims.

(* ================================================================== *)
(** * RealTimeProcessor *)
(* ================================================================== *)

Module ChainFacts.

Import U32 Core Vec VecFacts RealTimeProcessor.
Export ChainDefs.
Local Open Scope Z_scope.

(** No filter changes its order when it processes a sample or is reset. *)
Lemma process_order f x : Filter.getOrder (fst (Filter.process f x)) = Filter.getOrder f.
Proof.
  destruct f as [g|g|g|g|g]; reflexivity.
Qed.

Lemma reset_order f : Filter.getOrder (Filter.reset f) = Filter.getOrder f.
Proof. destruct f; reflexivity. Qed.

Lemma reset_idempotent f : Filter.reset (Filter.reset f) = Filter.reset f.
Proof.
  destruct f as [g|g|g|g|g]; cbn; try reflexivity;
    unfold MovingAverageFilter.reset, MedianFilter.reset; cbn;
    rewrite map_map; reflexivity.
Qed.

Lemma order_at_orders st h : order_at st h = nth h (orders st) 0.
Proof.
  unfold order_at, deref, orders. revert h.
  induction st as [|f st IH]; intros [|h]; simpl; auto.
Qed.

Lemma order_sum_orders st st' p :
  orders st = orders st' -> order_sum st p = order_sum st' p.
Proof.
  intros E. unfold order_sum. f_equal. apply map_ext. intros h.
  change (order_at st h = order_at st' h).
  now rewrite !order_at_orders, E.
Qed.

Lemma orders_upd st h f f' :
  deref st h = Some f -> Filter.getOrder f' = Filter.getOrder f ->
  orders (upd st h f') = orders st.
Proof.
  unfold deref, orders. revert h.
  induction st as [|g st IH]; intros [|h] Hd Ho; simpl in *; try discriminate.
  - injection Hd as ->. now rewrite Ho.
  - f_equal. now apply IH.
Qed.

Lemma deref_upd_same st h f f' :
  deref st h = Some f -> deref (upd st h f') h = Some f'.
Proof.
  unfold deref. revert h.
  induction st as [|g st IH]; intros [|h] Hd; simpl in *; try discriminate; auto.
Qed.

Lemma deref_upd_other st h h' f' :
  h <> h' -> deref (upd st h f') h' = deref st h'.
Proof.
  unfold deref. revert h h'.
  induction st as [|g st IH]; intros [|h] [|h'] Hne; simpl; auto.
  congruence.
Qed.

Lemma process_at_orders st h x : orders (fst (process_at st h x)) = orders st.
Proof.
  unfold process_at. destruct (deref st h) as [f|] eqn:E; [|reflexivity].
  pose proof (process_order f x) as Ho.
  destruct (Filter.process f x) as [f' y]. simpl in *.
  now apply (orders_upd st h f).
Qed.

Lemma processSample_orders st p x :
  orders (fst (processSample st p x)) = orders st.
Proof.
  unfold processSample. generalize (m_filters p) as hs. intros hs.
  revert st x. induction hs as [|h hs IH]; intros st x; simpl; [reflexivity|].
  pose proof (process_at_orders st h x) as E.
  destruct (process_at st h x) as [st1 y]. simpl in E.
  now rewrite IH.
Qed.

Lemma processBuffer_orders st p xs :
  orders (fst (processBuffer st p xs)) = orders st.
Proof.
  unfold processBuffer. revert st.
  induction xs as [|x xs IH]; intros st; simpl; [reflexivity|].
  pose proof (processSample_orders st p x) as E.
  destruct (processSample st p x) as [st1 y].
  specialize (IH st1).
  destruct (process_all _ st1 xs) as [st2 ys]. simpl in *. congruence.
Qed.

Lemma reset_at_orders st h : orders (reset_at st h) = orders st.
Proof.
  unfold reset_at. destruct (deref st h) as [f|] eqn:E; [|reflexivity].
  apply (orders_upd st h f); [exact E | apply reset_order].
Qed.

Lemma reset_orders st p : orders (reset st p) = orders st.
Proof.
  unfold reset. generalize (m_filters p) as hs. intros hs. revert st.
  induction hs as [|h hs IH]; intros st; simpl; [reflexivity|].
  now rewrite IH, reset_at_orders.
Qed.

(** What [reset] leaves in the store. *)
Lemma reset_fold_deref hs st h f :
  deref st h = Some f ->
  deref (fold_left reset_at hs st) h
  = Some (if in_dec Nat.eq_dec h hs then Filter.reset f else f).
Proof.
  revert st f. induction hs as [|a hs IH]; intros st f Hd; [exact Hd|].
  cbn [fold_left].
  destruct (Nat.eq_dec a h) as [-> | Hne].
  - assert (Hd' : deref (reset_at st h) h = Some (Filter.reset f)).
    { unfold reset_at. rewrite Hd. now apply deref_upd_same with (f := f). }
    rewrite (IH _ _ Hd'), reset_idempotent.
    destruct (in_dec Nat.eq_dec h (h :: hs)) as [_ | Hn];
      [destruct (in_dec Nat.eq_dec h hs); reflexivity|].
    exfalso. apply Hn. now left.
  - assert (Hd' : deref (reset_at st a) h = Some f).
    { unfold reset_at. destruct (deref st a); [|exact Hd].
      now rewrite deref_upd_other. }
    rewrite (IH _ _ Hd').
    destruct (in_dec Nat.eq_dec h hs) as [Hi | Hi];
      destruct (in_dec Nat.eq_dec h (a :: hs)) as [Hj | Hj];
      try reflexivity; exfalso.
    + apply Hj. now right.
    + destruct Hj as [Hj | Hj]; [congruence | contradiction].
Qed.

Lemma reset_deref st p h f :
  deref st h = Some f ->
  deref (reset st p) h
  = Some (if in_dec Nat.eq_dec h (m_filters p) then Filter.reset f else f).
Proof. apply reset_fold_deref. Qed.

Lemma wrap_add_l a b : wrap (wrap a + b) = wrap (a + b).
Proof. unfold wrap. apply Zplus_mod_idemp_l. Qed.

Lemma order_sum_add st p h f :
  deref st h = Some f ->
  order_sum st (fst (addFilter st p h)) = order_sum st p + Filter.getOrder f.
Proof.
  intros Hd. unfold addFilter, order_sum. rewrite Hd. cbn [fst m_filters].
  rewrite map_app, fold_right_app. cbn [map fold_right]. rewrite Hd.
  generalize (map (fun h0 => match deref st h0 with
                             | Some f0 => Filter.getOrder f0
                             | None => 0
                             end) (m_filters p)) as l.
  induction l as [|a l IH]; simpl; lia.
Qed.

Lemma latency_ok_exec w c : latency_ok w -> latency_ok (exec w c).
Proof.
  destruct w as [st p]. unfold latency_ok. cbn [fst snd]. intros H.
  destruct c as [h | | x | xs | ]; cbn [exec fst snd].
  - destruct (deref st h) as [f|] eqn:Hd.
    + rewrite (order_sum_add st p h f Hd).
      unfold addFilter. rewrite Hd. cbn [fst getLatency m_latency].
      unfold getLatency in H. rewrite H. apply wrap_add_l.
    + unfold addFilter. rewrite Hd. exact H.
  - reflexivity.
  - rewrite H. f_equal. apply order_sum_orders.
    symmetry. apply processSample_orders.
  - rewrite H. f_equal. apply order_sum_orders.
    symmetry. apply processBuffer_orders.
  - rewrite H. f_equal. apply order_sum_orders.
    symmetry. apply reset_orders.
Qed.

Lemma latency_ok_run cs w : latency_ok w -> latency_ok (run w cs).
Proof.
  unfold run. revert w.
  induction cs as [|c cs IH]; intros w H; simpl; [exact H|].
  apply IH, latency_ok_exec, H.
Qed.

Lemma latency_ok_make st bufferSize sampleRate :
  latency_ok (st, make bufferSize sampleRate).
Proof. reflexivity. Qed.

End ChainFacts.

Module ChainClaims.

Import U32 Core RealTimeProcessor ChainFacts.
Local Open Scope Z_scope.

(** C8, the claim as stated fails: after adding two filters of order
    [2^31] the tracked latency has wrapped to 0, while the orders in the
    chain sum to [2^32]. *)
Lemma latency_sum_counterexample :
  ~ latency_as_specified big_filters [AddFilter 0%nat; AddFilter 1%nat].
Proof.
  unfold latency_as_specified, big_filters.
  cbv [run fold_left exec addFilter deref nth_error fst snd make
       m_filters m_latency m_bufferSize m_sampleRate app getLatency
       order_sum map fold_right Filter.getOrder LowPassFilter.getOrder
       LowPassFilter.make LowPassFilter.m_order].
  intros H. vm_compute in H. discriminate H.
Qed.

(** C8, amended. In every state reached from a fresh processor by any
    sequence of [addFilter], [clearFilters], [processSample],
    [processBuffer] and [reset] calls, [getLatency()] equals the sum of
    [getOrder()] over the filters currently in the chain reduced modulo
    [2^32], hence the sum itself whenever that fits a [uint32_t];
    [addFilter] with a non-null filter appends it and adds its order to the
    tracked latency (modulo [2^32]), [addFilter] with a null filter changes
    nothing and reports [InvalidArgument], and [reset] resets every member
    filter and no other, leaving chain membership and latency as they
    were. *)
Theorem latency_invariant
        (st0 : store) (bufferSize : Z) (sampleRate : R) (cs : list call) :
  let '(st, p) := run (st0, make bufferSize sampleRate) cs in
  getLatency p = (order_sum st p) mod 2 ^ 32 /\
  (0 <= order_sum st p < 2 ^ 32 -> getLatency p = order_sum st p) /\
  (forall h f, deref st h = Some f ->
     let '(p', r) := addFilter st p h in
     r = Ok tt /\
     m_filters p' = m_filters p ++ [h] /\
     getLatency p' = (getLatency p + Filter.getOrder f) mod 2 ^ 32) /\
  (forall h, deref st h = None -> addFilter st p h = (p, Err InvalidArgument)) /\
  (let '(st', p') := exec (st, p) Reset in
   p' = p /\
   forall h f, deref st h = Some f ->
     deref st' h = Some (if in_dec Nat.eq_dec h (m_filters p)
                         then Filter.reset f else f)).
Proof.
  pose proof (latency_ok_run cs _ (latency_ok_make st0 bufferSize sampleRate))
    as Hok.
  destruct (run (st0, make bufferSize sampleRate) cs) as [st p].
  unfold latency_ok in Hok. cbn [fst snd] in Hok.
  split; [exact Hok|].
  split.
  { intros Hr. rewrite Hok. apply Z.mod_small. exact Hr. }
  split.
  { intros h f Hd. unfold addFilter. rewrite Hd. auto. }
  split.
  { intros h Hd. unfold addFilter. now rewrite Hd. }
  cbn [exec]. split; [reflexivity|].
  intros h f Hd. now apply reset_deref.
Qed.

(** A moving-average filter of window 3 and a median filter of window 5,
    the first one added to the chain twice. *)
Lemma latency_invariant_witness :
  let w := run ([Filter.MovingAverage (MovingAverageFilter.make 3);
                 Filter.Median (MedianFilter.make 5)], make 64 1000%R)
               [AddFilter 0%nat; AddFilter 1%nat; ProcessSample 2%R;
                AddFilter 0%nat; Reset] in
  getLatency (snd w) = (order_sum (fst w) (snd w)) mod 2 ^ 32.
Proof.
  exact (proj1 (latency_invariant
                  [Filter.MovingAverage (MovingAverageFilter.make 3);
                   Filter.Median (MedianFilter.make 5)] 64 1000%R
                  [AddFilter 0%nat; AddFilter 1%nat; ProcessSample 2%R;
                   AddFilter 0%nat; Reset])).
Defined.

End ChainClaims.

(* ================================================================== *)
(** * Loops on 32-bit counters *)
(* ================================================================== *)

Module LoopFacts.

Import U32 Core Loop.
Export LoopDefs.
Local Open Scope Z_scope.

(** A loop that leaves after [length ks] iterations returns within any
    larger budget. *)
Lemma for_u32_visits {S} (cond : Z -> bool) next (body : Z -> S -> option S) ks :
  forall fuel i s,
    visits cond next i ks -> (length ks < fuel)%nat ->
    for_u32 fuel cond next body i s = iterate body ks s.
Proof.
  induction ks as [|x rest IH]; intros fuel i s Hv Hf;
    (destruct fuel as [|fuel]; [simpl in Hf; lia|]); simpl in *.
  - now rewrite Hv.
  - destruct Hv as (-> & Hc & Hv). rewrite Hc.
    destruct (body i s) as [s'|]; [|reflexivity].
    apply IH; [exact Hv | lia].
Qed.

(** A loop whose counter is stuck on a value that satisfies the condition
    never leaves, whatever the budget. *)
Lemma for_u32_stuck {S} (cond : Z -> bool) next (body : Z -> S -> option S) :
  forall fuel i s,
    cond i = true -> next i = i -> for_u32 fuel cond next body i s = None.
Proof.
  induction fuel as [|fuel IH]; intros i s Hc Hn; simpl; [reflexivity|].
  rewrite Hc. destruct (body i s) as [s'|]; [|reflexivity].
  rewrite Hn. now apply IH.
Qed.

Lemma iterate_app {S} (body : Z -> S -> option S) a b s :
  iterate body (a ++ b) s =
  match iterate body a s with
  | Some s' => iterate body b s'
  | None => None
  end.
Proof.
  revert s. induction a as [|i a IH]; intros s; simpl; [reflexivity|].
  destruct (body i s); [apply IH | reflexivity].
Qed.

Lemma iterate_total {S} (f : Z -> S -> S) ks s :
  iterate (fun i s => Some (f i s)) ks s
  = Some (fold_left (fun s i => f i s) ks s).
Proof.
  revert s. induction ks as [|i ks IH]; intros s; simpl; [reflexivity|].
  apply IH.
Qed.

Lemma progression_S a step m :
  progression a step (S m) = a :: progression (a + step) step m.
Proof.
  unfold progression. simpl. rewrite <- seq_shift, map_map.
  f_equal; [lia|]. apply map_ext. intros t. lia.
Qed.

Lemma visits_progression n step m :
  forall a,
    0 < step -> 0 <= a ->
    a + Z.of_nat m * step < modulus ->
    n <= a + Z.of_nat m * step ->
    (forall t, (t < m)%nat -> a + Z.of_nat t * step < n) ->
    visits (fun i => i <? n) (fun i => wrap (i + step)) a (progression a step m).
Proof.
  induction m as [|m IH]; intros a Hs Ha Hmax Hend Hin.
  - simpl. apply Z.ltb_ge. lia.
  - rewrite progression_S. simpl.
    split; [reflexivity|]. split.
    + apply Z.ltb_lt. specialize (Hin 0%nat ltac:(lia)). lia.
    + assert (Hw : wrap (a + step) = a + step).
      { unfold wrap. apply Z.mod_small. nia. }
      rewrite Hw. apply IH; try lia.
      intros t Ht. specialize (Hin (S t) ltac:(lia)). lia.
Qed.

End LoopFacts.

(* ================================================================== *)
(** * SpectralAnalysis::findPeakFrequency *)
(* ================================================================== *)

Module TemplateSpectralFacts.

Import U32 Core Loop LoopFacts Scalar ScalarFacts.
Import Template.SpectralAnalysis.
Export TemplateSpectralDefs.

Section Over.

Context {T : Type} {O : ops T} {L : order O}.
Variable Cabs : T * T -> T.

Lemma spectrum_fold_snoc {A B} (g : A -> B) (ks : list A) (acc : list B) :
  fold_left (fun frequencies i => frequencies ++ [g i]) ks acc
  = acc ++ map g ks.
Proof.
  revert acc. induction ks as [|k ks IH]; intros acc; simpl.
  - now rewrite app_nil_r.
  - now rewrite IH, <- app_assoc.
Qed.

Lemma getFrequencyBins_spec fuel (r : FFTResult T) :
  (Z.of_nat (length (data r)) < modulus)%Z ->
  (length (data r) < fuel)%nat ->
  getFrequencyBins fuel r
  = Some (map (bin_frequency r) (seq 0 (length (data r)))).
Proof.
  intros Hlen Hfuel. unfold getFrequencyBins.
  rewrite for_u32_visits with (ks := progression 0 1 (length (data r))).
  - rewrite iterate_total, spectrum_fold_snoc. simpl. f_equal.
    unfold progression. rewrite map_map. apply map_ext. intros t.
    unfold bin_frequency.
    replace (0 + Z.of_nat t * 1)%Z with (Z.of_nat t) by lia. reflexivity.
  - apply visits_progression; lia.
  - unfold progression. rewrite length_map, length_seq. exact Hfuel.
Qed.

Lemma spectrum_combine (f : nat -> T) (d : list (T * T)) (a : nat) :
  combine (map f (seq a (length d))) (map Cabs d)
  = map (fun i => (f i, Cabs (nth (i - a) d (of_Z 0, of_Z 0))))
        (seq a (length d)).
Proof.
  revert a. induction d as [|x d IH]; intros a; simpl; [reflexivity|].
  rewrite Nat.sub_diag. f_equal.
  rewrite IH. apply map_ext_in. intros i Hi. apply in_seq in Hi.
  replace (i - a)%nat with (S (i - S a)) by lia. reflexivity.
Qed.

(** The state of the scan after the bins [bs]: either no bin in the band
    had a magnitude above zero, or the state is a bin in the band that no
    bin in the band exceeds in magnitude, and the first such one. *)
Lemma spectrum_scan lo hi (bs : list (T * T)) :
  let peak := fold_left (scan_bin lo hi) bs (of_Z 0, of_Z 0) in
  (peak = (of_Z 0, of_Z 0) /\
   forall b, In b bs -> in_band lo hi (fst b) -> ltb (of_Z 0) (snd b) = false)
  \/
  (ltb (of_Z 0) (snd peak) = true /\
   exists i, nth_error bs i = Some peak /\ in_band lo hi (fst peak) /\
     (forall b, In b bs -> in_band lo hi (fst b) ->
                ltb (snd peak) (snd b) = false) /\
     (forall j b, (j < i)%nat -> nth_error bs j = Some b ->
                  in_band lo hi (fst b) -> number (snd b) ->
                  ltb (snd b) (snd peak) = true)).
Proof.
  induction bs as [|[f m] bs IH] using rev_ind; intros peak.
  - left. split; [reflexivity | intros b []].
  - unfold peak. rewrite fold_left_app. simpl fold_left.
    cbv zeta in IH.
    set (old := fold_left (scan_bin lo hi) bs (of_Z 0, of_Z 0)) in *.
    unfold scan_bin.
    destruct (leb lo f && leb f hi) eqn:Eband;
      [destruct (ltb (snd old) m) eqn:Egt|].
    + (* the new bin becomes the peak *)
      apply andb_prop in Eband.
      assert (Hpos : ltb (of_Z 0) m = true).
      { destruct IH as [[E _] | [H0 _]].
        - rewrite E in Egt. exact Egt.
        - now apply (ltb_trans _ (snd old)). }
      right. cbn [fst snd]. split; [exact Hpos|].
      exists (length bs). split; [|split; [|split]].
      * rewrite nth_error_app2, Nat.sub_diag by lia. reflexivity.
      * exact Eband.
      * intros b Hb Hband. apply in_app_or in Hb.
        destruct Hb as [Hb | [<- | []]]; [|apply ltb_irrefl].
        destruct (ltb m (snd b)) eqn:E; [exfalso | reflexivity].
        destruct IH as [[_ Hz] | [_ (i & _ & _ & Hmax & _)]].
        -- specialize (Hz b Hb Hband).
           rewrite (ltb_trans _ _ _ Hpos E) in Hz. discriminate.
        -- specialize (Hmax b Hb Hband).
           rewrite (ltb_trans _ _ _ Egt E) in Hmax. discriminate.
      * intros j b Hj Hnth Hband Hnum.
        rewrite nth_error_app1 in Hnth by lia.
        apply nth_error_In in Hnth.
        apply (leb_ltb_trans _ (snd old)); [|exact Egt].
        apply not_ltb_leb; [apply (ltb_number _ _ Egt) | exact Hnum |].
        destruct IH as [[E Hz] | [_ (i & _ & _ & Hmax & _)]].
        -- rewrite E. now apply Hz.
        -- now apply Hmax.
    + (* in the band, not above the peak *)
      apply andb_prop in Eband.
      destruct IH as [[E Hz] | [H0 (i & Hnth & Hband & Hmax & Hfirst)]].
      * left. split; [exact E|].
        intros b Hb Hb'. apply in_app_or in Hb.
        destruct Hb as [Hb | [<- | []]]; [now apply Hz|].
        rewrite E in Egt. exact Egt.
      * right. split; [exact H0|]. exists i.
        assert (Hi : (i < length bs)%nat)
          by (apply nth_error_Some; congruence).
        split; [|split; [|split]].
        -- rewrite nth_error_app1 by lia. exact Hnth.
        -- exact Hband.
        -- intros b Hb Hb'. apply in_app_or in Hb.
           destruct Hb as [Hb | [<- | []]]; [now apply Hmax | exact Egt].
        -- intros j b Hj Hjn Hb'. apply (Hfirst j b Hj); [|exact Hb'].
           rewrite nth_error_app1 in Hjn by lia. exact Hjn.
    + (* outside the band *)
      assert (Hout : ~ in_band lo hi f).
      { intros [H1 H2]. rewrite H1, H2 in Eband. discriminate. }
      destruct IH as [[E Hz] | [H0 (i & Hnth & Hband & Hmax & Hfirst)]].
      * left. split; [exact E|].
        intros b Hb Hb'. apply in_app_or in Hb.
        destruct Hb as [Hb | [<- | []]]; [now apply Hz|].
        now exfalso.
      * right. split; [exact H0|]. exists i.
        assert (Hi : (i < length bs)%nat)
          by (apply nth_error_Some; congruence).
        split; [|split; [|split]].
        -- rewrite nth_error_app1 by lia. exact Hnth.
        -- exact Hband.
        -- intros b Hb Hb'. apply in_app_or in Hb.
           destruct Hb as [Hb | [<- | []]]; [now apply Hmax|].
           now exfalso.
        -- intros j b Hj Hjn Hb'. apply (Hfirst j b Hj); [|exact Hb'].
           rewrite nth_error_app1 in Hjn by lia. exact Hjn.
Qed.

Lemma spectrum_bins_nth (r : FFTResult T) i :
  (i < length (data r))%nat ->
  nth_error (bins Cabs r) i
  = Some (bin_frequency r i, bin_magnitude Cabs r i).
Proof.
  intros Hi. unfold bins.
  rewrite nth_error_map, nth_error_nth' with (d := 0%nat)
    by (rewrite length_seq; exact Hi).
  rewrite seq_nth by exact Hi. reflexivity.
Qed.

Lemma spectrum_bins_length (r : FFTResult T) :
  length (bins Cabs r) = length (data r).
Proof. unfold bins. now rewrite length_map, length_seq. Qed.

(** [findPeakFrequency] in terms of the scan over [bins]. *)
Lemma spectrum_findPeakFrequency fuel (r : FFTResult T) lo hi :
  data r <> [] ->
  (Z.of_nat (length (data r)) < modulus)%Z ->
  (length (data r) < fuel)%nat ->
  findPeakFrequency Cabs fuel r lo hi =
  let hi' := if ltb hi (of_Z 0) then div (sampleRate r) (of_Z 2) else hi in
  let peak := fold_left (scan_bin lo hi') (bins Cabs r) (of_Z 0, of_Z 0) in
  if eqb (snd peak) (of_Z 0) then Some (Err DataError)
  else Some (Ok (fst peak)).
Proof.
  intros Hne Hlen Hfuel. unfold findPeakFrequency.
  destruct (data r) as [|z d] eqn:E; [congruence|].
  rewrite <- E in Hlen, Hfuel. clear E Hne.
  rewrite getFrequencyBins_spec by assumption. cbn [bind].
  unfold getMagnitude. rewrite spectrum_combine.
  replace (map (fun i => (bin_frequency r i,
                          Cabs (nth (i - 0) (data r) (of_Z 0, of_Z 0))))
               (seq 0 (length (data r)))) with (bins Cabs r).
  - cbv zeta.
    destruct (fold_left _ (bins Cabs r) (of_Z 0, of_Z 0)) as [pf pm].
    reflexivity.
  - unfold bins. apply map_ext. intros i. now rewrite Nat.sub_0_r.
Qed.

End Over.

End TemplateSpectralFacts.

Module SpectralClaims.

Import PrimFloat.
Import U32 Core Scalar ScalarFacts.
Import Template.SpectralAnalysis TemplateSpectralFacts.



End SpectralClaims.

(* ================================================================== *)
(** * Complex arithmetic *)
(* ================================================================== *)

Module CplxFacts.

Import Cplx.
Export CplxDefs.
Local Open Scope R_scope.

Lemma C_eq (a b : C) : re a = re b -> im a = im b -> a = b.
Proof. destruct a, b; simpl; intros -> ->; reflexivity. Qed.

Ltac csolve :=
  intros; apply C_eq; unfold Cadd, Csub, Cmul, Cscale, Copp, C0, C1, re, im;
  simpl; ring.

Lemma C_ring : ring_theory C0 C1 Cadd Cmul Csub Copp (@eq C).
Proof. constructor; csolve. Qed.

Add Ring Cring : C_ring.

Lemma Cpow_add z a b : Cpow z (a + b) = Cmul (Cpow z a) (Cpow z b).
Proof.
  induction b as [|b IH].
  - rewrite Nat.add_0_r. simpl. ring.
  - rewrite Nat.add_succ_r. simpl. rewrite IH. ring.
Qed.

Lemma Cpow_mul z a b : Cpow z (a * b) = Cpow (Cpow z a) b.
Proof.
  induction b as [|b IH].
  - rewrite Nat.mul_0_r. reflexivity.
  - rewrite Nat.mul_succ_r, Cpow_add, IH. reflexivity.
Qed.

Lemma Cpow_1_l n : Cpow C1 n = C1.
Proof. induction n as [|n IH]; simpl; [reflexivity | rewrite IH; ring]. Qed.

Lemma cis_0 : cis 0 = C1.
Proof. unfold cis, C1. now rewrite cos_0, sin_0. Qed.

Lemma cis_add a b : cis (a + b) = Cmul (cis a) (cis b).
Proof.
  unfold cis. apply C_eq; unfold Cmul, re, im; simpl.
  - apply cos_plus.
  - rewrite sin_plus. ring.
Qed.

(** De Moivre's formula. *)
Lemma cis_pow t n : Cpow (cis t) n = cis (INR n * t).
Proof.
  induction n as [|n IH].
  - simpl. now rewrite Rmult_0_l, cis_0.
  - simpl Cpow. rewrite IH, <- cis_add. f_equal. rewrite S_INR. ring.
Qed.

Lemma cis_PI : cis PI = Copp C1.
Proof.
  unfold cis, Copp, C1, re, im. simpl. rewrite cos_PI, sin_PI. f_equal; ring.
Qed.

Lemma cis_neg_PI : cis (- PI) = Copp C1.
Proof.
  unfold cis, Copp, C1, re, im. simpl.
  rewrite cos_neg, sin_neg, cos_PI, sin_PI. f_equal; ring.
Qed.

Lemma Csum_ext n f g :
  (forall i, (i < n)%nat -> f i = g i) -> Csum n f = Csum n g.
Proof.
  induction n as [|n IH]; intros H; simpl; [reflexivity|].
  rewrite IH by (intros; apply H; lia).
  rewrite (H n) by lia. reflexivity.
Qed.

Lemma Csum_mul_r n c f :
  Csum n (fun i => Cmul (f i) c) = Cmul (Csum n f) c.
Proof. induction n as [|n IH]; simpl; [ring | rewrite IH; ring]. Qed.

(** A sum over [2 n] indices, split by parity. *)
Lemma Csum_even_odd n f :
  Csum (2 * n) f
  = Cadd (Csum n (fun q => f (2 * q)%nat)) (Csum n (fun q => f (2 * q + 1)%nat)).
Proof.
  induction n as [|n IH]; [simpl; ring|].
  replace (2 * S n)%nat with (S (S (2 * n))) by lia.
  cbn [Csum]. rewrite IH.
  replace (S (2 * n)) with (2 * n + 1)%nat by lia. ring.
Qed.

End CplxFacts.

(* ================================================================== *)
(** * The discrete Fourier transform *)
(* ================================================================== *)

Module DftFacts.

Import Cplx CplxFacts.
Export DftDefs.
Local Open Scope R_scope.

Lemma root_pow sgn n m :
  (0 < n)%nat -> Cpow (root sgn n) m = cis (sgn * (2 * PI) * INR m / INR n).
Proof.
  intros Hn. unfold root. rewrite cis_pow. f_equal. field.
  apply not_0_INR. lia.
Qed.

(** Squaring the root of order [2 n] gives the root of order [n], and its
    [n]-th power is [-1]. *)
Lemma root_double sgn n :
  (0 < n)%nat -> Cpow (root sgn (2 * n)) 2 = root sgn n.
Proof.
  intros Hn. rewrite root_pow by lia. unfold root. f_equal.
  rewrite mult_INR. simpl INR. field. apply not_0_INR. lia.
Qed.

Lemma root_half sgn n :
  (0 < n)%nat -> sgn = 1 \/ sgn = -1 -> Cpow (root sgn (2 * n)) n = Copp C1.
Proof.
  intros Hn Hs. rewrite root_pow by lia.
  replace (sgn * (2 * PI) * INR n / INR (2 * n)) with (sgn * PI).
  - destruct Hs as [-> | ->].
    + rewrite Rmult_1_l. apply cis_PI.
    + replace (-1 * PI) with (- PI) by ring. apply cis_neg_PI.
  - rewrite mult_INR. simpl INR. field. apply not_0_INR. lia.
Qed.

Lemma rev_lt k p : (rev k p < 2 ^ k)%nat.
Proof.
  revert p. induction k as [|k IH]; intros p; [simpl; lia|].
  change (rev (S k) p) with ((p mod 2) * 2 ^ k + rev k (p / 2))%nat.
  rewrite Nat.pow_succ_r'.
  specialize (IH (p / 2)%nat).
  pose proof (Nat.mod_upper_bound p 2 ltac:(lia)). nia.
Qed.

Lemma rev_even k b : rev (S k) (2 * b) = rev k b.
Proof.
  change (rev (S k) (2 * b))
    with (((2 * b) mod 2) * 2 ^ k + rev k ((2 * b) / 2))%nat.
  rewrite (Nat.mul_comm 2 b), Nat.Div0.mod_mul, Nat.div_mul by lia.
  lia.
Qed.

Lemma rev_odd k b : rev (S k) (2 * b + 1) = (2 ^ k + rev k b)%nat.
Proof.
  change (rev (S k) (2 * b + 1))
    with (((2 * b + 1) mod 2) * 2 ^ k + rev k ((2 * b + 1) / 2))%nat.
  replace ((2 * b + 1) mod 2)%nat with 1%nat.
  - replace ((2 * b + 1) / 2)%nat with b; [lia|].
    apply Nat.div_unique with (r := 1%nat); lia.
  - apply Nat.mod_unique with (q := b); lia.
Qed.

(** Peeling the top bit instead of the bottom one. *)
Lemma rev_top k p :
  (p < 2 ^ S k)%nat ->
  rev (S k) p = (2 * rev k (p mod 2 ^ k) + p / 2 ^ k)%nat.
Proof.
  revert p. induction k as [|k IH]; intros p Hp.
  - assert (p = 0 \/ p = 1)%nat as [-> | ->] by (simpl in Hp; lia);
      reflexivity.
  - change (rev (S (S k)) p)
      with ((p mod 2) * 2 ^ S k + rev (S k) (p / 2))%nat.
    assert (Hp2 : (p / 2 < 2 ^ S k)%nat).
    { apply Nat.Div0.div_lt_upper_bound. simpl in *. lia. }
    rewrite (IH _ Hp2).
    change (rev (S k) (p mod 2 ^ S k))
      with (((p mod 2 ^ S k) mod 2) * 2 ^ k + rev k ((p mod 2 ^ S k) / 2))%nat.
    assert (E1 : ((p mod 2 ^ S k) mod 2 = p mod 2)%nat).
    { change (2 ^ S k)%nat with (2 * 2 ^ k)%nat.
      rewrite Nat.Div0.mod_mul_r.
      rewrite (Nat.mul_comm 2), Nat.Div0.mod_add.
      apply Nat.Div0.mod_mod. }
    assert (E2 : ((p mod 2 ^ S k) / 2 = (p / 2) mod 2 ^ k)%nat).
    { change (2 ^ S k)%nat with (2 * 2 ^ k)%nat.
      rewrite Nat.Div0.mod_mul_r.
      rewrite (Nat.mul_comm 2), Nat.div_add by lia.
      rewrite Nat.div_small by (apply Nat.mod_upper_bound; lia). lia. }
    assert (E3 : (p / 2 / 2 ^ k = p / 2 ^ S k)%nat).
    { rewrite Nat.Div0.div_div. reflexivity. }
    rewrite E1, E2, E3. simpl Nat.pow. lia.
Qed.

Lemma rev_involutive k p : (p < 2 ^ k)%nat -> rev k (rev k p) = p.
Proof.
  revert p. induction k as [|k IH]; intros p Hp; [simpl in *; lia|].
  rewrite (rev_top k p Hp).
  assert (Hd : (p / 2 ^ k < 2)%nat).
  { apply Nat.Div0.div_lt_upper_bound. simpl in Hp. lia. }
  assert (Hm : (p mod 2 ^ k < 2 ^ k)%nat).
  { apply Nat.mod_upper_bound. apply Nat.pow_nonzero. lia. }
  change (rev (S k) ?q) with ((q mod 2) * 2 ^ k + rev k (q / 2))%nat.
  replace ((2 * rev k (p mod 2 ^ k) + p / 2 ^ k) mod 2)%nat with (p / 2 ^ k)%nat.
  - replace ((2 * rev k (p mod 2 ^ k) + p / 2 ^ k) / 2)%nat
      with (rev k (p mod 2 ^ k)).
    + rewrite IH by exact Hm.
      rewrite (Nat.div_mod_eq p (2 ^ k)) at 3. lia.
    + apply Nat.div_unique with (r := (p / 2 ^ k)%nat); lia.
  - apply Nat.mod_unique with (q := rev k (p mod 2 ^ k)); lia.
Qed.

Lemma block_dft_0 sgn k x a :
  (forall p, (p < 2 ^ k)%nat -> a p = x (rev k p)) -> block_dft sgn k 0 x a.
Proof.
  intros H b p Hb Hp. rewrite Nat.sub_0_r in *.
  assert (p = 0)%nat as -> by (simpl in Hp; lia).
  rewrite Nat.pow_0_r, Nat.mul_1_r, Nat.add_0_r, (H b Hb).
  unfold dft. simpl. rewrite Nat.add_0_r. ring.
Qed.

Lemma Cpow_opp_even q : Cpow (Copp C1) (2 * q) = C1.
Proof.
  rewrite Cpow_mul. replace (Cpow (Copp C1) 2) with C1 by (simpl; ring).
  apply Cpow_1_l.
Qed.

Lemma Cpow_opp_odd q : Cpow (Copp C1) (2 * q + 1) = Copp C1.
Proof. rewrite Cpow_add, Cpow_opp_even. simpl. ring. Qed.

Lemma block_dft_step sgn k s x a :
  (s < k)%nat -> sgn = 1 \/ sgn = -1 ->
  block_dft sgn k s x a ->
  block_dft sgn k (S s) x (bfly (root sgn (2 ^ S s)) (2 ^ s) a).
Proof.
  intros Hs Hsgn Hinv b p Hb Hp. unfold block_dft in Hinv.
  set (h := (2 ^ s)%nat) in *.
  assert (Hh : (0 < h)%nat) by (apply Nat.neq_0_lt_0, Nat.pow_nonzero; lia).
  assert (Hh2 : (2 ^ S s = 2 * h)%nat) by (unfold h; apply Nat.pow_succ_r').
  set (m := (k - S s)%nat) in *.
  assert (Hm : (k - s = S m)%nat) by (unfold m; lia).
  set (wl := root sgn (2 ^ S s)).
  assert (Hw2 : Cpow wl 2 = root sgn h).
  { unfold wl. rewrite Hh2. now apply root_double. }
  assert (Hwh : Cpow wl h = Copp C1).
  { unfold wl. rewrite Hh2. now apply root_half. }
  rewrite Hh2 in Hp |- *.
  assert (Hmod : ((b * (2 * h) + p) mod (2 * h) = p)%nat).
  { rewrite Nat.add_comm, Nat.Div0.mod_add. apply Nat.mod_small. exact Hp. }
  assert (H2m : (2 ^ S m = 2 * 2 ^ m)%nat) by apply Nat.pow_succ_r'.
  assert (Hb2 : (2 * b + 1 < 2 ^ (k - s))%nat) by (rewrite Hm, H2m; lia).
  unfold bfly. rewrite Hmod.
  unfold dft at 1. rewrite Csum_even_odd.
  destruct (Nat.ltb_spec p h) as [Hlt | Hge].
  - (* upper half of the block *)
    replace (b * (2 * h) + p)%nat with ((2 * b) * h + p)%nat by lia.
    replace (2 * b * h + p + h)%nat with ((2 * b + 1) * h + p)%nat by lia.
    rewrite (Hinv (2 * b)%nat p) by (try lia; exact Hlt).
    rewrite (Hinv (2 * b + 1)%nat p) by (try lia; exact Hlt).
    rewrite Hm, rev_even, rev_odd. unfold dft.
    rewrite <- Csum_mul_r. f_equal; apply Csum_ext; intros q _.
    + replace (rev m b + 2 * q * 2 ^ m)%nat
        with (rev m b + q * 2 ^ S m)%nat by (rewrite H2m; lia).
      replace (p * (2 * q))%nat with (2 * (p * q))%nat by lia.
      rewrite (Cpow_mul wl 2), Hw2. reflexivity.
    + replace (rev m b + (2 * q + 1) * 2 ^ m)%nat
        with (2 ^ m + rev m b + q * 2 ^ S m)%nat by (rewrite H2m; lia).
      replace (p * (2 * q + 1))%nat with (2 * (p * q) + p)%nat by lia.
      rewrite Cpow_add, (Cpow_mul wl 2), Hw2. ring.
  - (* lower half of the block *)
    replace (b * (2 * h) + p - h)%nat with ((2 * b) * h + (p - h))%nat by lia.
    replace (b * (2 * h) + p)%nat with ((2 * b + 1) * h + (p - h))%nat by lia.
    rewrite (Hinv (2 * b)%nat (p - h)%nat) by lia.
    rewrite (Hinv (2 * b + 1)%nat (p - h)%nat) by lia.
    rewrite Hm, rev_even, rev_odd. unfold dft.
    replace (Csub (Csum h (fun q => Cmul (x (rev m b + q * 2 ^ S m)%nat)
                                      (Cpow (root sgn h) ((p - h) * q))))
                  (Cmul (Csum h (fun q =>
                           Cmul (x (2 ^ m + rev m b + q * 2 ^ S m)%nat)
                                (Cpow (root sgn h) ((p - h) * q))))
                        (Cpow wl (p - h))))
      with (Cadd (Csum h (fun q => Cmul (x (rev m b + q * 2 ^ S m)%nat)
                                      (Cpow (root sgn h) ((p - h) * q))))
                 (Cmul (Csum h (fun q =>
                           Cmul (x (2 ^ m + rev m b + q * 2 ^ S m)%nat)
                                (Cpow (root sgn h) ((p - h) * q))))
                       (Copp (Cpow wl (p - h))))) by ring.
    rewrite <- Csum_mul_r. f_equal; apply Csum_ext; intros q _.
    + replace (rev m b + 2 * q * 2 ^ m)%nat
        with (rev m b + q * 2 ^ S m)%nat by (rewrite H2m; lia).
      replace (p * (2 * q))%nat with (h * (2 * q) + 2 * ((p - h) * q))%nat by nia.
      rewrite Cpow_add, (Cpow_mul wl h), (Cpow_mul wl 2), Hwh, Hw2,
        Cpow_opp_even. ring.
    + replace (rev m b + (2 * q + 1) * 2 ^ m)%nat
        with (2 ^ m + rev m b + q * 2 ^ S m)%nat by (rewrite H2m; lia).
      replace (p * (2 * q + 1))%nat
        with (h * (2 * q + 1) + (2 * ((p - h) * q) + (p - h)))%nat by nia.
      rewrite !Cpow_add, (Cpow_mul wl h), (Cpow_mul wl 2), Hwh, Hw2,
        Cpow_opp_odd. ring.
Qed.

Lemma iter_stages_block_dft sgn k s x a :
  (s <= k)%nat -> sgn = 1 \/ sgn = -1 ->
  (forall p, (p < 2 ^ k)%nat -> a p = x (rev k p)) ->
  block_dft sgn k s x (iter_stages sgn s a).
Proof.
  intros Hs Hsgn Ha. induction s as [|s IH].
  - now apply block_dft_0.
  - cbn [iter_stages]. apply block_dft_step; [lia | exact Hsgn |].
    apply IH. lia.
Qed.

(** Bit reversal followed by all the stages is the transform. *)
Lemma iter_stages_dft sgn k x a p :
  sgn = 1 \/ sgn = -1 ->
  (forall p, (p < 2 ^ k)%nat -> a p = x (rev k p)) ->
  (p < 2 ^ k)%nat ->
  iter_stages sgn k a p = dft (root sgn (2 ^ k)) (2 ^ k) x p.
Proof.
  intros Hsgn Ha Hp.
  pose proof (iter_stages_block_dft sgn k k x a (le_n k) Hsgn Ha 0%nat p) as H.
  rewrite Nat.sub_diag in H. simpl Nat.pow in H at 1.
  rewrite Nat.mul_0_l, Nat.add_0_l in H.
  rewrite H by (simpl; lia).
  unfold dft. apply Csum_ext. intros q _.
  simpl. now rewrite Nat.mul_1_r.
Qed.

End DftFacts.

(* ================================================================== *)
(** * The radix-2 transform of fft.cpp *)
(* ================================================================== *)

Module FFTFacts.

Import U32 Core Cplx CplxFacts Loop LoopFacts Pow2 Pow2Facts FFT DftFacts.
Import Vec VecFacts.
Export FFTDefs.

Lemma get_arr d (i : nat) : get d (Z.of_nat i) = arr d i.
Proof. unfold get, arr. now rewrite Nat2Z.id. Qed.

Lemma set_upd d (i : nat) x : set d (Z.of_nat i) x = upd d i x.
Proof. unfold set. now rewrite Nat2Z.id. Qed.

Lemma arr_upd d i x p :
  (i < length d)%nat -> arr (upd d i x) p = if Nat.eq_dec p i then x else arr d p.
Proof.
  intros Hi. unfold arr. destruct (Nat.eq_dec p i) as [-> | Hne].
  - now apply nth_upd_same.
  - apply nth_upd_other. congruence.
Qed.

Lemma wrap_of_nat (a : nat) :
  (Z.of_nat a < modulus)%Z -> wrap (Z.of_nat a) = Z.of_nat a.
Proof. intros H. apply wrap_small. lia. Qed.

(** One butterfly, on in-range positions. *)
Lemma butterfly_spec d (I m H : nat) w :
  (I + m + H < length d)%nat -> (Z.of_nat (length d) <= modulus)%Z ->
  butterfly d (Z.of_nat I) (Z.of_nat m) (Z.of_nat H) w
  = upd (upd d (I + m) (Cadd (arr d (I + m)) (Cmul (arr d (I + m + H)) w)))
        (I + m + H) (Csub (arr d (I + m)) (Cmul (arr d (I + m + H)) w)).
Proof.
  intros Hlt Hmod. unfold butterfly.
  rewrite <- !Nat2Z.inj_add.
  rewrite (wrap_of_nat (I + m)) by lia.
  rewrite <- Nat2Z.inj_add.
  rewrite (wrap_of_nat (I + m + H)) by lia.
  now rewrite !get_arr, !set_upd.
Qed.

Section Block.

Variables (d : list C) (I H : nat) (wlen : C).
Hypothesis Hfit : (I + 2 * H <= length d)%nat.
Hypothesis Hmod : (Z.of_nat (length d) <= modulus)%Z.

Lemma block_prefix m :
  (m <= H)%nat ->
  let r := fold_left (block_step I H wlen) (map Z.of_nat (seq 0 m)) (d, C1) in
  length (fst r) = length d /\
  snd r = Cpow wlen m /\
  forall p, arr (fst r) p = partial_block d I H wlen m p.
Proof.
  induction m as [|m IH]; intros Hm; cbv zeta.
  - simpl. split; [reflexivity|]. split; [reflexivity|].
    intros p. unfold partial_block.
    destruct (I <=? p)%nat eqn:E1, (p <? I + 0)%nat eqn:E2,
             (I + H <=? p)%nat eqn:E3, (p <? I + H + 0)%nat eqn:E4;
      simpl; try reflexivity;
      repeat match goal with
             | X : (_ <=? _)%nat = true |- _ => apply Nat.leb_le in X
             | X : (_ <? _)%nat = true |- _ => apply Nat.ltb_lt in X
             end; lia.
  - rewrite seq_S, map_app, fold_left_app. simpl map. simpl fold_left.
    specialize (IH ltac:(lia)). cbv zeta in IH.
    destruct (fold_left (block_step I H wlen) (map Z.of_nat (seq 0 m)) (d, C1))
      as [dm w].
    simpl fst in *. simpl snd in *.
    destruct IH as (Hlen & Hw & Harr).
    unfold block_step. simpl fst. simpl snd.
    rewrite butterfly_spec by lia.
    rewrite !upd_length. split; [exact Hlen|].
    split; [rewrite Hw; reflexivity|].
    intros p.
    rewrite arr_upd by (rewrite upd_length; lia).
    rewrite arr_upd by lia.
    rewrite !Harr, Hw. unfold partial_block.
    destruct (Nat.eq_dec p (I + m + H)) as [-> | Hne1].
    + replace (I <=? I + m + H)%nat with true by (symmetry; apply Nat.leb_le; lia).
      replace (I + m + H <? I + S m)%nat with false
        by (symmetry; apply Nat.ltb_ge; lia).
      replace (I + H <=? I + m + H)%nat with true
        by (symmetry; apply Nat.leb_le; lia).
      replace (I + m + H <? I + H + S m)%nat with true
        by (symmetry; apply Nat.ltb_lt; lia).
      replace (I <=? I + m)%nat with true by (symmetry; apply Nat.leb_le; lia).
      replace (I + m <? I + m)%nat with false
        by (symmetry; apply Nat.ltb_ge; lia).
      replace (I + H <=? I + m)%nat with false
        by (symmetry; apply Nat.leb_gt; lia).
      replace (I + m + H <? I + m)%nat with false
        by (symmetry; apply Nat.ltb_ge; lia).
      replace (I + m + H <? I + H + m)%nat with false
        by (symmetry; apply Nat.ltb_ge; lia).
      simpl.
      replace (I + m + H - H)%nat with (I + m)%nat by lia.
      replace (I + m + H - I - H)%nat with m by lia. reflexivity.
    + destruct (Nat.eq_dec p (I + m)) as [-> | Hne2].
      * replace (I <=? I + m)%nat with true by (symmetry; apply Nat.leb_le; lia).
        replace (I + m <? I + S m)%nat with true
          by (symmetry; apply Nat.ltb_lt; lia).
        replace (I + m <? I + m)%nat with false
          by (symmetry; apply Nat.ltb_ge; lia).
        replace (I + H <=? I + m)%nat with false
          by (symmetry; apply Nat.leb_gt; lia).
        replace (I <=? I + m + H)%nat with true
          by (symmetry; apply Nat.leb_le; lia).
        replace (I + m + H <? I + m)%nat with false
          by (symmetry; apply Nat.ltb_ge; lia).
        replace (I + H <=? I + m + H)%nat with true
          by (symmetry; apply Nat.leb_le; lia).
        replace (I + m + H <? I + H + m)%nat with false
          by (symmetry; apply Nat.ltb_ge; lia).
        simpl.
        replace (I + m - I)%nat with m by lia. reflexivity.
      * replace (p <? I + S m)%nat with (p <? I + m)%nat.
        2:{ destruct (Nat.ltb_spec p (I + m)), (Nat.ltb_spec p (I + S m));
            try reflexivity; lia. }
        replace (p <? I + H + S m)%nat with (p <? I + H + m)%nat.
        2:{ destruct (Nat.ltb_spec p (I + H + m)),
                     (Nat.ltb_spec p (I + H + S m)); try reflexivity; lia. }
        reflexivity.
Qed.

End Block.

(** A whole block: the loop on [j] of [radix2FFT]. *)
Lemma block_spec d (I H : nat) wlen :
  (I + 2 * H <= length d)%nat -> (Z.of_nat (length d) <= modulus)%Z ->
  length (block d (Z.of_nat I) (Z.of_nat (2 * H)) wlen) = length d /\
  forall p, arr (block d (Z.of_nat I) (Z.of_nat (2 * H)) wlen) p
            = partial_block d I H wlen H p.
Proof.
  intros Hfit Hmod. unfold block, zrange.
  replace (Z.of_nat (2 * H) / 2)%Z with (Z.of_nat H)
    by (rewrite Nat2Z.inj_mul, Z.mul_comm, Z.div_mul; lia).
  rewrite Nat2Z.id.
  pose proof (block_prefix d I H wlen Hfit Hmod H (le_n H)) as Hb.
  cbv zeta in Hb. destruct Hb as (Hlen & _ & Harr).
  split; [exact Hlen | exact Harr].
Qed.

(** Inside its block, [partial_block] is the butterfly stage [bfly]. *)
Lemma partial_block_bfly d b H wlen p :
  (0 < H)%nat ->
  (b * (2 * H) <= p < b * (2 * H) + 2 * H)%nat ->
  partial_block d (b * (2 * H)) H wlen H p = bfly wlen H (arr d) p.
Proof.
  intros HH Hp. unfold partial_block, bfly.
  assert (Hmod : (p mod (2 * H) = p - b * (2 * H))%nat).
  { replace p with ((p - b * (2 * H)) + b * (2 * H))%nat at 1 by lia.
    rewrite Nat.Div0.mod_add. apply Nat.mod_small. lia. }
  rewrite Hmod.
  replace (b * (2 * H) <=? p)%nat with true by (symmetry; apply Nat.leb_le; lia).
  destruct (Nat.ltb_spec p (b * (2 * H) + H)) as [Hlt | Hge].
  - replace (p - b * (2 * H) <? H)%nat with true
      by (symmetry; apply Nat.ltb_lt; lia).
    reflexivity.
  - replace (p - b * (2 * H) <? H)%nat with false
      by (symmetry; apply Nat.ltb_ge; lia).
    replace (b * (2 * H) + H <=? p)%nat with true
      by (symmetry; apply Nat.leb_le; lia).
    replace (p <? b * (2 * H) + H + H)%nat with true
      by (symmetry; apply Nat.ltb_lt; lia).
    simpl. reflexivity.
Qed.

Lemma partial_block_outside d I H wlen p :
  (p < I \/ I + 2 * H <= p)%nat -> partial_block d I H wlen H p = arr d p.
Proof.
  intros Hp. unfold partial_block.
  destruct (Nat.leb_spec I p), (Nat.ltb_spec p (I + H)),
           (Nat.leb_spec (I + H) p), (Nat.ltb_spec p (I + H + H));
    simpl; try reflexivity; lia.
Qed.

(** [bfly] only reads the block of the position it computes. *)
Lemma bfly_local wl H a a' p :
  (0 < H)%nat ->
  (forall q, (q / (2 * H) = p / (2 * H))%nat -> a q = a' q) ->
  bfly wl H a p = bfly wl H a' p.
Proof.
  intros HH Heq. unfold bfly.
  pose proof (Nat.div_mod_eq p (2 * H)) as Hdm.
  pose proof (Nat.mod_upper_bound p (2 * H) ltac:(lia)) as Hup.
  destruct (Nat.ltb_spec (p mod (2 * H)) H) as [Hlt | Hge].
  - rewrite (Heq p eq_refl), (Heq (p + H)%nat); [reflexivity|].
    symmetry. apply Nat.div_unique with (r := (p mod (2 * H) + H)%nat); lia.
  - rewrite (Heq p eq_refl), (Heq (p - H)%nat); [reflexivity|].
    symmetry. apply Nat.div_unique with (r := (p mod (2 * H) - H)%nat); lia.
Qed.

Lemma bfly_ext wl H a a' n p :
  (0 < H)%nat -> (n mod (2 * H) = 0)%nat -> (p < n)%nat ->
  (forall q, (q < n)%nat -> a q = a' q) ->
  bfly wl H a p = bfly wl H a' p.
Proof.
  intros HH Hn Hp Heq. apply bfly_local; [exact HH|].
  intros q Hq. apply Heq.
  apply Nat.Div0.mod_divides in Hn. destruct Hn as [c Hc].
  assert (Hpc : (p / (2 * H) < c)%nat).
  { apply Nat.Div0.div_lt_upper_bound. lia. }
  pose proof (Nat.div_mod_eq q (2 * H)) as Hdm.
  pose proof (Nat.mod_upper_bound q (2 * H) ltac:(lia)) as Hup.
  rewrite Hq in Hdm. nia.
Qed.

(** The blocks [0 .. m-1] of a stage, processed in order. *)
Lemma blocks_prefix d (H : nat) wlen (B : nat) :
  (0 < H)%nat -> length d = (B * (2 * H))%nat ->
  (Z.of_nat (length d) <= modulus)%Z ->
  forall m, (m <= B)%nat ->
    let r := fold_left (fun data i => block data i (Z.of_nat (2 * H)) wlen)
                       (progression 0 (Z.of_nat (2 * H)) m) d in
    length r = length d /\
    forall p, arr r p = if (p <? m * (2 * H))%nat
                        then bfly wlen H (arr d) p else arr d p.
Proof.
  intros HH Hlen Hmod m. induction m as [|m IH]; intros Hm; cbv zeta.
  - simpl. split; [reflexivity|]. intros p. reflexivity.
  - unfold progression in *. rewrite seq_S, map_app, fold_left_app.
    cbn [map fold_left Nat.add].
    specialize (IH ltac:(lia)). cbv zeta in IH.
    set (dm := fold_left _ _ d) in *.
    destruct IH as (Hl & Harr).
    replace (0 + Z.of_nat m * Z.of_nat (2 * H))%Z
      with (Z.of_nat (m * (2 * H))) by lia.
    assert (Hfit : (m * (2 * H) + 2 * H <= length dm)%nat) by nia.
    destruct (block_spec dm (m * (2 * H)) H wlen Hfit ltac:(lia))
      as (Hl' & Harr').
    split; [lia|].
    intros p. rewrite Harr'.
    destruct (Nat.ltb_spec p (S m * (2 * H))) as [Hlt | Hge].
    + destruct (Nat.ltb_spec p (m * (2 * H))) as [Hlt' | Hge'].
      * rewrite partial_block_outside by lia.
        rewrite Harr.
        replace (p <? m * (2 * H))%nat with true
          by (symmetry; apply Nat.ltb_lt; lia).
        reflexivity.
      * rewrite partial_block_bfly by lia.
        apply bfly_local; [exact HH|].
        intros q Hq. rewrite Harr.
        destruct (Nat.ltb_spec q (m * (2 * H))) as [Hq' | Hq'];
          [|reflexivity].
        (* the positions of earlier blocks are not read *)
        exfalso.
        assert (Hpm : (p / (2 * H) = m)%nat).
        { symmetry. apply Nat.div_unique with (r := (p - m * (2 * H))%nat); lia. }
        assert (Hqm : (q / (2 * H) < m)%nat).
        { apply Nat.Div0.div_lt_upper_bound. lia. }
        lia.
    + rewrite partial_block_outside by lia.
      rewrite Harr.
      replace (p <? m * (2 * H))%nat with false
        by (symmetry; apply Nat.ltb_ge; lia).
      reflexivity.
Qed.

Lemma sign_cases inverse : sign inverse = 1%R \/ sign inverse = (-1)%R.
Proof. destruct inverse; [left | right]; reflexivity. Qed.

Lemma twiddle_root inverse (n : nat) :
  twiddle inverse (Z.of_nat n) = root (sign inverse) n.
Proof.
  unfold twiddle, root, cis, sign. rewrite <- INR_IZR_INZ.
  destruct inverse; f_equal; f_equal; unfold Rdiv; ring.
Qed.

(** One stage: the loop on [i] of [radix2FFT], for the block length
    [2 H]. *)
Lemma stage_spec fuel d (H B : nat) inverse :
  (0 < H)%nat -> length d = (B * (2 * H))%nat ->
  (Z.of_nat (length d) < modulus)%Z -> (B < fuel)%nat ->
  exists r,
    stage fuel (Z.of_nat (length d)) inverse (Z.of_nat (2 * H)) d = Some r /\
    length r = length d /\
    forall p, (p < length d)%nat ->
              arr r p = bfly (root (sign inverse) (2 * H)) H (arr d) p.
Proof.
  intros HH Hlen Hmod Hfuel. unfold stage.
  rewrite for_u32_visits with (ks := progression 0 (Z.of_nat (2 * H)) B).
  - rewrite iterate_total.
    destruct (blocks_prefix d H (twiddle inverse (Z.of_nat (2 * H))) B
                            HH Hlen ltac:(lia) B (le_n B)) as (Hl & Harr).
    eexists. split; [reflexivity|]. split; [exact Hl|].
    intros p Hp. rewrite Harr, twiddle_root.
    replace (p <? B * (2 * H))%nat with true
      by (symmetry; apply Nat.ltb_lt; lia).
    reflexivity.
  - apply visits_progression; try lia.
    intros t Ht. rewrite Hlen. nia.
  - unfold progression. now rewrite length_map, length_seq.
Qed.

Lemma shiftl_pow2 (s : nat) :
  (s < 31)%nat -> wrap (Z.shiftl (Z.of_nat (2 ^ s)) 1) = Z.of_nat (2 ^ S s).
Proof.
  intros Hs. rewrite Z.shiftl_mul_pow2 by lia.
  rewrite !Nat2Z.inj_pow. change (Z.of_nat 2) with 2%Z.
  rewrite Nat2Z.inj_succ, Z.pow_succ_r by lia.
  rewrite Z.pow_1_r, Z.mul_comm. apply wrap_small.
  split; [apply Z.mul_nonneg_nonneg; [lia | apply Z.pow_nonneg; lia]|].
  unfold modulus. change (2 ^ 32)%Z with (2 * 2 ^ 31)%Z.
  apply Z.mul_lt_mono_pos_l; [lia|].
  apply Z.pow_lt_mono_r; lia.
Qed.

Lemma visits_lens (k : nat) :
  (k <= 30)%nat ->
  forall c j, (j + c = S k)%nat ->
    visits (fun len => (len <=? Z.of_nat (2 ^ k))%Z)
           (fun len => wrap (Z.shiftl len 1))
           (Z.of_nat (2 ^ j)) (lens j c).
Proof.
  intros Hk. induction c as [|c IH]; intros j Hj.
  - simpl. apply Z.leb_gt. apply inj_lt.
    apply Nat.pow_lt_mono_r; lia.
  - unfold lens. cbn [seq map visits].
    split; [reflexivity|]. split.
    + apply Z.leb_le. apply inj_le. apply Nat.pow_le_mono_r; lia.
    + rewrite shiftl_pow2 by lia. apply IH. lia.
Qed.

(** The stages [1 .. s], run by the outer loop. *)
Lemma stages_prefix fuel d (k : nat) inverse :
  length d = (2 ^ k)%nat -> (k <= 30)%nat -> (2 ^ k < fuel)%nat ->
  forall s, (s <= k)%nat ->
    exists r,
      iterate (fun len data => stage fuel (Z.of_nat (2 ^ k)) inverse len data)
              (lens 1 s) d = Some r /\
      length r = length d /\
      forall p, (p < length d)%nat ->
                arr r p = iter_stages (sign inverse) s (arr d) p.
Proof.
  intros Hlen Hk Hfuel.
  assert (Hmod : (Z.of_nat (2 ^ k) < modulus)%Z).
  { rewrite Nat2Z.inj_pow. unfold modulus. change (Z.of_nat 2) with 2%Z.
    apply Z.pow_lt_mono_r; lia. }
  induction s as [|s IH]; intros Hs.
  - exists d. simpl. auto.
  - destruct (IH ltac:(lia)) as (r & Hr & Hl & Harr).
    unfold lens in *. rewrite seq_S, map_app, iterate_app, Hr.
    cbn [map iterate Nat.add].
    assert (Hpow : (2 ^ S s = 2 * 2 ^ s)%nat) by apply Nat.pow_succ_r'.
    assert (Hsplit : (2 ^ k = 2 ^ (k - S s) * (2 * 2 ^ s))%nat).
    { rewrite <- Hpow, <- Nat.pow_add_r. f_equal. lia. }
    assert (Hpos : (0 < 2 ^ s)%nat)
      by (apply Nat.neq_0_lt_0, Nat.pow_nonzero; lia).
    assert (Hlr : length r = (2 ^ (k - S s) * (2 * 2 ^ s))%nat) by lia.
    assert (Hmr : (Z.of_nat (length r) < modulus)%Z) by (rewrite Hl, Hlen; lia).
    assert (Hfr : (2 ^ (k - S s) < fuel)%nat).
    { assert (2 ^ (k - S s) <= 2 ^ k)%nat
        by (apply Nat.pow_le_mono_r; lia). lia. }
    destruct (stage_spec fuel r (2 ^ s) (2 ^ (k - S s)) inverse
                         Hpos Hlr Hmr Hfr)
      as (r' & Hr' & Hl' & Harr').
    rewrite Hl, Hlen, <- Hpow in Hr'. rewrite Hr'.
    exists r'. split; [reflexivity|]. split; [lia|].
    intros p Hp. rewrite Harr' by lia.
    cbn [iter_stages]. rewrite <- Hpow.
    apply (bfly_ext _ _ _ _ (2 ^ k)); try lia.
    + rewrite Hsplit. apply Nat.Div0.mod_mul.
    + intros q Hq. apply Harr. lia.
Qed.

(** ** Bit reversal *)

Local Open Scope Z_scope.

Lemma land_pow2_small j m : 0 <= j < 2 ^ m -> 0 <= m -> Z.land j (2 ^ m) = 0.
Proof.
  intros Hj Hm. apply Z.bits_inj'. intros i Hi.
  rewrite Z.land_spec, Z.bits_0, Z.pow2_bits_eqb by lia.
  destruct (Z.eqb_spec m i) as [-> | Hne]; [|apply andb_false_r].
  rewrite andb_true_r.
  destruct (Z.eq_dec j 0) as [-> | Hj0]; [apply Z.bits_0|].
  apply Z.bits_above_log2; [lia|]. apply Z.log2_lt_pow2; lia.
Qed.

Lemma lxor_pow2_small j m :
  0 <= j < 2 ^ m -> 0 <= m -> Z.lxor j (2 ^ m) = j + 2 ^ m.
Proof.
  intros Hj Hm. symmetry. apply Z.add_nocarry_lxor.
  now apply land_pow2_small.
Qed.

Lemma lxor_pow2_large r m :
  0 <= r < 2 ^ m -> 0 <= m -> Z.lxor (2 ^ m + r) (2 ^ m) = r.
Proof.
  intros Hr Hm. rewrite (Z.add_comm (2 ^ m) r).
  rewrite <- lxor_pow2_small by assumption.
  now rewrite Z.lxor_assoc, Z.lxor_nilpotent, Z.lxor_0_r.
Qed.

Lemma land_pow2_large r m :
  0 <= r < 2 ^ m -> 0 <= m -> Z.land (2 ^ m + r) (2 ^ m) <> 0.
Proof.
  intros Hr Hm E.
  assert (Hb : Z.testbit (Z.land (2 ^ m + r) (2 ^ m)) m = true).
  { rewrite Z.land_spec, Z.pow2_bits_true by lia.
    rewrite (Z.add_comm (2 ^ m) r), <- lxor_pow2_small by assumption.
    rewrite Z.lxor_spec, Z.pow2_bits_true by lia.
    destruct (Z.eq_dec r 0) as [-> | Hr0]; [now rewrite Z.bits_0|].
    rewrite Z.bits_above_log2; [reflexivity | lia |].
    apply Z.log2_lt_pow2; lia. }
  rewrite E, Z.bits_0 in Hb. discriminate.
Qed.

Lemma of_nat_pow2 (s : nat) : Z.of_nat (2 ^ s) = 2 ^ Z.of_nat s.
Proof. now rewrite Nat2Z.inj_pow. Qed.

Lemma shiftr_pow2 (s : nat) :
  Z.shiftr (Z.of_nat (2 ^ S s)) 1 = Z.of_nat (2 ^ s).
Proof.
  rewrite Z.shiftr_div_pow2 by lia.
  rewrite Nat.pow_succ_r', Nat2Z.inj_mul. change (Z.of_nat 2) with 2.
  rewrite Z.pow_1_r, Z.mul_comm, Z.div_mul; lia.
Qed.

Lemma odd_succ_half (i : nat) :
  (i mod 2 = 1)%nat -> (S i mod 2 = 0 /\ S i / 2 = S (i / 2))%nat.
Proof.
  intros Ho. pose proof (Nat.div_mod_eq i 2) as Hd.
  split.
  - symmetry. apply Nat.mod_unique with (q := S (i / 2)); lia.
  - symmetry. apply Nat.div_unique with (r := 0%nat); lia.
Qed.

Lemma even_succ_half (i : nat) :
  (i mod 2 = 0)%nat -> (S i mod 2 = 1 /\ S i / 2 = i / 2)%nat.
Proof.
  intros Ho. pose proof (Nat.div_mod_eq i 2) as Hd.
  split.
  - symmetry. apply Nat.mod_unique with (q := (i / 2)%nat); lia.
  - symmetry. apply Nat.div_unique with (r := 1%nat); lia.
Qed.

(** The [while] loop of [bitReverse] increments a bit-reversed counter. *)
Lemma rev_carry_correct (k : nat) :
  forall steps i,
    (S k <= steps)%nat -> (S i < 2 ^ S k)%nat ->
    (let '(j, bit) := rev_carry steps (Z.of_nat (rev (S k) i))
                                (Z.of_nat (2 ^ k)) in
     Z.lxor j bit) = Z.of_nat (rev (S k) (S i)).
Proof.
  induction k as [|k IH]; intros steps i Hsteps Hi.
  - assert (i = 0)%nat as -> by (simpl in Hi; lia).
    destruct steps as [|steps]; [lia|]. reflexivity.
  - destruct steps as [|steps]; [lia|].
    change (rev (S (S k)) i)
      with ((i mod 2) * 2 ^ S k + rev (S k) (i / 2))%nat.
    change (rev (S (S k)) (S i))
      with ((S i mod 2) * 2 ^ S k + rev (S k) (S i / 2))%nat.
    pose proof (rev_lt (S k) (i / 2)) as Hr.
    assert (Hpz : 0 <= Z.of_nat (rev (S k) (i / 2)) < 2 ^ Z.of_nat (S k)).
    { rewrite <- of_nat_pow2. lia. }
    cbn [rev_carry].
    pose proof (Nat.mod_upper_bound i 2 ltac:(lia)) as Hm2.
    destruct (Nat.eq_dec (i mod 2) 0) as [He | Ho].
    + (* the top bit is clear: set it *)
      destruct (even_succ_half i He) as [E1 E2]. rewrite He, E1, E2.
      rewrite Nat.mul_0_l, Nat.add_0_l, Nat.mul_1_l.
      rewrite of_nat_pow2, land_pow2_small by lia.
      cbn [Z.eqb]. rewrite lxor_pow2_small by lia.
      rewrite Nat2Z.inj_add, of_nat_pow2. lia.
    + (* the top bit is set: clear it and carry on *)
      assert (Hodd : (i mod 2 = 1)%nat) by lia.
      destruct (odd_succ_half i Hodd) as [E1 E2]. rewrite Hodd, E1, E2.
      rewrite Nat.mul_0_l, Nat.add_0_l, Nat.mul_1_l.
      rewrite Nat2Z.inj_add, (of_nat_pow2 (S k)).
      destruct (Z.eqb_spec (Z.land (2 ^ Z.of_nat (S k)
                                    + Z.of_nat (rev (S k) (i / 2)))
                                   (2 ^ Z.of_nat (S k))) 0) as [E | _].
      { exfalso. revert E. apply land_pow2_large; lia. }
      rewrite lxor_pow2_large by lia.
      rewrite <- of_nat_pow2, shiftr_pow2.
      apply IH; [lia|].
      pose proof (Nat.div_mod_eq i 2) as Hd.
      rewrite Nat.pow_succ_r' in Hi. lia.
Qed.

Lemma rev_0 k : rev k 0 = 0%nat.
Proof. induction k as [|k IH]; simpl; [reflexivity | rewrite IH; lia]. Qed.

Lemma rev_next_correct (k i : nat) :
  (k <= 32)%nat -> (S i < 2 ^ k)%nat ->
  rev_next (Z.of_nat (2 ^ k)) (Z.of_nat (rev k i)) = Z.of_nat (rev k (S i)).
Proof.
  intros Hk Hi. destruct k as [|k]; [simpl in Hi; lia|].
  unfold rev_next. rewrite shiftr_pow2.
  apply rev_carry_correct; lia.
Qed.

Lemma swap_spec d (i j : nat) p :
  (i < length d)%nat -> (j < length d)%nat ->
  length (swap d (Z.of_nat i) (Z.of_nat j)) = length d /\
  arr (swap d (Z.of_nat i) (Z.of_nat j)) p
  = if Nat.eq_dec p j then arr d i
    else if Nat.eq_dec p i then arr d j else arr d p.
Proof.
  intros Hi Hj. unfold swap. rewrite !get_arr, !set_upd, !upd_length.
  split; [reflexivity|].
  rewrite arr_upd by (rewrite upd_length; exact Hj).
  destruct (Nat.eq_dec p j); [reflexivity|].
  now rewrite arr_upd by exact Hi.
Qed.

Lemma bitReverse_prefix (k : nat) d :
  length d = (2 ^ k)%nat -> (k <= 31)%nat ->
  forall m, (m < 2 ^ k)%nat ->
    let r := fold_left
               (fun '(j, data) i =>
                  let j := rev_next (Z.of_nat (2 ^ k)) j in
                  (j, if i <? j then swap data i j else data))
               (map Z.succ (map Z.of_nat (seq 0 m))) (0, d) in
    fst r = Z.of_nat (rev k m) /\
    length (snd r) = length d /\
    forall p, arr (snd r) p = swapped k d m p.
Proof.
  intros Hlen Hk. induction m as [|m IH]; intros Hm; cbv zeta.
  - cbn [seq map fold_left fst snd]. rewrite rev_0.
    split; [reflexivity|]. split; [reflexivity|].
    intros p. unfold swapped.
    destruct (Nat.ltb_spec p (2 ^ k)) as [Hp | Hp]; [|reflexivity].
    destruct (Nat.leb_spec (Nat.min p (rev k p)) 0) as [Hz | Hz];
      [|reflexivity].
    cbn [andb].
    destruct (Nat.eq_dec p 0) as [-> | Hp0]; [now rewrite rev_0|].
    assert (E : rev k p = 0%nat) by lia.
    apply (f_equal (rev k)) in E.
    rewrite rev_involutive, rev_0 in E by exact Hp. lia.
  - rewrite seq_S, !map_app, fold_left_app.
    specialize (IH ltac:(lia)). cbv zeta in IH.
    destruct (fold_left _ (map Z.succ (map Z.of_nat (seq 0 m))) (0, d))
      as [j dm].
    cbn [fst snd] in IH. destruct IH as (Hj & Hl & Harr).
    cbn [map fold_left Nat.add fst snd]. subst j.
    rewrite rev_next_correct by lia.
    replace (Z.succ (Z.of_nat m)) with (Z.of_nat (S m)) by lia.
    split; [reflexivity|].
    pose proof (rev_lt k (S m)) as Hrl.
    pose proof (rev_involutive k (S m) Hm) as Hinv.
    destruct (Z.ltb_spec (Z.of_nat (S m)) (Z.of_nat (rev k (S m))))
      as [Hlt | Hge].
    + (* the two positions are exchanged *)
      destruct (swap_spec dm (S m) (rev k (S m)) 0 ltac:(lia) ltac:(lia))
        as [Hl' _].
      split; [lia|]. intros p.
      destruct (swap_spec dm (S m) (rev k (S m)) p ltac:(lia) ltac:(lia))
        as [_ ->].
      rewrite !Harr. unfold swapped.
      destruct (Nat.eq_dec p (rev k (S m))) as [-> | Hne1].
      * rewrite Hinv.
        replace (rev k (S m) <? 2 ^ k)%nat with true
          by (symmetry; apply Nat.ltb_lt; lia).
        replace (S m <? 2 ^ k)%nat with true
          by (symmetry; apply Nat.ltb_lt; lia).
        replace (Nat.min (rev k (S m)) (S m) <=? S m)%nat with true
          by (symmetry; apply Nat.leb_le; lia).
        replace (Nat.min (S m) (rev k (S m)) <=? m)%nat with false
          by (symmetry; apply Nat.leb_gt; lia).
        reflexivity.
      * destruct (Nat.eq_dec p (S m)) as [-> | Hne2].
        -- replace (rev k (S m) <? 2 ^ k)%nat with true
             by (symmetry; apply Nat.ltb_lt; lia).
           replace (S m <? 2 ^ k)%nat with true
             by (symmetry; apply Nat.ltb_lt; lia).
           rewrite Hinv.
           replace (Nat.min (rev k (S m)) (S m) <=? m)%nat with false
             by (symmetry; apply Nat.leb_gt; lia).
           replace (Nat.min (S m) (rev k (S m)) <=? S m)%nat with true
             by (symmetry; apply Nat.leb_le; lia).
           reflexivity.
        -- destruct (Nat.ltb_spec p (2 ^ k)) as [Hp | Hp]; [|reflexivity].
           cbn [andb].
           assert (Hrp : rev k p <> S m).
           { intros E. apply Hne1. rewrite <- E.
             now rewrite rev_involutive. }
           destruct (Nat.leb_spec (Nat.min p (rev k p)) m),
                    (Nat.leb_spec (Nat.min p (rev k p)) (S m));
             try reflexivity; lia.
    + (* no exchange *)
      split; [exact Hl|]. intros p. rewrite Harr. unfold swapped.
      destruct (Nat.ltb_spec p (2 ^ k)) as [Hp | Hp]; [|reflexivity].
      cbn [andb].
      destruct (Nat.leb_spec (Nat.min p (rev k p)) m),
               (Nat.leb_spec (Nat.min p (rev k p)) (S m));
        try reflexivity; try lia.
      (* [min p (rev k p) = S m]: [p] is a fixed point *)
      assert (Hcase : p = S m \/ rev k p = S m) by lia.
      destruct Hcase as [-> | E].
      * assert (rev k (S m) = S m) by lia. congruence.
      * assert (Hp' : p = rev k (S m)).
        { rewrite <- E. now rewrite rev_involutive. }
        assert (p = S m) by lia. congruence.
Qed.

(** [bitReverse] permutes a vector of [2^k] elements by bit reversal. *)
Lemma bitReverse_spec (k : nat) d :
  length d = (2 ^ k)%nat -> (k <= 31)%nat ->
  length (bitReverse d) = length d /\
  forall p, (p < 2 ^ k)%nat -> arr (bitReverse d) p = arr d (rev k p).
Proof.
  intros Hlen Hk. unfold bitReverse, of_size.
  assert (Hpos : (0 < 2 ^ k)%nat)
    by (apply Nat.neq_0_lt_0, Nat.pow_nonzero; lia).
  assert (Hlt : Z.of_nat (2 ^ k) < modulus).
  { rewrite of_nat_pow2. unfold modulus. apply Z.pow_lt_mono_r; lia. }
  rewrite Hlen, wrap_small by lia.
  unfold zrange.
  replace (Z.to_nat (Z.of_nat (2 ^ k) - 1)) with (2 ^ k - 1)%nat by lia.
  destruct (bitReverse_prefix k d Hlen Hk (2 ^ k - 1)%nat ltac:(lia))
    as (_ & Hl & Harr).
  split; [etransitivity; [exact Hl | exact Hlen]|].
  intros p Hp. etransitivity; [exact (Harr p)|]. unfold swapped.
  replace (p <? 2 ^ k)%nat with true by (symmetry; apply Nat.ltb_lt; lia).
  replace (Nat.min p (rev k p) <=? 2 ^ k - 1)%nat with true
    by (symmetry; apply Nat.leb_le; lia).
  reflexivity.
Qed.

(** ** The whole transform *)

Lemma arr_map (f : C -> C) d p :
  (p < length d)%nat -> arr (map f d) p = f (arr d p).
Proof.
  intros Hp. unfold arr.
  rewrite (nth_indep _ C0 (f C0)) by (rewrite length_map; exact Hp).
  apply map_nth.
Qed.

Lemma of_size_pow2 (k : nat) :
  (k <= 31)%nat -> of_size (2 ^ k) = Z.of_nat (2 ^ k).
Proof.
  intros Hk. unfold of_size. apply wrap_small.
  rewrite of_nat_pow2. split; [apply Z.pow_nonneg; lia|].
  unfold modulus. apply Z.pow_lt_mono_r; lia.
Qed.

(** On a vector of [2^k <= 2^30] elements, [radix2FFT] returns, and what
    it returns is the (scaled) discrete Fourier transform. *)
Lemma radix2FFT_spec fuel d (k : nat) inverse :
  length d = (2 ^ k)%nat -> (k <= 30)%nat -> (2 ^ k < fuel)%nat ->
  exists r,
    radix2FFT fuel d inverse = Some r /\
    length r = (2 ^ k)%nat /\
    forall p, (p < 2 ^ k)%nat ->
      arr r p = scaling inverse (2 ^ k)
                        (dft (root (sign inverse) (2 ^ k)) (2 ^ k) (arr d) p).
Proof.
  intros Hlen Hk Hfuel. unfold radix2FFT.
  rewrite Hlen, of_size_pow2 by lia.
  replace (isValidSize (Z.of_nat (2 ^ k))) with true
    by (rewrite of_nat_pow2; symmetry; apply isValidSize_pow2; lia).
  cbn [negb].
  destruct (bitReverse_spec k d Hlen ltac:(lia)) as (Hbl & Hbarr).
  rewrite for_u32_visits with (ks := lens 1 k).
  - destruct (stages_prefix fuel (bitReverse d) k inverse
                            ltac:(lia) Hk Hfuel k (le_n k))
      as (r & Hr & Hl & Harr).
    rewrite Hr. cbn [bind].
    assert (Hdft : forall p, (p < 2 ^ k)%nat ->
              arr r p = dft (root (sign inverse) (2 ^ k)) (2 ^ k) (arr d) p).
    { intros p Hp. rewrite Harr by lia.
      apply iter_stages_dft; [apply sign_cases | exact Hbarr | exact Hp]. }
    eexists. split; [reflexivity|].
    unfold scaling. destruct inverse.
    + rewrite length_map. split; [lia|].
      intros p Hp. rewrite arr_map by lia.
      rewrite <- INR_IZR_INZ. now rewrite Hdft.
    + split; [lia|]. exact Hdft.
  - apply (visits_lens k Hk k 1%nat). lia.
  - unfold lens. rewrite length_map, length_seq.
    pose proof (Nat.pow_gt_lin_r 2 k ltac:(lia)). lia.
Qed.

(** A vector whose size is not a power of two is returned as it is. *)
Lemma radix2FFT_invalid fuel d inverse :
  isValidSize (of_size (length d)) = false -> radix2FFT fuel d inverse = Some d.
Proof. intros H. unfold radix2FFT. now rewrite H. Qed.

(** ** The public entry points *)

Lemma zeroPad_length x (n : nat) : length (zeroPad x (Z.of_nat n)) = n.
Proof.
  unfold zeroPad, resize. rewrite Nat2Z.id, length_app, length_firstn,
    repeat_length. lia.
Qed.

Lemma forward_nonempty fuel x sampleRate :
  x <> [] ->
  forward fuel x sampleRate WindowType.None =
  (let fftSize := nextPowerOf2 (of_size (length x)) in
   data <- radix2FFT fuel (map (fun s => (s, 0%R)) (zeroPad x fftSize)) false ;;
   Some (Ok {| data := data; sampleRate := sampleRate;
               frequencyResolution := (sampleRate / IZR fftSize)%R;
               size := fftSize; windowUsed := WindowType.None |})).
Proof. destruct x; [congruence | reflexivity]. Qed.

Lemma inverse_nonempty fuel X :
  X <> [] ->
  inverse fuel X = (data <- radix2FFT fuel X true ;; Some (Ok (map re data))).
Proof. destruct X; [congruence | reflexivity]. Qed.

Lemma inverseComplex_nonempty fuel X :
  X <> [] ->
  inverseComplex fuel X = (data <- radix2FFT fuel X true ;; Some (Ok data)).
Proof. destruct X; [congruence | reflexivity]. Qed.

(** The remaining sizes: the padded size is [2^31], and the block length
    of the outer loop of [radix2FFT] wraps to zero after the last stage;
    the loop on [i] then never advances, whatever the iteration budget. *)
Lemma for_u32_diverges {S} (cond : Z -> bool) next
      (body : Z -> S -> option S) ks c :
  cond c = true -> (forall s, body c s = None) ->
  forall fuel i s, path cond next i ks c ->
                   for_u32 fuel cond next body i s = None.
Proof.
  intros Hc Hb. induction ks as [|x rest IH]; intros fuel i s Hp;
    (destruct fuel as [|fuel]; [reflexivity|]); simpl in *.
  - subst i. now rewrite Hc, Hb.
  - destruct Hp as (_ & Hci & Hp). rewrite Hci.
    destruct (body i s); [now apply IH | reflexivity].
Qed.

Lemma path_lens :
  forall c j, (j + c = 32)%nat -> (1 <= j <= 31)%nat ->
    path (fun len => len <=? Z.of_nat (2 ^ 31))
         (fun len => wrap (Z.shiftl len 1))
         (Z.of_nat (2 ^ j)) (lens j c) 0.
Proof.
  induction c as [|c IH]; intros j Hj Hj1.
  - exfalso. lia.
  - unfold lens. cbn [seq map path].
    split; [reflexivity|]. split.
    + apply Z.leb_le. apply inj_le. apply Nat.pow_le_mono_r; lia.
    + destruct (Nat.eq_dec j 31) as [-> | Hne].
      * assert (c = 0)%nat as -> by lia. cbn [seq map path].
        rewrite of_nat_pow2. reflexivity.
      * rewrite shiftl_pow2 by lia. apply IH; lia.
Qed.

Lemma radix2FFT_diverges fuel d inverse :
  length d = (2 ^ 31)%nat -> radix2FFT fuel d inverse = None.
Proof.
  intros Hlen. unfold radix2FFT.
  rewrite Hlen, of_size_pow2 by lia.
  replace (isValidSize (Z.of_nat (2 ^ 31))) with true
    by (rewrite of_nat_pow2; symmetry; apply isValidSize_pow2; lia).
  cbn [negb].
  rewrite (for_u32_diverges _ _ _ (lens 1 31) 0); [reflexivity | | |].
  - apply Z.leb_le. lia.
  - intros s. unfold stage. apply for_u32_stuck.
    + apply Z.ltb_lt. apply (inj_lt 0). apply Nat.neq_0_lt_0, Nat.pow_nonzero. lia.
    + reflexivity.
  - apply (path_lens 31 1); lia.
Qed.

Lemma forward_diverges fuel x sampleRate :
  2 ^ 30 < Z.of_nat (length x) <= 2 ^ 31 ->
  forward fuel x sampleRate WindowType.None = None.
Proof.
  intros HL.
  assert (Hs : of_size (length x) = Z.of_nat (length x)).
  { unfold of_size. apply wrap_small. unfold modulus. lia. }
  rewrite forward_nonempty by (intros ->; simpl in HL; lia). cbv zeta.
  rewrite Hs, nextPowerOf2_small by lia.
  replace (Z.log2_up (Z.of_nat (length x))) with 31
    by (symmetry; apply Z.log2_up_unique; lia).
  change (2 ^ 31) with (2 ^ Z.of_nat 31). rewrite <- of_nat_pow2.
  rewrite radix2FFT_diverges; [reflexivity|].
  now rewrite length_map, zeroPad_length.
Qed.

(** [inverse] and [inverseComplex] on a size that is not a power of two:
    the input comes back untransformed, as a success. *)
Lemma inverse_invalid_size fuel X :
  X <> [] -> isValidSize (of_size (length X)) = false ->
  inverse fuel X = Some (Ok (map re X)) /\
  inverseComplex fuel X = Some (Ok X).
Proof.
  intros Hne Hinv.
  rewrite inverse_nonempty, inverseComplex_nonempty by exact Hne.
  now rewrite radix2FFT_invalid by exact Hinv.
Qed.

End FFTFacts.

Module FFTClaims.

Import U32 Core Cplx CplxFacts Pow2 FFT DftFacts FFTFacts.
Local Open Scope Z_scope.

(** C1, where the code departs from the claim: for an input of more than
    [2^30] and at most [2^31] samples, [2^30 + 1] zeros for one, [forward]
    pads the input to [2^31] elements and [radix2FFT] never returns.  After
    the pass with [len = 2^31] the statement [len <<= 1] wraps the 32-bit
    block length to 0, the test [len <= n] still holds, and the loop on
    [i], which advances by [len], stays at 0: whatever the iteration
    budget, [forward] has no result, so there is no spectrum to apply
    [inverse] to. *)
Theorem forward_never_returns :
  (forall fuel (x : list R) sampleRate,
     2 ^ 30 < Z.of_nat (length x) <= 2 ^ 31 ->
     forward fuel x sampleRate WindowType.None = None) /\
  (forall fuel sampleRate,
     forward fuel (repeat 0%R (Z.to_nat (2 ^ 30 + 1))) sampleRate
             WindowType.None = None).
Proof.
  split.
  - intros fuel x sampleRate HL. now apply forward_diverges.
  - intros fuel sampleRate. apply forward_diverges.
    rewrite repeat_length, Z2Nat.id; lia.
Qed.

(** C2, where the code departs from the claim: for the three-element input
    [1, 2, 3], [inverse] and [inverseComplex] neither pad nor transform;
    they return the input as it is, as a success, whereas the inverse
    transform of the input zero-padded to four elements starts with
    [3/2]. *)
Theorem inverse_skips_non_power_of_two :
  let input := [(1, 0); (2, 0); (3, 0)]%R in
  (forall fuel, inverse fuel input = Some (Ok [1; 2; 3]%R)) /\
  (forall fuel, inverseComplex fuel input = Some (Ok input)) /\
  (exists padded,
     radix2FFT 5 (Vec.resize 4 C0 input) true = Some padded /\
     length padded = 4%nat /\
     nth 0 padded C0 = (3 / 2, 0)%R).
Proof.
  intros input.
  assert (Hinv : forall fuel,
            inverse fuel input = Some (Ok (map re input)) /\
            inverseComplex fuel input = Some (Ok input)).
  { intros fuel. apply inverse_invalid_size; [discriminate | reflexivity]. }
  split; [intros fuel; apply (Hinv fuel)|].
  split; [intros fuel; apply (Hinv fuel)|].
  destruct (radix2FFT_spec 5 (Vec.resize 4 C0 input) 2 true)
    as (r & Hr & Hl & Harr); [reflexivity | lia | simpl; lia |].
  exists r. split; [exact Hr|]. split; [exact Hl|].
  change (arr r 0 = (3 / 2, 0)%R).
  rewrite Harr by (simpl; lia).
  unfold scaling, dft. cbn [Nat.pow Nat.mul Nat.add Csum Cpow].
  unfold arr, input, Vec.resize. cbn [firstn length Nat.sub repeat app nth].
  apply C_eq; unfold Cscale, Cadd, Cmul, C0, C1, re, im; simpl; field.
Qed.

End FFTClaims.

(* ================================================================== *)
(** * RealTimeFFT *)
(* ================================================================== *)

Module StreamingFacts.

Import U32 Core Pow2 FFT FFTFacts RealTimeFFT.

(** With [fftSize = 2^31], a batch that fills the window makes
    [processSamples] run a transform that does not terminate. *)
Lemma processSamples_diverges fuel round sampleRate overlapFactor window batch :
  Z.of_nat (length batch) = (2 ^ 31)%Z ->
  processSamples fuel (make round (2 ^ 31) sampleRate overlapFactor window)
                 batch = None.
Proof.
  intros Hlen. unfold processSamples.
  change (m_buffer (make round (2 ^ 31) sampleRate overlapFactor window)
          ++ batch) with batch.
  destruct fuel as [|budget]; [reflexivity|].
  cbn [drain].
  change (m_fftSize (make round (2 ^ 31) sampleRate overlapFactor window))
    with (2 ^ 31)%Z.
  rewrite Hlen, Z.ltb_irrefl.
  unfold frame_fft.
  rewrite forward_diverges; [reflexivity|].
  rewrite length_map, length_seq, length_firstn.
  change (m_fftSize (make round (2 ^ 31) sampleRate overlapFactor window))
    with (2 ^ 31)%Z.
  lia.
Qed.

End StreamingFacts.

Module StreamingClaims.

Import U32 Core Pow2 FFT RealTimeFFT StreamingFacts.


End StreamingClaims.

(* ================================================================== *)
(** * Sums and vectors: further lemmas *)
(* ================================================================== *)

Module AuxFacts.

Import Vec VecFacts.
Local Open Scope R_scope.

Lemma upd_nth_same {A} (v : list A) i d : upd v i (nth i v d) = v.
Proof.
  revert i. induction v as [|h t IH]; intros [|i]; simpl; try reflexivity.
  now rewrite IH.
Qed.

Lemma upd_upd {A} (v : list A) i x y : upd (upd v i x) i y = upd v i y.
Proof.
  revert i. induction v as [|h t IH]; intros [|i]; simpl; try reflexivity.
  now rewrite IH.
Qed.

Lemma map_nth_seq (v : list R) :
  map (fun t => nth t v 0) (seq 0 (length v)) = v.
Proof.
  induction v as [|x v IH]; [reflexivity|].
  change (length (x :: v)) with (S (length v)).
  change (seq 0 (S (length v))) with (0%nat :: seq 1 (length v)).
  rewrite <- seq_shift. cbn [map nth]. rewrite map_map. cbn [nth].
  now rewrite IH.
Qed.

Lemma map_const_ext_length {A B} (c : B) (v : list A) :
  map (fun _ => c) v = repeat c (length v).
Proof. induction v as [|x v IH]; [reflexivity|]. cbn. now rewrite IH. Qed.

End AuxFacts.

(* ================================================================== *)
(** * fft.cpp : the bit-reversal permutation *)
(* ================================================================== *)

Module TransformProps.

Import AuxFacts.
Import U32 Core Cplx CplxFacts Loop LoopFacts Pow2 Pow2Facts FFT DftFacts.
Import Vec VecFacts FFTFacts.
Local Open Scope Z_scope.

(** X4. On every size the transform accepts (the powers of two), the
    permutation [FFT::bitReverse] keeps the length and undoes itself. *)
Theorem bitReverse_involution (data : list C) :
  Z.of_nat (length data) < 2 ^ 32 ->
  isValidSize (Z.of_nat (length data)) = true ->
  length (bitReverse data) = length data /\
  bitReverse (bitReverse data) = data.
Proof.
  intros Hn Hv.
  destruct (isValidSize_is_pow2 (Z.of_nat (length data))) as (kz & Hkz & Hlen);
    [unfold in_range, modulus; lia | exact Hv |].
  set (k := Z.to_nat kz).
  assert (Hk : (k <= 31)%nat) by (unfold k; lia).
  assert (Hl : length data = (2 ^ k)%nat).
  { apply Nat2Z.inj. rewrite Hlen, of_nat_pow2. unfold k.
    now rewrite Z2Nat.id by lia. }
  destruct (bitReverse_spec k data Hl Hk) as [Hl1 Ha1].
  destruct (bitReverse_spec k (bitReverse data)) as [Hl2 Ha2];
    [lia | exact Hk |].
  split; [exact Hl1|].
  apply (nth_ext _ _ C0 C0); [lia|].
  intros p Hp. rewrite Hl2, Hl1, Hl in Hp.
  change (arr (bitReverse (bitReverse data)) p = arr data p).
  rewrite (Ha2 p Hp), Ha1 by apply rev_lt.
  now rewrite rev_involutive.
Qed.

Lemma bitReverse_involution_witness :
  bitReverse (bitReverse [(1, 0); (2, 0); (3, 0); (4, 0)]%R)
  = [(1, 0); (2, 0); (3, 0); (4, 0)]%R.
Proof.
  apply (bitReverse_involution [(1, 0); (2, 0); (3, 0); (4, 0)]%R).
  - simpl. lia.
  - reflexivity.
Defined.

End TransformProps.

(* ================================================================== *)
(** * filter.cpp : the band-pass filter and reset *)
(* ================================================================== *)

Module FilterProps.

Import AuxFacts.
Import Vec VecFacts FilterDefs.
Local Open Scope R_scope.

(** X12. A [BandPassFilter] keeps its cutoffs in order, reports the order it was
    given, and filters a signal exactly as its high-pass stage followed by
    its low-pass stage do, each built with [order / 2]. *)
Theorem bandpass_cascade
        (lowCutoff highCutoff : R) (order : Z) (input : list R) :
  let f := BandPassFilter.make lowCutoff highCutoff order in
  BandPassFilter.m_lowCutoff f = Rmin lowCutoff highCutoff /\
  BandPassFilter.m_highCutoff f = Rmax lowCutoff highCutoff /\
  BandPassFilter.getOrder f = order /\
  snd (process_all BandPassFilter.process f input)
  = snd (process_all LowPassFilter.process
           (LowPassFilter.make (Rmax lowCutoff highCutoff) (order / 2))
           (snd (process_all HighPassFilter.process
                   (HighPassFilter.make (Rmin lowCutoff highCutoff)
                                        (order / 2))
                   input))).
Proof.
  intros f.
  assert (Hlo : BandPassFilter.m_lowCutoff f = Rmin lowCutoff highCutoff).
  { unfold f, BandPassFilter.make, Rmin.
    destruct (Rle_dec highCutoff lowCutoff), (Rle_dec lowCutoff highCutoff);
      cbn [BandPassFilter.m_lowCutoff]; lra. }
  assert (Hhi : BandPassFilter.m_highCutoff f = Rmax lowCutoff highCutoff).
  { unfold f, BandPassFilter.make, Rmax.
    destruct (Rle_dec highCutoff lowCutoff), (Rle_dec lowCutoff highCutoff);
      cbn [BandPassFilter.m_highCutoff]; lra. }
  assert (Hlp : BandPassFilter.m_lowPass f
                = LowPassFilter.make (BandPassFilter.m_highCutoff f)
                                     (order / 2)).
  { unfold f, BandPassFilter.make.
    destruct (Rle_dec highCutoff lowCutoff); reflexivity. }
  assert (Hhp : BandPassFilter.m_highPass f
                = HighPassFilter.make (BandPassFilter.m_lowCutoff f)
                                      (order / 2)).
  { unfold f, BandPassFilter.make.
    destruct (Rle_dec highCutoff lowCutoff); reflexivity. }
  split; [exact Hlo|]. split; [exact Hhi|]. split.
  { unfold f, BandPassFilter.make.
    destruct (Rle_dec highCutoff lowCutoff); reflexivity. }
  rewrite <- Hlo, <- Hhi, <- Hlp, <- Hhp.
  clearbody f. clear Hlo Hhi Hlp Hhp. revert f.
  induction input as [|x xs IH]; intros f; [reflexivity|].
  cbn [process_all]. unfold BandPassFilter.process at 1.
  destruct (HighPassFilter.process (BandPassFilter.m_highPass f) x)
    as [hp h] eqn:Hh.
  destruct (LowPassFilter.process (BandPassFilter.m_lowPass f) h)
    as [lp y] eqn:Hl.
  specialize
    (IH {| BandPassFilter.m_lowCutoff := BandPassFilter.m_lowCutoff f;
           BandPassFilter.m_highCutoff := BandPassFilter.m_highCutoff f;
           BandPassFilter.m_order := BandPassFilter.m_order f;
           BandPassFilter.m_lowPass := lp;
           BandPassFilter.m_highPass := hp |}).
  cbn [BandPassFilter.m_lowPass BandPassFilter.m_highPass] in IH.
  destruct (process_all BandPassFilter.process _ xs) as [f2 ys].
  destruct (process_all HighPassFilter.process hp xs) as [hp2 hs].
  cbn [snd process_all] in *. rewrite Hl.
  destruct (process_all LowPassFilter.process lp hs) as [lp2 ls].
  cbn [snd] in *. now f_equal.
Qed.

(** X13. [reset] undoes all processing: a filter that was constructed, fed any
    signal and then reset is in the state its constructor left it in.  The
    same holds for a [KalmanFilter] after any measurements. *)
Theorem reset_restores_construction :
  (forall (f : Filter.t) (input : list R),
     constructed f ->
     Filter.reset (fst (process_all Filter.process f input)) = f) /\
  (forall (Q R0 e0 P0 : R) (zs : list R),
     KalmanFilter.reset (KalmanFilter.track (KalmanFilter.make Q R0 e0 P0) zs)
     = KalmanFilter.make Q R0 e0 P0).
Proof.
  split.
  - assert (Hstep : forall f x,
               Filter.reset (fst (Filter.process f x)) = Filter.reset f).
    { intros [g|g|g|g|g] x; cbn [Filter.process].
      - reflexivity.
      - reflexivity.
      - unfold BandPassFilter.process.
        destruct (HighPassFilter.process _ x) as [hp h] eqn:Hh.
        destruct (LowPassFilter.process _ h) as [lp y] eqn:Hl.
        cbn [fst Filter.reset]. unfold BandPassFilter.reset.
        cbn [BandPassFilter.m_lowCutoff BandPassFilter.m_highCutoff
             BandPassFilter.m_order BandPassFilter.m_lowPass
             BandPassFilter.m_highPass].
        unfold HighPassFilter.process in Hh. injection Hh as <- _.
        unfold LowPassFilter.process in Hl. injection Hl as <- _.
        reflexivity.
      - unfold MovingAverageFilter.process. cbn [fst Filter.reset].
        unfold MovingAverageFilter.reset.
        cbn [MovingAverageFilter.m_windowSize MovingAverageFilter.m_buffer].
        rewrite !map_const_ext_length. now rewrite upd_length.
      - unfold MedianFilter.process. cbn [fst Filter.reset].
        unfold MedianFilter.reset.
        cbn [MedianFilter.m_windowSize MedianFilter.m_buffer].
        rewrite !map_const_ext_length. now rewrite upd_length. }
    assert (Hfeed : forall input f,
               Filter.reset (fst (process_all Filter.process f input))
               = Filter.reset f).
    { induction input as [|x xs IH]; intros f; [reflexivity|].
      cbn [process_all].
      destruct (Filter.process f x) as [f1 y] eqn:H1.
      specialize (IH f1).
      destruct (process_all Filter.process f1 xs) as [f2 ys].
      cbn [fst] in *. rewrite IH. rewrite <- (Hstep f x), H1. reflexivity. }
    intros f input Hc. rewrite Hfeed.
    inversion Hc; subst; try reflexivity.
    + cbn [Filter.reset]. f_equal. unfold BandPassFilter.make.
      destruct (Rle_dec highCutoff lowCutoff); reflexivity.
    + cbn [Filter.reset]. f_equal.
      unfold MovingAverageFilter.reset, MovingAverageFilter.make.
      cbn [MovingAverageFilter.m_windowSize MovingAverageFilter.m_buffer].
      f_equal. unfold resize. rewrite firstn_nil. cbn [length app].
      rewrite Nat.sub_0_r, map_const_ext_length, repeat_length. reflexivity.
    + cbn [Filter.reset]. f_equal.
      unfold MedianFilter.reset, MedianFilter.make.
      cbn [MedianFilter.m_windowSize MedianFilter.m_buffer].
      f_equal. unfold resize. rewrite firstn_nil. cbn [length app].
      rewrite Nat.sub_0_r, map_const_ext_length, repeat_length. reflexivity.
  - intros Q R0 e0 P0 zs. unfold KalmanFilter.track.
    set (f0 := KalmanFilter.make Q R0 e0 P0).
    assert (H : forall zs f,
               KalmanFilter.reset
                 (fold_left (fun f z => fst (KalmanFilter.update f z)) zs f)
               = KalmanFilter.reset f).
    { induction zs0 as [|z zs0 IH]; intros f; [reflexivity|].
      cbn [fold_left]. rewrite IH. reflexivity. }
    rewrite H. reflexivity.
Qed.

Lemma reset_restores_construction_witness :
  Filter.reset
    (fst (process_all Filter.process
                      (Filter.Median (MedianFilter.make 3)) [4; 1; 7; 2]))
  = Filter.Median (MedianFilter.make 3).
Proof.
  apply (proj1 reset_restores_construction).
  apply constructed_median.
Defined.

End FilterProps.

(* ================================================================== *)
(** * filter.cpp : the window filters *)
(* ================================================================== *)

Module WindowFacts.

Import AuxFacts.
Import U32 Vec VecFacts.
Local Open Scope R_scope.

Lemma median_process_snd f x :
  snd (MedianFilter.process f x)
  = MedianFilter.calculateMedian (fst (MedianFilter.process f x)).
Proof. reflexivity. Qed.

(** The output of the median filter, from the samples in its window. *)
Lemma median_output (w : Z) xs x :
  (1 <= w < modulus)%Z ->
  let m := Nat.min (S (length xs)) (Z.to_nat w) in
  snd (MedianFilter.process (MedianFilter.feed (MedianFilter.make w) xs) x)
  = MedianFilter.middle (MedianFilter.sort (lastn m (xs ++ [x]))).
Proof.
  intros Hw m. rewrite median_process_snd.
  apply (MedianFacts.calculateMedian_spec w Hw (xs ++ [x])).
  - now destruct xs.
  - apply MedianFacts.median_inv_process, MedianFacts.median_inv_feed;
      exact Hw.
  - apply MedianFacts.sort_sorted.
  - rewrite length_app. cbn [length]. rewrite Nat.add_1_r.
    apply MedianFacts.sort_perm.
Qed.

(** The output of the moving average, from the samples in its window. *)
Lemma average_output (w : Z) xs x :
  (1 <= w < modulus)%Z ->
  let m := Nat.min (S (length xs)) (Z.to_nat w) in
  snd (MovingAverageFilter.process
         (MovingAverageFilter.feed (MovingAverageFilter.make w) xs) x)
  = Rsum (lastn m (xs ++ [x])) / INR m.
Proof.
  intros Hw m.
  apply (MovingAverageFacts.process_output w Hw xs).
  apply MovingAverageFacts.inv_feed. exact Hw.
Qed.

End WindowFacts.

Module WindowProps.

Import AuxFacts.
Import U32 Vec VecFacts WindowFacts.
Local Open Scope R_scope.



End WindowProps.

(* ================================================================== *)
(** * filter.cpp : the Kalman filter and its data *)
(* ================================================================== *)

Module TrackingFacts.

Import PrimFloat.
Import Scalar.
Import Template.KalmanFilter.

Section Over.

Context {T : Type} {O : ops T}.

Lemma track_snoc (f : t T) zs z :
  track f (zs ++ [z]) = fst (update (track f zs) z).
Proof. unfold track. now rewrite fold_left_app. Qed.

Lemma track_noise (f : t T) zs :
  m_processNoise (track f zs) = m_processNoise f /\
  m_measurementNoise (track f zs) = m_measurementNoise f.
Proof.
  unfold track. revert f.
  induction zs as [|z zs IH]; intros f; [split; reflexivity|].
  cbn [fold_left]. destruct (IH (fst (update f z))) as [-> ->].
  split; reflexivity.
Qed.

End Over.

(** In [double] arithmetic the covariance stops changing after finitely
    many updates: with [Q = R = 1] and an initial covariance of 1 it still
    decreases at the 20th update and is the same, above one half, after
    the 21st. *)
Lemma covariance_stalls :
  let f := make 1%float 1%float 0%float 1%float in
  let cov := fun n =>
    getCovariance (track (O := binary64) f (repeat 5%float n)) in
  ltb (cov 20%nat) (cov 19%nat) = true /\
  cov 21%nat = cov 20%nat /\
  ltb 0.5%float (cov 20%nat) = true.
Proof. vm_compute. repeat split. Qed.

(** In [double] arithmetic an update can carry the estimate past the
    measurement: with [Q = 1], [R = 2^-100], the estimate [1e16] and the
    covariance 1, the gain rounds to 1 and [1 - 1e16] to [-1e16], so the
    measurement 1 moves the estimate from above it to 0, below it, with a
    covariance of 0; the next update gives the estimate 1 and leaves the
    covariance at 0. *)
Lemma estimate_overshoots :
  let f := make 1%float 0x1p-100%float 1e16%float 1%float in
  let f1 := fst (update (O := binary64) f 1%float) in
  let f2 := fst (update (O := binary64) f1 1%float) in
  getEstimate f1 = 0%float /\ getCovariance f1 = 0%float /\
  getEstimate f2 = 1%float /\ getCovariance f2 = 0%float.
Proof. vm_compute. repeat split. Qed.

End TrackingFacts.

Module TrackingProps.

Import Scalar.
Import Template.KalmanFilter TrackingFacts.

(** X17. In any arithmetic of [T], the covariance of a [KalmanFilter],
    and with it the gain, does not depend on the data: two filters built
    with the same noise parameters and initial covariance report the same
    [getCovariance()] after the same number of updates, whatever the
    measurements and the initial estimates were.  [update] returns the new
    estimate, and [predict] returns the estimate without changing it. *)
Theorem kalman_covariance_ignores_data
        {T : Type} {O : ops T}
        (Q R0 e0 e0' P0 : T) (zs zs' : list T) (z : T) :
  let f := track (make Q R0 e0 P0) zs in
  let f' := fst (update f z) in
  (length zs' = length zs ->
   getCovariance (track (make Q R0 e0' P0) zs') = getCovariance f) /\
  snd (update f z) = getEstimate f' /\
  predict f' = getEstimate f'.
Proof.
  intros f f'. split; [|split; reflexivity].
  unfold f. clear f f'. revert zs'.
  induction zs as [|z0 zs0 IH] using rev_ind; intros zs' Hlen.
  - destruct zs'; [reflexivity | discriminate].
  - destruct zs' as [|z1 zs1 _] using rev_ind.
    + rewrite length_app in Hlen. simpl in Hlen. lia.
    + rewrite !length_app in Hlen. cbn [length] in Hlen.
      rewrite !track_snoc. unfold getCovariance, update.
      cbn [fst m_covariance].
      destruct (track_noise (make Q R0 e0 P0) zs0) as [-> ->].
      destruct (track_noise (make Q R0 e0' P0) zs1) as [-> ->].
      cbn [make m_processNoise m_measurementNoise].
      unfold getCovariance in IH. rewrite (IH zs1) by lia. reflexivity.
Qed.

End TrackingProps.

(* ================================================================== *)
(** * dsp.cpp : signal statistics *)
(* ================================================================== *)

Module StatsFacts.

Import Scalar ScalarFacts.
Import Template.SignalStats.

Section Over.

Context {T : Type} {O : ops T} {L : order O}.

(** The first smallest element: a sample that none is below. *)
Lemma min_element_spec (first : T) rest :
  Forall number (first :: rest) ->
  let m := min_element first rest in
  In m (first :: rest) /\
  forall x, In x (first :: rest) -> leb m x = true.
Proof.
  unfold min_element. revert first.
  induction rest as [|y rest IH]; intros first Hnum; cbn [fold_left].
  - inversion Hnum; subst. split; [now left|].
    intros x [<-|[]]. assumption.
  - inversion Hnum as [|? ? Hf Hrest]; subst.
    inversion Hrest as [|? ? Hy Hrest']; subst.
    set (m0 := if ltb y first then y else first).
    assert (Hm0 : number m0) by (unfold m0; destruct (ltb y first); assumption).
    destruct (IH m0) as [Hin Hle]; [now constructor|].
    assert (H0f : leb m0 first = true).
    { unfold m0. destruct (ltb y first) eqn:E;
        [now apply ltb_leb | exact Hf]. }
    assert (H0y : leb m0 y = true).
    { unfold m0. destruct (ltb y first) eqn:E;
        [exact Hy | now apply not_ltb_leb]. }
    split.
    + destruct Hin as [Heq|Hin]; [|now right; right].
      rewrite <- Heq. unfold m0.
      destruct (ltb y first); [right; now left | now left].
    + intros x Hx.
      assert (Hm : leb (fold_left (fun m x0 => if ltb x0 m then x0 else m)
                                  rest m0) m0 = true)
        by (apply Hle; now left).
      destruct Hx as [<-|[<-|Hx]].
      * now apply (leb_trans _ m0).
      * now apply (leb_trans _ m0).
      * apply Hle. now right.
Qed.

(** The last largest element: a sample that none is above. *)
Lemma max_element_spec (first : T) rest :
  Forall number (first :: rest) ->
  let m := max_element first rest in
  In m (first :: rest) /\
  forall x, In x (first :: rest) -> leb x m = true.
Proof.
  unfold max_element. revert first.
  induction rest as [|y rest IH]; intros first Hnum; cbn [fold_left].
  - inversion Hnum; subst. split; [now left|].
    intros x [<-|[]]. assumption.
  - inversion Hnum as [|? ? Hf Hrest]; subst.
    inversion Hrest as [|? ? Hy Hrest']; subst.
    set (m0 := if ltb y first then first else y).
    assert (Hm0 : number m0) by (unfold m0; destruct (ltb y first); assumption).
    destruct (IH m0) as [Hin Hle]; [now constructor|].
    assert (H0f : leb first m0 = true).
    { unfold m0. destruct (ltb y first) eqn:E;
        [exact Hf | now apply not_ltb_leb]. }
    assert (H0y : leb y m0 = true).
    { unfold m0. destruct (ltb y first) eqn:E;
        [now apply ltb_leb | exact Hy]. }
    split.
    + destruct Hin as [Heq|Hin]; [|now right; right].
      rewrite <- Heq. unfold m0.
      destruct (ltb y first); [now left | right; now left].
    + intros x Hx.
      assert (Hm : leb m0 (fold_left (fun m x0 => if ltb x0 m then m else x0)
                                     rest m0) = true)
        by (apply Hle; now left).
      destruct Hx as [<-|[<-|Hx]].
      * now apply (leb_trans _ m0).
      * now apply (leb_trans _ m0).
      * apply Hle. now right.
Qed.

(** [std::max(|lo|, |hi|)] is not below the absolute value of a sample
    between [lo] and [hi]. *)
Lemma peak_spec (lo hi x : T) :
  leb lo x = true -> leb x hi = true ->
  leb (abs x) (if ltb (abs lo) (abs hi) then abs hi else abs lo) = true.
Proof.
  intros Hlo Hhi.
  assert (Nlo : number (abs lo)) by (apply abs_number, (leb_number _ _ Hlo)).
  assert (Nhi : number (abs hi)) by (apply abs_number, (leb_number _ _ Hhi)).
  destruct (ltb (abs lo) (abs hi)) eqn:E;
    destruct (abs_hull lo x hi Hlo Hhi) as [H|H]; try exact H.
  - apply (leb_trans _ (abs lo)); [exact H | now apply ltb_leb].
  - apply (leb_trans _ (abs hi)); [exact H | now apply not_ltb_leb].
Qed.

End Over.

End StatsFacts.

Module StatsProps.

Import PrimFloat.
Import Scalar ScalarFacts StatsFacts.
Import Template.SignalStats.

(** X18. In any arithmetic of [T] whose comparisons satisfy [order], for a
    non-empty signal of numbers, [calculateSignalStats] reports as [min]
    and [max] samples of the signal that bound all the others, and as
    [peak] the absolute value of one of these two, which none of the
    absolute values of the samples exceeds. *)
Theorem signal_stats_extremes
        {T : Type} {O : ops T} {L : order O} (signal : list T) :
  signal <> [] -> Forall number signal ->
  let s := calculateSignalStats signal in
  In (min s) signal /\
  In (max s) signal /\
  (forall x, In x signal -> leb (min s) x = true /\ leb x (max s) = true) /\
  (peak s = abs (min s) \/ peak s = abs (max s)) /\
  (forall x, In x signal -> leb (abs x) (peak s) = true).
Proof.
  destruct signal as [|first rest]; [congruence|]. intros _ Hnum s.
  unfold s, calculateSignalStats.
  destruct (fold_left _ (first :: rest) (of_Z 0, of_Z 0))
    as [sumSquaredDiff sumSquares].
  cbn [min max peak].
  destruct (min_element_spec first rest Hnum) as [Hlo_in Hlo].
  destruct (max_element_spec first rest Hnum) as [Hhi_in Hhi].
  set (lo := min_element first rest) in *.
  set (hi := max_element first rest) in *.
  split; [exact Hlo_in|]. split; [exact Hhi_in|].
  split; [intros x Hx; split; [now apply Hlo | now apply Hhi]|].
  split.
  - destruct (ltb (abs lo) (abs hi)); [now right | now left].
  - intros x Hx. apply peak_spec; [now apply Hlo | now apply Hhi].
Qed.

(** The [double] signal [0.5, -5, 4]. *)
Lemma signal_stats_extremes_witness :
  let signal := [0.5; -5; 4]%float in
  let s := calculateSignalStats (O := binary64) signal in
  In (min s) signal /\ In (max s) signal /\
  (forall x, In x signal -> leb (min s) x = true /\ leb x (max s) = true) /\
  (peak s = abs (min s) \/ peak s = abs (max s)) /\
  (forall x, In x signal -> leb (abs x) (peak s) = true).
Proof.
  intros signal s.
  apply (signal_stats_extremes (O := binary64) signal).
  - discriminate.
  - repeat constructor.
Defined.

End StatsProps.

(* ================================================================== *)
(** * dsp.cpp : correlation *)
(* ================================================================== *)

Module CorrelationFacts.

Import AuxFacts.
Import Vec VecFacts Scalar.
Import Template.Correlation.
Export CorrelationDefs.

Section Over.

Context {T : Type} {O : ops T}.

(** The indices of the terms come in increasing order. *)
Lemma terms_sorted n1 n2 i : StronglySorted lt (terms n1 n2 i).
Proof.
  unfold terms. generalize 0%nat.
  induction n1 as [|n IH]; intros a; cbn [seq filter]; [constructor|].
  destruct ((a <=? i)%nat && (i - a <? n2)%nat); [|apply IH].
  constructor; [apply IH|].
  apply Forall_forall. intros j Hj.
  apply filter_In in Hj. destruct Hj as [Hj _].
  apply in_seq in Hj. lia.
Qed.

(** The loop on [j] for one output index [i]: it only accumulates into
    [result[i]]. *)
Lemma inner_accumulates (c : nat -> bool) (t : nat -> T) i js :
  forall result : list T, (i < length result)%nat ->
    fold_left (fun result j =>
                 if c j
                 then upd result i (add (nth i result (of_Z 0)) (t j))
                 else result)
              js result
    = upd result i
          (fold_left (fun acc j => add acc (t j)) (filter c js)
                     (nth i result (of_Z 0))).
Proof.
  induction js as [|j js IH]; intros result Hi; cbn [fold_left filter].
  - now rewrite upd_nth_same.
  - destruct (c j); cbn [fold_left].
    + rewrite IH by now rewrite upd_length.
      now rewrite upd_upd, nth_upd_same by exact Hi.
    + now rewrite IH by exact Hi.
Qed.

(** The outer loop, after the output indices [0 .. k-1]. *)
Lemma outer_accumulates (a b : list T) m k :
  (k <= m)%nat ->
  fold_left
    (fun result i =>
       fold_left
         (fun result j =>
            if (j <=? i)%nat && (i - j <? length b)%nat
            then upd result i
                     (add (nth i result (of_Z 0))
                          (mul (nth j a (of_Z 0)) (nth (i - j) b (of_Z 0))))
            else result)
         (seq 0 (length a)) result)
    (seq 0 k) (repeat (of_Z 0) m)
  = map (accumulated a b) (seq 0 k) ++ repeat (of_Z 0) (m - k)%nat.
Proof.
  induction k as [|k IH]; intros Hk.
  - cbn [seq map fold_left app]. now rewrite Nat.sub_0_r.
  - rewrite seq_S, fold_left_app, IH by lia. cbn [fold_left Nat.add].
    rewrite (inner_accumulates
               (fun j => (j <=? k)%nat && (k - j <? length b)%nat)
               (fun j => mul (nth j a (of_Z 0)) (nth (k - j) b (of_Z 0)))).
    2:{ rewrite length_app, length_map, length_seq, repeat_length. lia. }
    assert (Hlen : length (map (accumulated a b) (seq 0 k)) = k)
      by now rewrite length_map, length_seq.
    rewrite app_nth2 by lia. rewrite Hlen, Nat.sub_diag.
    replace (m - k)%nat with (S (m - S k)) by lia. cbn [repeat nth].
    rewrite upd_split by (rewrite length_app, Hlen; cbn [length]; lia).
    rewrite firstn_app, Hlen, Nat.sub_diag, firstn_O, app_nil_r.
    rewrite firstn_all2 by lia.
    replace (S k) with (k + 1)%nat at 1 by lia.
    rewrite skipn_app, Hlen. replace (k + 1 - k)%nat with 1%nat by lia.
    rewrite skipn_all2 by lia. cbn [skipn app].
    rewrite map_app. cbn [map]. now rewrite <- app_assoc.
Qed.

End Over.

End CorrelationFacts.

Module CorrelationProps.

Import PrimFloat.
Import Vec VecFacts Scalar CorrelationFacts.
Import Template.Correlation.

(** X21. In any arithmetic of [T], for non-empty signals of [n1] and [n2]
    samples, [crossCorrelation] returns [n1 + n2 - 1] values, and value [i]
    is what the loops leave in [result[i]]: starting from zero, the
    products [signal1[j] * signal2[i - j]] added one after the other, for
    the indices [j < n1] with [j <= i] and [i - j < n2] in increasing
    order (the terms of a convolution, accumulated in that order). *)
Theorem crossCorrelation_is_convolution
        {T : Type} {O : ops T} (signal1 signal2 : list T) :
  signal1 <> [] -> signal2 <> [] ->
  let n1 := length signal1 in
  let n2 := length signal2 in
  let zero := of_Z 0 in
  length (crossCorrelation signal1 signal2) = (n1 + n2 - 1)%nat /\
  (forall i, (i < n1 + n2 - 1)%nat ->
     nth i (crossCorrelation signal1 signal2) zero
     = fold_left
         (fun acc j =>
            add acc (mul (nth j signal1 zero) (nth (i - j) signal2 zero)))
         (terms n1 n2 i) zero) /\
  (forall i j, In j (terms n1 n2 i) <->
               (j < n1 /\ j <= i /\ i - j < n2)%nat) /\
  (forall i, StronglySorted lt (terms n1 n2 i)).
Proof.
  intros H1 H2 n1 n2 zero.
  assert (E : crossCorrelation signal1 signal2
              = map (accumulated signal1 signal2) (seq 0 (n1 + n2 - 1))).
  { unfold crossCorrelation.
    destruct signal1 as [|a0 a']; [congruence|].
    destruct signal2 as [|b0 b']; [congruence|].
    rewrite outer_accumulates by lia.
    now rewrite Nat.sub_diag, app_nil_r. }
  split; [|split; [|split]].
  - now rewrite E, length_map, length_seq.
  - intros i Hi. rewrite E.
    rewrite (nth_indep _ zero (accumulated signal1 signal2 0))
      by now rewrite length_map, length_seq.
    rewrite map_nth, seq_nth by exact Hi. reflexivity.
  - intros i j. unfold terms. rewrite filter_In, in_seq, andb_true_iff.
    rewrite Nat.leb_le, Nat.ltb_lt. lia.
  - intros i. apply terms_sorted.
Qed.

(** The [double] signals [1e16, 1, 1] and [1, 1, 1]. *)
Lemma crossCorrelation_is_convolution_witness :
  let signal1 := [1e16; 1; 1]%float in
  let signal2 := [1; 1; 1]%float in
  length (crossCorrelation (O := binary64) signal1 signal2) = 5%nat /\
  nth 2 (crossCorrelation (O := binary64) signal1 signal2) (of_Z 0)
  = fold_left
      (fun acc j =>
         add acc (mul (nth j signal1 (of_Z 0)) (nth (2 - j) signal2 (of_Z 0))))
      (terms 3 3 2) (of_Z 0).
Proof.
  intros signal1 signal2.
  destruct (crossCorrelation_is_convolution (O := binary64) signal1 signal2)
    as (Hl & Hn & _); [discriminate | discriminate |].
  split; [exact Hl | apply Hn; simpl; lia].
Defined.

End CorrelationProps.

(* ================================================================== *)
(** * dsp.cpp : resampling *)
(* ================================================================== *)

Module ResamplingFacts.

Import AuxFacts.
Import Core Vec VecFacts Resampling.
Local Open Scope R_scope.

Lemma every_spec factor v :
  (1 <= factor)%nat ->
  forall budget i,
    (length v - i <= budget)%nat ->
    every budget factor v i
    = map (fun t => nth (i + t * factor) v 0)
          (seq 0 ((length v - i + factor - 1) / factor)).
Proof.
  intros Hf. induction budget as [|budget IH]; intros i Hb.
  - replace ((length v - i + factor - 1) / factor)%nat with 0%nat.
    + reflexivity.
    + symmetry. apply Nat.div_small. lia.
  - cbn [every]. destruct (Nat.ltb_spec i (length v)) as [Hlt|Hge].
    + rewrite IH by lia.
      replace ((length v - i + factor - 1) / factor)%nat
        with (S ((length v - (i + factor) + factor - 1) / factor)).
      * change (seq 0 (S ?n)) with (0%nat :: seq 1 n).
        cbn [seq map]. rewrite Nat.mul_0_l, Nat.add_0_r. f_equal.
        rewrite <- seq_shift, map_map. apply map_ext. intros t.
        f_equal. simpl. lia.
      * destruct (Nat.le_gt_cases (i + factor) (length v)) as [Hle|Hgt].
        -- replace (length v - i + factor - 1)%nat
             with ((length v - (i + factor) + factor - 1) + 1 * factor)%nat
             by lia.
           rewrite Nat.div_add by lia. lia.
        -- replace (length v - (i + factor) + factor - 1)%nat
             with (factor - 1)%nat by lia.
           rewrite (Nat.div_small (factor - 1)) by lia.
           apply (Nat.div_unique _ _ 1 (length v - i - 1)); lia.
    + replace ((length v - i + factor - 1) / factor)%nat with 0%nat.
      * reflexivity.
      * symmetry. apply Nat.div_small. lia.
Qed.

Lemma zero_stuff_length signal (k : nat) :
  (1 <= k)%nat ->
  length (zero_stuff signal (Z.of_nat k)) = (length signal * k)%nat.
Proof.
  intros Hk. unfold zero_stuff.
  induction signal as [|x v IH]; [reflexivity|].
  cbn [flat_map]. rewrite length_app. cbn [length].
  rewrite repeat_length, IH.
  replace (Z.to_nat (Z.of_nat k - 1)) with (k - 1)%nat by lia. lia.
Qed.

(** The stuffed signal holds sample [t] at index [t k] and zeros
    elsewhere. *)
Lemma zero_stuff_nth signal (k : nat) :
  (1 <= k)%nat ->
  forall t r, (r < k)%nat ->
    nth (t * k + r) (zero_stuff signal (Z.of_nat k)) 0
    = if Nat.eqb r 0 then nth t signal 0 else 0.
Proof.
  intros Hk. unfold zero_stuff.
  replace (Z.to_nat (Z.of_nat k - 1)) with (k - 1)%nat by lia.
  induction signal as [|x v IH]; intros t r Hr.
  - cbn [flat_map]. destruct (t * k + r)%nat, t, (Nat.eqb r 0); reflexivity.
  - cbn [flat_map]. destruct t as [|t].
    + cbn [Nat.mul Nat.add]. destruct r as [|r]; [reflexivity|].
      cbn [Nat.eqb nth app].
      rewrite app_nth1 by (rewrite repeat_length; lia).
      apply nth_repeat.
    + replace (S t * k + r)%nat with (S (k - 1 + (t * k + r))) by lia.
      cbn [nth app]. rewrite app_nth2 by (rewrite repeat_length; lia).
      rewrite repeat_length.
      replace (k - 1 + (t * k + r) - (k - 1))%nat with (t * k + r)%nat by lia.
      now rewrite IH.
Qed.

Lemma decimate_plain w (factor : Z) :
  (1 <= factor)%Z ->
  decimate w factor false
  = map (fun t => nth (t * Z.to_nat factor) w 0)
        (seq 0 ((length w + Z.to_nat factor - 1) / Z.to_nat factor)).
Proof.
  intros Hf. assert (Hk : (1 <= Z.to_nat factor)%nat) by lia.
  destruct w as [|x v].
  - cbn [decimate length]. now rewrite (Nat.div_small (0 + _ - 1)) by lia.
  - unfold decimate. destruct (Z.eqb_spec factor 0); [lia|]. cbn [andb].
    rewrite (every_spec _ _ Hk) by lia. now rewrite Nat.sub_0_r.
Qed.

End ResamplingFacts.

Module ResamplingProps.

Import AuxFacts.
Import Core Vec VecFacts Resampling ResamplingFacts.
Local Open Scope R_scope.

(** X25. Stuffing [factor - 1] zeros after every sample and then keeping every
    [factor]-th sample (both without filter) gives the signal back. *)
Theorem decimate_interpolate (signal : list R) (factor : Z) :
  (1 <= factor < 2 ^ 32)%Z ->
  decimate (interpolate signal factor false) factor false = signal.
Proof.
  intros Hf. destruct signal as [|x v]; [reflexivity|].
  assert (Hk : (1 <= Z.to_nat factor)%nat) by lia.
  rewrite decimate_plain by lia.
  unfold interpolate. destruct (Z.eqb_spec factor 0); [lia|]. cbn [andb].
  assert (Hzs : zero_stuff (x :: v) factor
                = zero_stuff (x :: v) (Z.of_nat (Z.to_nat factor)))
    by now rewrite Z2Nat.id by lia.
  rewrite Hzs, zero_stuff_length by exact Hk.
  replace ((length (x :: v) * Z.to_nat factor + Z.to_nat factor - 1)
           / Z.to_nat factor)%nat with (length (x :: v)).
  2:{ apply (Nat.div_unique _ _ _ (Z.to_nat factor - 1)); lia. }
  rewrite <- (map_nth_seq (x :: v)) at 2.
  apply map_ext. intros t.
  replace (t * Z.to_nat factor)%nat with (t * Z.to_nat factor + 0)%nat at 1
    by lia.
  now rewrite zero_stuff_nth by lia.
Qed.

Lemma decimate_interpolate_witness :
  decimate (interpolate [1; 2; 3] 4 false) 4 false = [1; 2; 3].
Proof. apply (decimate_interpolate [1; 2; 3] 4). lia. Defined.

(** X26. For a factor [k >= 1], with or without the low-pass filter,
    [decimate] returns [ceil (n / k)] samples and [interpolate] returns
    [n k] samples; without filter, [decimate] returns the samples at the
    indices [0, k, 2k, ...] and [interpolate] puts sample [t] at index
    [t k] and zeros elsewhere. *)
Theorem decimate_interpolate_shape
        (signal : list R) (factor : Z) (useFilter : bool) :
  (1 <= factor < 2 ^ 32)%Z ->
  let n := length signal in
  let k := Z.to_nat factor in
  length (decimate signal factor useFilter) = ((n + k - 1) / k)%nat /\
  length (interpolate signal factor useFilter) = (n * k)%nat /\
  (forall t, (t < (n + k - 1) / k)%nat ->
     nth t (decimate signal factor false) 0 = nth (t * k) signal 0) /\
  (forall t r, (r < k)%nat ->
     nth (t * k + r) (interpolate signal factor false) 0
     = if Nat.eqb r 0 then nth t signal 0 else 0).
Proof.
  intros Hf n k.
  assert (Hk : (1 <= k)%nat) by (unfold k; lia).
  destruct signal as [|x v].
  { cbn [decimate interpolate length]. unfold n. cbn [length].
    rewrite (Nat.div_small (0 + k - 1)) by lia.
    repeat split; try reflexivity.
    - intros t Ht. lia.
    - intros t r _. destruct (t * k + r)%nat, t, (Nat.eqb r 0); reflexivity. }
  assert (Hdec : forall w, length w = n ->
            every (length w) k w 0
            = map (fun t => nth (t * k) w 0) (seq 0 ((n + k - 1) / k))).
  { intros w Hw. rewrite (every_spec _ _ Hk) by lia.
    now rewrite Nat.sub_0_r, Hw. }
  assert (Hzs : zero_stuff (x :: v) factor
                = zero_stuff (x :: v) (Z.of_nat k))
    by (unfold k; now rewrite Z2Nat.id by lia).
  unfold decimate, interpolate.
  destruct (Z.eqb_spec factor 0); [lia|]. fold k.
  split; [|split; [|split]].
  - destruct (useFilter && (1 <? factor)%Z).
    + rewrite Hdec by apply process_all_length.
      now rewrite length_map, length_seq.
    + rewrite Hdec by reflexivity. now rewrite length_map, length_seq.
  - destruct (useFilter && (1 <? factor)%Z).
    + rewrite length_map, process_all_length, Hzs. now apply zero_stuff_length.
    + rewrite Hzs. now apply zero_stuff_length.
  - intros t Ht. cbn [andb]. rewrite Hdec by reflexivity.
    rewrite (nth_indep _ 0 (nth (0 * k) (x :: v) 0))
      by now rewrite length_map, length_seq.
    now rewrite (map_nth (fun t => nth (t * k) (x :: v) 0)), seq_nth.
  - intros t r Hr. cbn [andb]. rewrite Hzs. now apply zero_stuff_nth.
Qed.

Lemma decimate_interpolate_shape_witness :
  length (decimate [1; 2; 3; 4; 5] 2 true) = ((5 + 2 - 1) / 2)%nat /\
  length (interpolate [1; 2; 3; 4; 5] 2 true) = (5 * 2)%nat.
Proof.
  pose proof (decimate_interpolate_shape [1; 2; 3; 4; 5] 2 true) as H.
  cbv zeta in H. destruct H as (H1 & H2 & _); [lia|].
  split; [exact H1 | exact H2].
Defined.

(** X27. With factor [1] both [decimate] and [interpolate] return the signal
    unchanged, the filter being skipped whatever [useFilter] says; with
    factor [0] both return an empty vector. *)
Theorem resampling_unit_and_zero_factor (signal : list R) (useFilter : bool) :
  decimate signal 1 useFilter = signal /\
  interpolate signal 1 useFilter = signal /\
  decimate signal 0 useFilter = [] /\
  interpolate signal 0 useFilter = [].
Proof.
  destruct signal as [|x v]; [repeat split; reflexivity|].
  unfold decimate, interpolate. cbn [Z.eqb Z.ltb Z.compare Pos.compare].
  rewrite andb_false_r.
  repeat split.
  - rewrite (every_spec 1) by (change (Z.to_nat 1) with 1%nat; lia).
    change (Z.to_nat 1) with 1%nat.
    rewrite Nat.sub_0_r, Nat.add_sub, Nat.div_1_r.
    rewrite <- (map_nth_seq (x :: v)) at 2. apply map_ext.
    intros t. f_equal. lia.
  - unfold zero_stuff. cbn [Z.sub Z.to_nat Z.add Z.opp Z.pos_sub repeat].
    induction (x :: v) as [|y w IH]; [reflexivity|].
    cbn [flat_map app]. now rewrite IH.
Qed.

End ResamplingProps.

(* ================================================================== *)
(** * dsp.cpp : the filter chain as a cascade *)
(* ================================================================== *)

Module CascadeFacts.

Import AuxFacts.
Import Vec VecFacts RealTimeProcessor ChainFacts.
Export CascadeDefs.

(** One sample through the handles [hs]. *)
Lemma through_cons st h rest x :
  fold_left (fun '(st, output) h => process_at st h output)
            (h :: rest) (st, x)
  = fold_left (fun '(st, output) h => process_at st h output)
              rest (process_at st h x).
Proof. reflexivity. Qed.

Lemma process_at_some st h f x :
  deref st h = Some f ->
  process_at st h x
  = (let '(f', y) := Filter.process f x in (upd st h f', y)).
Proof. intros E. unfold process_at. now rewrite E. Qed.

Lemma process_at_none st h x :
  deref st h = None -> process_at st h x = (st, x).
Proof. intros E. unfold process_at. now rewrite E. Qed.

Lemma process_at_agree L s s' h x :
  agree L s s' -> In h L ->
  snd (process_at s h x) = snd (process_at s' h x) /\
  agree L (fst (process_at s h x)) (fst (process_at s' h x)).
Proof.
  intros Hag Hh. unfold process_at. rewrite <- (Hag h Hh).
  destruct (deref s h) as [f|] eqn:E; [|split; [reflexivity | exact Hag]].
  assert (E' : deref s' h = Some f) by (rewrite <- (Hag h Hh); exact E).
  destruct (Filter.process f x) as [f' y]. cbn [fst snd].
  split; [reflexivity|]. intros h' Hh'.
  destruct (Nat.eq_dec h h') as [<-|Hne].
  - now rewrite (deref_upd_same s h f f' E), (deref_upd_same s' h f f' E').
  - rewrite !deref_upd_other by exact Hne. now apply Hag.
Qed.

Lemma through_agree L hs :
  incl hs L ->
  forall s s' x, agree L s s' ->
    let F := fold_left (fun '(st, output) h => process_at st h output) hs in
    snd (F (s, x)) = snd (F (s', x)) /\
    agree L (fst (F (s, x))) (fst (F (s', x))).
Proof.
  induction hs as [|h rest IH]; intros Hin s s' x Hag; cbv zeta.
  - split; [reflexivity | exact Hag].
  - rewrite !through_cons.
    destruct (process_at_agree L s s' h x Hag) as [Hy Hag'];
      [apply Hin; now left|].
    destruct (process_at s h x) as [s1 y], (process_at s' h x) as [s1' y'].
    cbn [fst snd] in *. subst y'.
    apply IH; [|exact Hag']. intros h' Hh'. apply Hin. now right.
Qed.

Lemma cascade_agree L hs :
  incl hs L ->
  forall s s' signal,
    agree L s s' -> cascade s hs signal = cascade s' hs signal.
Proof.
  induction hs as [|h rest IH]; intros Hin s s' signal Hag; [reflexivity|].
  cbn [cascade]. rewrite <- (Hag h) by (apply Hin; now left).
  assert (Hr : incl rest L) by (intros h' Hh'; apply Hin; now right).
  destruct (deref s h); now apply IH.
Qed.

(** Processing touches the filters of the chain only. *)
Lemma process_at_frame s h x h' :
  h' <> h -> deref (fst (process_at s h x)) h' = deref s h'.
Proof.
  intros Hne. unfold process_at. destruct (deref s h) as [f|]; [|reflexivity].
  destruct (Filter.process f x) as [f' y]. cbn [fst].
  apply deref_upd_other. congruence.
Qed.

Lemma through_frame hs :
  forall s x h',
    ~ In h' hs ->
    deref (fst (fold_left (fun '(st, output) h => process_at st h output)
                          hs (s, x))) h'
    = deref s h'.
Proof.
  induction hs as [|h rest IH]; intros s x h' Hn; [reflexivity|].
  rewrite through_cons.
  destruct (process_at s h x) as [s1 y] eqn:E.
  rewrite IH by (intros Hin; apply Hn; now right).
  change s1 with (fst (s1, y)). rewrite <- E.
  apply process_at_frame. intros ->. apply Hn. now left.
Qed.

Lemma agree_upd hs s h f' :
  ~ In h hs -> agree hs s (upd s h f').
Proof.
  intros Hn h' Hh'. symmetry. apply deref_upd_other. intros ->. contradiction.
Qed.

(** The first sample of a signal, through a chain without repetition. *)
Lemma cascade_cons hs :
  NoDup hs ->
  forall st x xs,
    let F := fold_left (fun '(st, output) h => process_at st h output) hs in
    cascade st hs (x :: xs)
    = snd (F (st, x)) :: cascade (fst (F (st, x))) hs xs.
Proof.
  induction hs as [|h rest IH]; intros Hnd st x xs; cbv zeta; [reflexivity|].
  inversion Hnd as [|? ? Hnin Hnd']; subst.
  rewrite through_cons. cbn [cascade].
  assert (Hframe : forall s1 y,
             deref (fst (fold_left
                           (fun '(st, output) h => process_at st h output)
                           rest (s1, y))) h
             = deref s1 h)
    by (intros; now apply through_frame).
  destruct (deref st h) as [f|] eqn:E.
  - rewrite (process_at_some st h f x E). cbn [process_all].
    destruct (Filter.process f x) as [f1 y] eqn:E1.
    destruct (process_all Filter.process f1 xs) as [f2 ys] eqn:E2.
    cbn [snd]. rewrite (IH Hnd' st y ys). cbv zeta.
    rewrite Hframe, (deref_upd_same st h f f1 E), E2. cbn [snd].
    pose proof (agree_upd rest st h f1 Hnin) as Hag.
    destruct (through_agree rest rest (incl_refl _) st (upd st h f1) y Hag)
      as [Hy Hag'].
    cbv zeta in Hy, Hag'. rewrite Hy. f_equal.
    now apply (cascade_agree rest rest (incl_refl _)).
  - rewrite (process_at_none st h x E), (IH Hnd' st x xs). cbv zeta.
    now rewrite Hframe, E.
Qed.

End CascadeFacts.

Module CascadeProps.

Import AuxFacts.
Import Vec VecFacts RealTimeProcessor ChainFacts CascadeFacts.

(** X30. For a chain that holds no filter twice, [processBuffer], which passes
    each sample through the whole chain before the next one, returns the
    same signal as running the filters one after the other, each over the
    whole signal; the result has one sample for each input sample, and
    filters outside the chain are never touched (here without any
    condition on the chain). *)
Theorem processBuffer_is_cascade (st : store) (p : t) (input : list R) :
  (NoDup (m_filters p) ->
   snd (processBuffer st p input) = cascade st (m_filters p) input) /\
  length (snd (processBuffer st p input)) = length input /\
  (forall h, ~ In h (m_filters p) ->
     deref (fst (processBuffer st p input)) h = deref st h).
Proof.
  unfold processBuffer, processSample. split; [|split].
  - intros Hnd. revert st.
    induction input as [|x xs IH]; intros st.
    + cbn [process_all snd]. clear.
      induction (m_filters p) as [|h rest IHh]; [reflexivity|].
      cbn [cascade process_all snd]. destruct (deref st h); exact IHh.
    + rewrite cascade_cons by exact Hnd. cbv zeta. cbn [process_all].
      destruct (fold_left _ (m_filters p) (st, x)) as [st1 y].
      specialize (IH st1).
      destruct (process_all _ st1 xs) as [st2 ys].
      cbn [fst snd] in *. now rewrite IH.
  - apply process_all_length.
  - intros h Hn. revert st.
    induction input as [|x xs IH]; intros st; [reflexivity|].
    cbn [process_all].
    pose proof (through_frame (m_filters p) st x h Hn) as Hf.
    destruct (fold_left _ (m_filters p) (st, x)) as [st1 y].
    specialize (IH st1).
    destruct (process_all _ st1 xs) as [st2 ys].
    cbn [fst] in *. now rewrite IH.
Qed.

Lemma processBuffer_is_cascade_witness :
  let st := [Filter.LowPass (LowPassFilter.make_alpha (1 / 2));
             Filter.Median (MedianFilter.make 3)] in
  let p := {| m_bufferSize := 64; m_sampleRate := 1000%R;
              m_filters := [0%nat; 1%nat]; m_latency := 4 |} in
  snd (processBuffer st p [1; 2; 3]%R) = cascade st [0%nat; 1%nat] [1; 2; 3]%R.
Proof.
  apply (processBuffer_is_cascade
           [Filter.LowPass (LowPassFilter.make_alpha (1 / 2));
            Filter.Median (MedianFilter.make 3)]
           {| m_bufferSize := 64; m_sampleRate := 1000%R;
              m_filters := [0%nat; 1%nat]; m_latency := 4 |}).
  cbn [m_filters]. repeat constructor; simpl; intuition discriminate.
Defined.

End CascadeProps.
